(** * Pong: ball physics, paddles and the match engine

    A shallow embedding of [src/js/ball.js] (class Ball), of the Paddle
    class, of the InputHandler class of [src/js/audio.js] and of the Game
    class of [src/js/main.js], with the properties the specification
    states about them.

    Number model.  JavaScript numbers are modelled as real numbers
    ([R] of the Standard Library): arithmetic is exact, and rounding,
    the sign of zero, infinities and NaN are outside the model, but for
    the divisions whose divisor can be 0, which give a [Quotient].  The
    correspondence is

      Math.abs  ~ Rabs      Math.min ~ Rmin      Math.max ~ Rmax
      Math.sqrt ~ sqrt      Math.cos ~ cos       Math.sin ~ sin
      Math.PI   ~ PI        Math.sign ~ Math.sign (below)
      Math.atan2 ~ Math.atan2 (below)
      Math.floor ~ Int_part (as an integer)
      Math.random() ~ the next draw of an explicit stream [Rng]

    ([Math.min] and [Math.max] below are the two on a [Quotient].)  The
    sine of [PI] is 0 here, where [Math.sin(Math.PI)] is about 1.2e-16:
    what is proved of a velocity derived from an angle holds of the
    code's doubles up to such rounding.

    Counters that only ever hold integers (scores, directions) are [Z].
    Each method [m] of a class becomes a function on the record of the
    object's fields; a method that assigns to [this] returns the new
    record, a method that only reads returns its value. *)

From Stdlib Require Import Reals Lra Lia ZArith List String Bool.
Import ListNotations.
Open Scope R_scope.

(** ** Numbers *)

(** What a division gives when its divisor can be 0: a number, an
    infinity (x / 0 for an x other than 0) or NaN (0 / 0). *)
Inductive Quotient := Num (r : R) | Infinity | NegInfinity | NaN.

(** [a / b]. *)
Definition divide (a b : R) : Quotient :=
  if Req_dec_T b 0 then
    if Req_dec_T a 0 then NaN
    else if Rlt_dec 0 a then Infinity else NegInfinity
  else Num (a / b).

(** [q > m] for a number [m]: false for NaN. *)
Definition gtq (q : Quotient) (m : R) : bool :=
  match q with
  | Num r => if Rgt_dec r m then true else false
  | Infinity => true
  | NegInfinity => false
  | NaN => false
  end.

Module Math.

(** [Math.min(m, q)] and [Math.max(m, q)] for a number [m]: an infinity
    is compared like a number, NaN gives NaN. *)
Definition min (m : R) (q : Quotient) : Quotient :=
  match q with
  | Num r => Num (Rmin m r)
  | Infinity => Num m
  | NegInfinity => NegInfinity
  | NaN => NaN
  end.

Definition max (m : R) (q : Quotient) : Quotient :=
  match q with
  | Num r => Num (Rmax m r)
  | Infinity => Infinity
  | NegInfinity => Num m
  | NaN => NaN
  end.

(** [Math.sign(x)]: 1, -1 or 0. *)
Definition sign (x : R) : R :=
  if Rlt_dec 0 x then 1 else if Rlt_dec x 0 then -1 else 0.

(** [Math.atan2(y, x)], the angle of the point (x, y) in (-PI, PI],
    and 0 at the origin. *)
Definition atan2 (y x : R) : R :=
  if Rlt_dec 0 x then atan (y / x)
  else if Rlt_dec x 0 then
    (if Rle_dec 0 y then atan (y / x) + PI else atan (y / x) - PI)
  else
    (if Rlt_dec 0 y then PI / 2 else if Rlt_dec y 0 then - (PI / 2) else 0).

End Math.

(** [Math.random()]: the stream of the draws still to come.  Each draw is
    a number of [0, 1), see [rng_ok]. *)
Definition Rng := nat -> R.

Definition random (rnd : Rng) : R * Rng := (rnd 0%nat, fun n => rnd (S n)).

Definition rng_ok (rnd : Rng) : Prop := forall n, 0 <= rnd n < 1.

(** Boolean tests, as JavaScript's comparison operators give them. *)
Definition ltb (a b : R) : bool := if Rlt_dec a b then true else false.
Definition leb (a b : R) : bool := if Rle_dec a b then true else false.
Definition gtb (a b : R) : bool := if Rgt_dec a b then true else false.
Definition geb (a b : R) : bool := if Rge_dec a b then true else false.

(** The rectangle [getBounds()] returns. *)
Record Bounds := mkBounds {
  left : R; right : R; top : R; bottom : R
}.

(** ** The ball's fields *)

Module BallState.

(** The fields the constructor of [Ball] assigns ([color] is used by
    [render] only and is left out). *)
Record t := mk {
  x : R;
  y : R;
  canvasWidth : R;
  canvasHeight : R;
  radius : R;
  initialSpeed : R;
  speed : R;
  maxSpeed : R;
  speedIncrement : R;
  maxBounceAngle : R;
  velocityX : R;
  velocityY : R
}.

Definition set_x (b : t) (v : R) : t :=
  mk v (y b) (canvasWidth b) (canvasHeight b) (radius b) (initialSpeed b)
     (speed b) (maxSpeed b) (speedIncrement b) (maxBounceAngle b)
     (velocityX b) (velocityY b).

Definition set_y (b : t) (v : R) : t :=
  mk (x b) v (canvasWidth b) (canvasHeight b) (radius b) (initialSpeed b)
     (speed b) (maxSpeed b) (speedIncrement b) (maxBounceAngle b)
     (velocityX b) (velocityY b).

Definition set_canvas (b : t) (w h : R) : t :=
  mk (x b) (y b) w h (radius b) (initialSpeed b)
     (speed b) (maxSpeed b) (speedIncrement b) (maxBounceAngle b)
     (velocityX b) (velocityY b).

Definition set_speed (b : t) (v : R) : t :=
  mk (x b) (y b) (canvasWidth b) (canvasHeight b) (radius b)
     (initialSpeed b) v (maxSpeed b) (speedIncrement b) (maxBounceAngle b)
     (velocityX b) (velocityY b).

Definition set_velocityX (b : t) (v : R) : t :=
  mk (x b) (y b) (canvasWidth b) (canvasHeight b) (radius b)
     (initialSpeed b) (speed b) (maxSpeed b) (speedIncrement b)
     (maxBounceAngle b) v (velocityY b).

Definition set_velocityY (b : t) (v : R) : t :=
  mk (x b) (y b) (canvasWidth b) (canvasHeight b) (radius b)
     (initialSpeed b) (speed b) (maxSpeed b) (speedIncrement b)
     (maxBounceAngle b) (velocityX b) v.

End BallState.

(** ** The rectangle of the canvas on the page *)

Module DOMRect.

(** What [canvas.getBoundingClientRect()] returns, as far as the input
    handler reads it. *)
Record t := mk {
  left : R;
  top : R;
  width : R;
  height : R
}.

End DOMRect.

(** ** InputHandler *)

Module InputHandler.

(** [keys] is the object used as a map from key codes to booleans:
    [keys i k] tells whether [this.keys[k]] is [true].  A code never
    pressed is absent, which reads as false. *)
Record t := mk {
  keys : string -> bool;
  touchDirection : Z;
  isTouching : bool
}.

(** The state the constructor leaves: no key down, no touch. *)
Definition constructor : t := mk (fun _ => false) 0%Z false.

Definition getInputDirection (i : t) : Z :=
  if keys i "KeyW" || keys i "ArrowUp" then (-1)%Z
  else if keys i "KeyS" || keys i "ArrowDown" then 1%Z
  else touchDirection i.

Definition isKeyPressed (i : t) (keyCode : string) : bool := keys i keyCode.

Definition isTouchActive (i : t) : bool := isTouching i.

(** [this.keys[code] = v].  The object is a plain one: assigning a boolean
    to its ["__proto__"] does nothing, and reading it never gives
    [true]. *)
Definition set_key (i : t) (code : string) (v : bool) : t :=
  if String.eqb code "__proto__" then i
  else mk (fun k => if String.eqb k code then v else keys i k)
          (touchDirection i) (isTouching i).

Definition set_touchDirection (i : t) (d : Z) : t :=
  mk (keys i) d (isTouching i).

Definition set_isTouching (i : t) (v : bool) : t :=
  mk (keys i) (touchDirection i) v.

(** [handleKeyDown(e)] and [handleKeyUp(e)], for the event's [code]. *)
Definition handleKeyDown (code : string) (i : t) : t := set_key i code true.

Definition handleKeyUp (code : string) (i : t) : t := set_key i code false.

Definition processTouchPosition
    (rect : DOMRect.t) (clientX clientY : R) (i : t) : t :=
  let x := clientX - DOMRect.left rect in
  let y := clientY - DOMRect.top rect in
  if ltb x (DOMRect.width rect / 2) then
    let middleY := DOMRect.height rect / 2 in
    if ltb y middleY then set_touchDirection i (-1)%Z
    else set_touchDirection i 1%Z
  else set_touchDirection i 0%Z.

(** [handleTouchStart(event)], for the client coordinates of
    [event.touches].  It reads [touches[0].clientX] without a test: on an
    empty list this throws, which is [None]. *)
Definition handleTouchStart
    (rect : DOMRect.t) (touches : list (R * R)) (i : t) : option t :=
  match touches with
  | (clientX, clientY) :: _ =>
      let i := processTouchPosition rect clientX clientY i in
      Some (set_isTouching i true)
  | [] => None
  end.

Definition handleTouchMove
    (rect : DOMRect.t) (touches : list (R * R)) (i : t) : t :=
  match touches with
  | (clientX, clientY) :: _ => processTouchPosition rect clientX clientY i
  | [] => i
  end.

Definition handleTouchEnd (i : t) : t :=
  set_isTouching (set_touchDirection i 0%Z) false.

Definition handleMouseDown
    (rect : DOMRect.t) (clientX clientY : R) (i : t) : t :=
  let i := processTouchPosition rect clientX clientY i in
  set_isTouching i true.

Definition handleMouseUp (i : t) : t :=
  set_isTouching (set_touchDirection i 0%Z) false.

End InputHandler.

(** ** AudioManager *)

(** The [state] of an audio context. *)
Inductive ContextState := Suspended | Running.

(** A tone handed to the Web Audio API: the oscillator's frequency and
    type, the gain at its start and at its end, and its length in
    seconds. *)
Record Beep := mkBeep {
  frequency : R;
  squareWave : bool;
  startGain : R;
  endGain : R;
  durationSeconds : R
}.

Module AudioManager.

(** [audioContext] is the context or null. *)
Record t := mk {
  audioContext : option ContextState;
  masterVolume : R;
  initialized : bool
}.

(** [init()]: [created] is what [new AudioContext()] gives, the state of
    the new context, or [None] when it throws (no Web Audio API). *)
Definition init (created : option ContextState) (a : t) : t :=
  match created with
  | Some c => mk (Some c) (masterVolume a) true
  | None => mk (audioContext a) (masterVolume a) false
  end.

Definition constructor (created : option ContextState) : t :=
  init created (mk None 0.3 false).

(** [resumeContext()]: [resumed] tells whether [resume()] succeeds. *)
Definition resumeContext (resumed : bool) (a : t) : t :=
  match audioContext a with
  | Some Suspended =>
      if resumed then mk (Some Running) (masterVolume a) (initialized a) else a
  | _ => a
  end.

(** [playBeep(frequency, duration)]: the manager afterwards and the tone
    handed to the API, if any; the calls to the API after the guard are
    taken not to throw. *)
Definition playBeep (resumed : bool) (frequency duration : R) (a : t)
  : t * option Beep :=
  if negb (initialized a) || (match audioContext a with None => true | Some _ => false end)
  then (a, None)
  else
    let a := resumeContext resumed a in
    let durationSeconds := duration / 1000 in
    (a, Some (mkBeep frequency true (masterVolume a) 0.01 durationSeconds)).

Definition playWallHit (resumed : bool) (a : t) := playBeep resumed 220 50 a.
Definition playPaddleHit (resumed : bool) (a : t) := playBeep resumed 440 50 a.
Definition playScore (resumed : bool) (a : t) := playBeep resumed 330 100 a.
Definition playGameOver (resumed : bool) (a : t) := playBeep resumed 110 200 a.

Definition setVolume (volume : R) (a : t) : t :=
  mk (audioContext a) (Rmax 0 (Rmin 1 volume)) (initialized a).

Definition destroy (a : t) : t :=
  match audioContext a with
  | Some _ => mk None (masterVolume a) (initialized a)
  | None => a
  end.

End AudioManager.

(** ** Paddle *)

Module Paddle.

Record t := mk {
  x : R;
  y : R;
  width : R;
  height : R;
  canvasHeight : R;
  isAI : bool;
  speed : R;
  velocity : Z;
  aiTolerance : R;
  aiReturnSpeed : R
}.

Definition constructor (x y width height canvasHeight : R) (isAI : bool) : t :=
  mk x y width height canvasHeight isAI 300 0%Z 15 0.6.

Definition set_x (p : t) (v : R) : t :=
  mk v (y p) (width p) (height p) (canvasHeight p) (isAI p) (speed p)
     (velocity p) (aiTolerance p) (aiReturnSpeed p).

Definition set_y (p : t) (v : R) : t :=
  mk (x p) v (width p) (height p) (canvasHeight p) (isAI p) (speed p)
     (velocity p) (aiTolerance p) (aiReturnSpeed p).

Definition set_canvasHeight (p : t) (v : R) : t :=
  mk (x p) (y p) (width p) (height p) v (isAI p) (speed p)
     (velocity p) (aiTolerance p) (aiReturnSpeed p).

Definition set_velocity (p : t) (v : Z) : t :=
  mk (x p) (y p) (width p) (height p) (canvasHeight p) (isAI p) (speed p)
     v (aiTolerance p) (aiReturnSpeed p).

(** The last statement of both update methods. *)
Definition enforceBounds (p : t) : t :=
  set_y p (Rmax 0 (Rmin (canvasHeight p - height p) (y p))).

Definition update (deltaTime : R) (inputHandler : InputHandler.t) (p : t) : t :=
  if isAI p then p
  else
    let direction := InputHandler.getInputDirection inputHandler in
    let p := set_velocity p direction in
    let p := set_y p (y p + IZR (velocity p) * speed p * deltaTime) in
    enforceBounds p.

Definition updateAI (ball : BallState.t) (deltaTime : R) (p : t) : t :=
  if negb (isAI p) then p
  else
    let paddleCenter := y p + height p / 2 in
    let canvasCenter := canvasHeight p / 2 in
    let ballMovingTowardAI := gtb (BallState.velocityX ball) 0 in
    let p :=
      if ballMovingTowardAI then
        let ballY := BallState.y ball in
        let p :=
          if ltb ballY (paddleCenter - aiTolerance p) then set_velocity p (-1)%Z
          else if gtb ballY (paddleCenter + aiTolerance p) then set_velocity p 1%Z
          else set_velocity p 0%Z in
        set_y p (y p + IZR (velocity p) * speed p * deltaTime)
      else
        if ltb paddleCenter (canvasCenter - 10) then
          let p := set_velocity p 1%Z in
          set_y p (y p + IZR (velocity p) * speed p * aiReturnSpeed p * deltaTime)
        else if gtb paddleCenter (canvasCenter + 10) then
          let p := set_velocity p (-1)%Z in
          set_y p (y p + IZR (velocity p) * speed p * aiReturnSpeed p * deltaTime)
        else set_velocity p 0%Z in
    enforceBounds p.

Definition getBounds (p : t) : Bounds :=
  mkBounds (x p) (x p + width p) (y p) (y p + height p).

Definition reset (x y : R) (p : t) : t :=
  set_velocity (set_y (set_x p x) y) 0%Z.

End Paddle.

(** ** Ball *)

Module Ball.

Include BallState.

Definition setRandomVelocity (b : t) (rnd : Rng) : t * Rng :=
  let (u1, rnd) := random rnd in
  let angle := u1 * PI / 6 + PI / 6 in
  let (u2, rnd) := random rnd in
  let quadrant := Int_part (u2 * 4) in
  (* Math.random() < 1, so the quadrant is one of 0, 1, 2, 3 *)
  let finalAngle :=
    match quadrant with
    | 0%Z => angle
    | 1%Z => PI - angle
    | 2%Z => PI + angle
    | _ => 2 * PI - angle
    end in
  let b := set_velocityX b (cos finalAngle * speed b) in
  let b := set_velocityY b (sin finalAngle * speed b) in
  (b, rnd).

Definition constructor (x y canvasWidth canvasHeight : R) (rnd : Rng) : t * Rng :=
  setRandomVelocity
    (mk x y canvasWidth canvasHeight 10 300 300 600 1.05 (PI / 3) 0 0) rnd.

Definition update (deltaTime : R) (b : t) : t :=
  let b := set_x b (x b + velocityX b * deltaTime) in
  set_y b (y b + velocityY b * deltaTime).

Definition checkWallCollision (b : t) : t * bool :=
  let hit := false in
  let (b, hit) :=
    if leb (y b - radius b) 0 then
      (set_velocityY (set_y b (radius b)) (Rabs (velocityY b)), true)
    else (b, hit) in
  let (b, hit) :=
    if geb (y b + radius b) (canvasHeight b) then
      (set_velocityY (set_y b (canvasHeight b - radius b))
                     (- Rabs (velocityY b)), true)
    else (b, hit) in
  (b, hit).

Definition getBounds (b : t) : Bounds :=
  mkBounds (x b - radius b) (x b + radius b) (y b - radius b) (y b + radius b).

(** [None] is JavaScript's [null].  The divisor of the hit point is 0 for
    a paddle of height 0. *)
Definition checkPaddleCollision (b : t) (paddle : Paddle.t) : option Quotient :=
  let ballBounds := getBounds b in
  let paddleBounds := Paddle.getBounds paddle in
  let xOverlap := geb (right ballBounds) (left paddleBounds)
                  && leb (left ballBounds) (right paddleBounds) in
  let yOverlap := geb (bottom ballBounds) (top paddleBounds)
                  && leb (top ballBounds) (bottom paddleBounds) in
  if xOverlap && yOverlap then
    let paddleCenter := Paddle.y paddle + Paddle.height paddle / 2 in
    let hitPoint := divide (y b - paddleCenter) (Paddle.height paddle / 2) in
    Some (Math.max (-1) (Math.min 1 hitPoint))
  else None.

Definition increaseSpeed (b : t) : t :=
  let b := set_speed b (Rmin (speed b * speedIncrement b) (maxSpeed b)) in
  let currentAngle := Math.atan2 (velocityY b) (velocityX b) in
  let b := set_velocityX b (cos currentAngle * speed b) in
  set_velocityY b (sin currentAngle * speed b).

Definition applyPaddleHit (hitPoint : R) (b : t) : t :=
  let b := set_velocityX b (velocityX b * -1) in
  let angle := hitPoint * maxBounceAngle b in
  let currentSpeed :=
    sqrt (velocityX b * velocityX b + velocityY b * velocityY b) in
  let xSign := Math.sign (velocityX b) in
  let b := set_velocityX b (xSign * currentSpeed * cos angle) in
  let b := set_velocityY b (currentSpeed * sin angle) in
  let b := increaseSpeed b in
  let separation := 2 in
  set_x b (x b + xSign * separation).

Definition reset (x y : R) (b : t) (rnd : Rng) : t * Rng :=
  let b := set_x b x in
  let b := set_y b y in
  let b := set_speed b (initialSpeed b) in
  setRandomVelocity b rnd.

End Ball.

(** ** Game *)

(** The values of [Game.state], the strings 'PLAYING' and 'GAME_OVER'. *)
Inductive Status := PLAYING | GAME_OVER.

(** The calls made to the audio manager: [playWallHit], [playPaddleHit],
    [playScore] and [playGameOver]. *)
Inductive Sound := WallHitSound | PaddleHitSound | ScoreSound | GameOverSound.

Module Game.

(** [canvas], [ctx] and [animationId] serve rendering and scheduling and
    are left out; [audioManager] is the list of the sounds played so far,
    oldest first. *)
Record t := mk {
  width : R;
  height : R;
  state : Status;
  playerScore : Z;
  aiScore : Z;
  targetScore : Z;
  inputHandler : InputHandler.t;
  playerPaddle : Paddle.t;
  aiPaddle : Paddle.t;
  ball : Ball.t;
  audioManager : list Sound;
  lastTime : R;
  PADDLE_OFFSET : R;
  PADDLE_WIDTH : R;
  PADDLE_HEIGHT : R
}.

Definition set_size (g : t) (w h : R) : t :=
  mk w h (state g) (playerScore g) (aiScore g) (targetScore g)
     (inputHandler g) (playerPaddle g) (aiPaddle g) (ball g)
     (audioManager g) (lastTime g)
     (PADDLE_OFFSET g) (PADDLE_WIDTH g) (PADDLE_HEIGHT g).

Definition set_state (g : t) (s : Status) : t :=
  mk (width g) (height g) s (playerScore g) (aiScore g) (targetScore g)
     (inputHandler g) (playerPaddle g) (aiPaddle g) (ball g)
     (audioManager g) (lastTime g)
     (PADDLE_OFFSET g) (PADDLE_WIDTH g) (PADDLE_HEIGHT g).

Definition set_playerScore (g : t) (n : Z) : t :=
  mk (width g) (height g) (state g) n (aiScore g) (targetScore g)
     (inputHandler g) (playerPaddle g) (aiPaddle g) (ball g)
     (audioManager g) (lastTime g)
     (PADDLE_OFFSET g) (PADDLE_WIDTH g) (PADDLE_HEIGHT g).

Definition set_aiScore (g : t) (n : Z) : t :=
  mk (width g) (height g) (state g) (playerScore g) n (targetScore g)
     (inputHandler g) (playerPaddle g) (aiPaddle g) (ball g)
     (audioManager g) (lastTime g)
     (PADDLE_OFFSET g) (PADDLE_WIDTH g) (PADDLE_HEIGHT g).

Definition set_inputHandler (g : t) (i : InputHandler.t) : t :=
  mk (width g) (height g) (state g) (playerScore g) (aiScore g)
     (targetScore g) i (playerPaddle g) (aiPaddle g) (ball g)
     (audioManager g) (lastTime g)
     (PADDLE_OFFSET g) (PADDLE_WIDTH g) (PADDLE_HEIGHT g).

Definition set_playerPaddle (g : t) (p : Paddle.t) : t :=
  mk (width g) (height g) (state g) (playerScore g) (aiScore g)
     (targetScore g) (inputHandler g) p (aiPaddle g) (ball g)
     (audioManager g) (lastTime g)
     (PADDLE_OFFSET g) (PADDLE_WIDTH g) (PADDLE_HEIGHT g).

Definition set_aiPaddle (g : t) (p : Paddle.t) : t :=
  mk (width g) (height g) (state g) (playerScore g) (aiScore g)
     (targetScore g) (inputHandler g) (playerPaddle g) p (ball g)
     (audioManager g) (lastTime g)
     (PADDLE_OFFSET g) (PADDLE_WIDTH g) (PADDLE_HEIGHT g).

Definition set_ball (g : t) (b : Ball.t) : t :=
  mk (width g) (height g) (state g) (playerScore g) (aiScore g)
     (targetScore g) (inputHandler g) (playerPaddle g) (aiPaddle g) b
     (audioManager g) (lastTime g)
     (PADDLE_OFFSET g) (PADDLE_WIDTH g) (PADDLE_HEIGHT g).

Definition set_lastTime (g : t) (v : R) : t :=
  mk (width g) (height g) (state g) (playerScore g) (aiScore g)
     (targetScore g) (inputHandler g) (playerPaddle g) (aiPaddle g) (ball g)
     (audioManager g) v
     (PADDLE_OFFSET g) (PADDLE_WIDTH g) (PADDLE_HEIGHT g).

(** One call to the audio manager. *)
Definition play (g : t) (s : Sound) : t :=
  mk (width g) (height g) (state g) (playerScore g) (aiScore g)
     (targetScore g) (inputHandler g) (playerPaddle g) (aiPaddle g) (ball g)
     (audioManager g ++ [s]) (lastTime g)
     (PADDLE_OFFSET g) (PADDLE_WIDTH g) (PADDLE_HEIGHT g).

(** The constructor followed by [init]. *)
Definition constructor (width height : R) (rnd : Rng) : t * Rng :=
  let PADDLE_OFFSET := 20 in
  let PADDLE_WIDTH := 8 in
  let PADDLE_HEIGHT := 80 in
  let playerPaddle :=
    Paddle.constructor PADDLE_OFFSET (height / 2 - PADDLE_HEIGHT / 2)
                       PADDLE_WIDTH PADDLE_HEIGHT height false in
  let aiPaddle :=
    Paddle.constructor (width - PADDLE_OFFSET - PADDLE_WIDTH)
                       (height / 2 - PADDLE_HEIGHT / 2)
                       PADDLE_WIDTH PADDLE_HEIGHT height true in
  let (ball, rnd) := Ball.constructor (width / 2) (height / 2) width height rnd in
  (mk width height PLAYING 0%Z 0%Z 10%Z InputHandler.constructor
      playerPaddle aiPaddle ball [] 0
      PADDLE_OFFSET PADDLE_WIDTH PADDLE_HEIGHT, rnd).

(** A hit point that is not a number (NaN, for a paddle of height 0 hit
    on its line) is not null: the code applies it and plays the sound, and
    the velocity it gives the ball is NaN, which the balls of this file
    cannot hold.  The pass then leaves the ball as it is; the paddles of a
    game have the height 80 of the constructor (see [layout]), and what is
    proved below of the ball after a pass is proved for paddles of a
    height other than 0. *)
Definition checkCollisions (g : t) : t :=
  let (b, hit) := Ball.checkWallCollision (ball g) in
  let g := set_ball g b in
  let g := if hit then play g WallHitSound else g in
  let playerHitPoint := Ball.checkPaddleCollision (ball g) (playerPaddle g) in
  let g :=
    match playerHitPoint with
    | Some (Num h) =>
        play (set_ball g (Ball.applyPaddleHit h (ball g))) PaddleHitSound
    | Some _ => play g PaddleHitSound
    | None => g
    end in
  let aiHitPoint := Ball.checkPaddleCollision (ball g) (aiPaddle g) in
  match aiHitPoint with
  | Some (Num h) =>
      play (set_ball g (Ball.applyPaddleHit h (ball g))) PaddleHitSound
  | Some _ => play g PaddleHitSound
  | None => g
  end.

Definition checkWinCondition (g : t) : t :=
  if (playerScore g >=? targetScore g)%Z || (aiScore g >=? targetScore g)%Z
  then play (set_state g GAME_OVER) GameOverSound
  else g.

Definition checkScoring (g : t) (rnd : Rng) : t * Rng :=
  let ballX := Ball.x (ball g) in
  let ballRadius := Ball.radius (ball g) in
  let (g, rnd) :=
    if ltb (ballX + ballRadius) 0 then
      let g := set_aiScore g (aiScore g + 1)%Z in
      let g := play g ScoreSound in
      let (b, rnd) := Ball.reset (width g / 2) (height g / 2) (ball g) rnd in
      let g := set_ball g b in
      (checkWinCondition g, rnd)
    else (g, rnd) in
  let (g, rnd) :=
    if gtb (ballX - ballRadius) (width g) then
      let g := set_playerScore g (playerScore g + 1)%Z in
      let g := play g ScoreSound in
      let (b, rnd) := Ball.reset (width g / 2) (height g / 2) (ball g) rnd in
      let g := set_ball g b in
      (checkWinCondition g, rnd)
    else (g, rnd) in
  (g, rnd).

Definition reset (g : t) (rnd : Rng) : t * Rng :=
  let g := set_state g PLAYING in
  let g := set_playerScore g 0%Z in
  let g := set_aiScore g 0%Z in
  let g := set_playerPaddle g
             (Paddle.reset (PADDLE_OFFSET g)
                           (height g / 2 - PADDLE_HEIGHT g / 2)
                           (playerPaddle g)) in
  let g := set_aiPaddle g
             (Paddle.reset (width g - PADDLE_OFFSET g - PADDLE_WIDTH g)
                           (height g / 2 - PADDLE_HEIGHT g / 2)
                           (aiPaddle g)) in
  let (b, rnd) := Ball.reset (width g / 2) (height g / 2) (ball g) rnd in
  (set_ball g b, rnd).

(** The first block of [update]: what a tick does while 'PLAYING'. *)
Definition updatePlaying (deltaTime : R) (g : t) (rnd : Rng) : t * Rng :=
  match state g with
  | PLAYING =>
      let g := set_playerPaddle g
                 (Paddle.update deltaTime (inputHandler g) (playerPaddle g)) in
      let g := set_aiPaddle g
                 (Paddle.updateAI (ball g) deltaTime (aiPaddle g)) in
      let g := set_ball g (Ball.update deltaTime (ball g)) in
      let g := checkCollisions g in
      checkScoring g rnd
  | GAME_OVER => (g, rnd)
  end.

(** The restart input: the Space key, or an active touch. *)
Definition restartRequested (g : t) : bool :=
  InputHandler.isKeyPressed (inputHandler g) "Space"
  || InputHandler.isTouchActive (inputHandler g).

(** The second block of [update]: the restart check. *)
Definition updateRestart (g : t) (rnd : Rng) : t * Rng :=
  match state g with
  | GAME_OVER => if restartRequested g then reset g rnd else (g, rnd)
  | PLAYING => (g, rnd)
  end.

Definition update (deltaTime : R) (g : t) (rnd : Rng) : t * Rng :=
  let (g, rnd) := updatePlaying deltaTime g rnd in
  updateRestart g rnd.

(** One frame of the loop, without the rendering and the scheduling of
    the next frame. *)
Definition gameLoop (currentTime : R) (g : t) (rnd : Rng) : t * Rng :=
  let deltaTime := (currentTime - lastTime g) / 1000 in
  let cappedDt := Rmin deltaTime 0.1 in
  let g := set_lastTime g currentTime in
  update cappedDt g rnd.

(** [start()]: [now] is what [performance.now()] returns. *)
Definition start (now : R) (g : t) (rnd : Rng) : t * Rng :=
  let g := set_lastTime g now in
  gameLoop (lastTime g) g rnd.

(** The name [drawGameOver] puts in its message
    'Game Over - ... Wins!'. *)
Definition winner (g : t) : string :=
  if (playerScore g >=? targetScore g)%Z then "Player" else "AI".

Definition handleResize (newWidth newHeight : R) (g : t) : t :=
  let g := set_size g newWidth newHeight in
  let g := set_playerPaddle g
             (Paddle.set_canvasHeight (playerPaddle g) newHeight) in
  let g := set_aiPaddle g (Paddle.set_canvasHeight (aiPaddle g) newHeight) in
  let g := set_ball g (Ball.set_canvas (ball g) newWidth newHeight) in
  let g := set_playerPaddle g
             (Paddle.set_x (playerPaddle g) (PADDLE_OFFSET g)) in
  set_aiPaddle g
    (Paddle.set_x (aiPaddle g) (newWidth - PADDLE_OFFSET g - PADDLE_WIDTH g)).

End Game.

(** What the host does to a running game: it calls the loop with the time
    of a frame, its listeners change the input handler, or the window is
    resized. *)
Inductive HostEvent :=
| Frame (currentTime : R)
| Input (i : InputHandler.t)
| Resize (newWidth newHeight : R).

Definition step (e : HostEvent) (g : Game.t) (rnd : Rng) : Game.t * Rng :=
  match e with
  | Frame currentTime => Game.gameLoop currentTime g rnd
  | Input i => (Game.set_inputHandler g i, rnd)
  | Resize w h => (Game.handleResize w h g, rnd)
  end.

Fixpoint run (es : list HostEvent) (g : Game.t) (rnd : Rng) : Game.t * Rng :=
  match es with
  | [] => (g, rnd)
  | e :: es => let (g, rnd) := step e g rnd in run es g rnd
  end.

(** ** The canvas *)

Module Canvas.

(** What [setupCanvas] leaves: the display size it returns as [width] and
    [height] (and sets as the style of the canvas), and the size of the
    canvas in device pixels. *)
Record t := mk {
  width : R;
  height : R;
  pixelWidth : R;
  pixelHeight : R
}.

(** The margin left around the canvas, for a viewport of the given
    width. *)
Definition margin (innerWidth : R) : R :=
  if ltb innerWidth 768 then 20 else 40.

(** [setupCanvas()], for the [innerWidth] and [innerHeight] of the window
    and its [devicePixelRatio] ([None] when the browser has none; a ratio
    of 0, like a missing one, reads as 1).  The height left by the margin
    can be 0, and the ratio of the sides is a [Quotient]. *)
Definition setupCanvas
    (innerWidth innerHeight : R) (devicePixelRatio : option R) : t :=
  let aspectRatio := 3 / 2 in
  let width := innerWidth in
  let height := innerHeight in
  let margin := if ltb width 768 then 20 else 40 in
  let width := width - margin in
  let height := height - margin in
  let (width, height) :=
    if gtq (divide width height) aspectRatio then
      let height := Rmin height 600 in
      (height * aspectRatio, height)
    else
      let width := Rmin width 900 in
      (width, width / aspectRatio) in
  let dpr :=
    match devicePixelRatio with
    | Some d => if Req_dec_T d 0 then 1 else d
    | None => 1
    end in
  mk width height (width * dpr) (height * dpr).

End Canvas.

(** What the listener of DOMContentLoaded does: it sets the canvas up,
    makes the game and starts it. *)
Definition main (innerWidth innerHeight : R) (devicePixelRatio : option R)
    (now : R) (rnd : Rng) : Game.t * Rng :=
  let c := Canvas.setupCanvas innerWidth innerHeight devicePixelRatio in
  let (game, rnd) := Game.constructor (Canvas.width c) (Canvas.height c) rnd in
  Game.start now game rnd.

(** What the listener of the window's resize does, once its timeout has
    run out. *)
Definition onResize (innerWidth innerHeight : R) (devicePixelRatio : option R)
    (g : Game.t) : Game.t :=
  let c := Canvas.setupCanvas innerWidth innerHeight devicePixelRatio in
  Game.handleResize (Canvas.width c) (Canvas.height c) g.

(** ** Construction *)

(** What evaluating a [new] expression gives: the object, or a thrown
    validation error. *)
Inductive Construction (A : Type) :=
| Constructed (a : A)
| ValidationError (message : string).
Arguments Constructed {A} a.
Arguments ValidationError {A} message.

(** None of the three constructors has a [throw]: each runs to its end. *)
Definition new_Ball (x y canvasWidth canvasHeight : R) (rnd : Rng)
  : Construction (Ball.t * Rng) :=
  Constructed (Ball.constructor x y canvasWidth canvasHeight rnd).

Definition new_Paddle (x y width height canvasHeight : R) (isAI : bool)
  : Construction Paddle.t :=
  Constructed (Paddle.constructor x y width height canvasHeight isAI).

Definition new_Game (width height : R) (rnd : Rng)
  : Construction (Game.t * Rng) :=
  Constructed (Game.constructor width height rnd).

(** * The vocabulary of the properties *)

(** The paddle is fully on screen. *)
Definition onScreen (p : Paddle.t) : Prop :=
  0 <= Paddle.y p <= Paddle.canvasHeight p - Paddle.height p.

(** A stream of draws, all 0. *)
Definition zeros : Rng := fun _ => 0.

(** The ball lies between the two walls. *)
Definition inField (b : Ball.t) : Prop :=
  Ball.radius b <= Ball.y b <= Ball.canvasHeight b - Ball.radius b.

(** The test of the first [if] of [checkWallCollision] succeeds. *)
Definition topWallHit (b : Ball.t) : Prop := Ball.y b - Ball.radius b <= 0.

(** The test of the second [if] succeeds; it reads the [y] the first one
    may have assigned. *)
Definition bottomWallHit (b : Ball.t) : Prop :=
  (if leb (Ball.y b - Ball.radius b) 0 then Ball.radius b else Ball.y b)
  + Ball.radius b >= Ball.canvasHeight b.

(** Two rectangles overlap: the test of axis-aligned bounding boxes,
    edges included. *)
Definition overlap (a c : Bounds) : Prop :=
  (right a >= left c /\ left a <= right c) /\
  (bottom a >= top c /\ top a <= bottom c).

Definition boxesOverlap (b : Ball.t) (p : Paddle.t) : Prop :=
  overlap (Ball.getBounds b) (Paddle.getBounds p).

(** The values the constructor gives to the fields no method assigns. *)
Definition constants (b : Ball.t) : Prop :=
  Ball.radius b = 10 /\ Ball.initialSpeed b = 300 /\ Ball.maxSpeed b = 600 /\
  Ball.speedIncrement b = 1.05 /\ Ball.maxBounceAngle b = PI / 3.

(** The length of the velocity vector. *)
Definition magnitude (b : Ball.t) : R :=
  sqrt (Ball.velocityX b * Ball.velocityX b + Ball.velocityY b * Ball.velocityY b).

(** What holds of every ball the program can hold (see [reachable]). *)
Record invariant (b : Ball.t) : Prop := {
  inv_constants : constants b;
  inv_speed : Ball.initialSpeed b <= Ball.speed b <= Ball.maxSpeed b;
  inv_magnitude :
    Ball.velocityX b * Ball.velocityX b + Ball.velocityY b * Ball.velocityY b
    = Ball.speed b * Ball.speed b;
  inv_horizontal : Ball.speed b <= 2 * Rabs (Ball.velocityX b)
}.

(** The balls the program can hold: the constructor makes one from draws
    of [Math.random], and the methods of [Ball] and the resizing of the
    canvas take one to the next.  [applyPaddleHit] is called on the hit
    points [checkPaddleCollision] returns, as in [Game.checkCollisions]. *)
Inductive reachable : Ball.t -> Prop :=
| reach_constructor x y canvasWidth canvasHeight rnd :
    rng_ok rnd ->
    reachable (fst (Ball.constructor x y canvasWidth canvasHeight rnd))
| reach_setRandomVelocity b rnd :
    reachable b -> rng_ok rnd -> reachable (fst (Ball.setRandomVelocity b rnd))
| reach_update b deltaTime :
    reachable b -> reachable (Ball.update deltaTime b)
| reach_checkWallCollision b :
    reachable b -> reachable (fst (Ball.checkWallCollision b))
| reach_applyPaddleHit b paddle hitPoint :
    reachable b -> Paddle.height paddle <> 0 ->
    Ball.checkPaddleCollision b paddle = Some (Num hitPoint) ->
    reachable (Ball.applyPaddleHit hitPoint b)
| reach_increaseSpeed b :
    reachable b -> reachable (Ball.increaseSpeed b)
| reach_reset b x y rnd :
    reachable b -> rng_ok rnd -> reachable (fst (Ball.reset x y b rnd))
| reach_resize b newWidth newHeight :
    reachable b -> reachable (Ball.set_canvas b newWidth newHeight).

(** The velocity [applyPaddleHit] computes before it calls
    [increaseSpeed]: x reversed, at the hit angle, at the length the
    velocity had. *)
Definition rebound (hitPoint : R) (b : Ball.t) : Ball.t :=
  let xSign := Math.sign (Ball.velocityX b * -1) in
  Ball.set_velocityY
    (Ball.set_velocityX b
       (xSign * magnitude b * cos (hitPoint * Ball.maxBounceAngle b)))
    (magnitude b * sin (hitPoint * Ball.maxBounceAngle b)).

(** The speed stays between the initial and the maximal one. *)
Definition speedBounds (b : Ball.t) : Prop :=
  constants b /\ Ball.initialSpeed b <= Ball.speed b <= Ball.maxSpeed b.

(** A sequence of paddle hits, at the given hit points. *)
Fixpoint paddleHits (hitPoints : list R) (b : Ball.t) : Ball.t :=
  match hitPoints with
  | [] => b
  | h :: hitPoints => paddleHits hitPoints (Ball.applyPaddleHit h b)
  end.

(** The ball a game 800 by 600 starts with, for draws that are all 0. *)
Definition firstBall : Ball.t := fst (Ball.constructor 400 300 800 600 zeros).

(** The invariant of the specification's data model. *)
Definition speedInvariant (b : Ball.t) : Prop :=
  magnitude b = Ball.speed b /\ 0 < Ball.speed b <= Ball.maxSpeed b.

(** The tests of the two branches of [checkScoring]: the ball's right edge
    is left of x = 0, its left edge is right of x = width. *)
Definition exitedLeft (g : Game.t) : Prop :=
  Ball.x (Game.ball g) + Ball.radius (Game.ball g) < 0.

Definition exitedRight (g : Game.t) : Prop :=
  Ball.x (Game.ball g) - Ball.radius (Game.ball g) > Game.width g.

(** The ball is where [reset] puts it after a point: at the centre of the
    canvas, at its initial speed. *)
Definition ballAtCenter (g : Game.t) : Prop :=
  Ball.x (Game.ball g) = Game.width g / 2 /\
  Ball.y (Game.ball g) = Game.height g / 2 /\
  Ball.speed (Game.ball g) = Ball.initialSpeed (Game.ball g).

(** The ball has just been served: it has its initial speed, and a
    velocity of that length. *)
Definition served (b : Ball.t) : Prop :=
  Ball.speed b = Ball.initialSpeed b /\
  Ball.velocityX b * Ball.velocityX b + Ball.velocityY b * Ball.velocityY b
  = Ball.initialSpeed b * Ball.initialSpeed b.

(** A game of width -50, as its constructor makes it. *)
Definition narrowGame : Game.t := fst (Game.constructor (-50) 600 zeros).

(** The canvas has a width, and both paddles are inside it. *)
Definition paddlesInside (g : Game.t) : Prop :=
  0 <= Game.width g /\
  0 <= Paddle.x (Game.playerPaddle g) /\
  Paddle.x (Game.playerPaddle g) + Paddle.width (Game.playerPaddle g)
  <= Game.width g /\
  0 <= Paddle.x (Game.aiPaddle g) /\
  Paddle.x (Game.aiPaddle g) + Paddle.width (Game.aiPaddle g) <= Game.width g.

(** The two Boolean tests of [checkWinCondition]. *)
Definition winTest (g : Game.t) : bool :=
  (Game.playerScore g >=? Game.targetScore g)%Z
  || (Game.aiScore g >=? Game.targetScore g)%Z.

(** The point of the first branch of [checkScoring], and of the second. *)
Definition aiPoint (g : Game.t) (rnd : Rng) : Game.t * Rng :=
  let g := Game.set_aiScore g (Game.aiScore g + 1)%Z in
  let g := Game.play g ScoreSound in
  let (b, rnd) :=
    Ball.reset (Game.width g / 2) (Game.height g / 2) (Game.ball g) rnd in
  (Game.checkWinCondition (Game.set_ball g b), rnd).

Definition playerPoint (g : Game.t) (rnd : Rng) : Game.t * Rng :=
  let g := Game.set_playerScore g (Game.playerScore g + 1)%Z in
  let g := Game.play g ScoreSound in
  let (b, rnd) :=
    Ball.reset (Game.width g / 2) (Game.height g / 2) (Game.ball g) rnd in
  (Game.checkWinCondition (Game.set_ball g b), rnd).

(** The game just before the scoring pass of a tick. *)
Definition beforeScoring (deltaTime : R) (g : Game.t) : Game.t :=
  let g := Game.set_playerPaddle g
             (Paddle.update deltaTime (Game.inputHandler g) (Game.playerPaddle g)) in
  let g := Game.set_aiPaddle g
             (Paddle.updateAI (Game.ball g) deltaTime (Game.aiPaddle g)) in
  let g := Game.set_ball g (Ball.update deltaTime (Game.ball g)) in
  Game.checkCollisions g.

(** The game of scenario 1: a game 800 by 600 whose ball is at (5, 300)
    and moves left at 50 pixels per second. *)
Definition scenarioGame : Game.t :=
  Game.set_ball (fst (Game.constructor 800 600 zeros))
    (Ball.mk 5 300 800 600 10 300 300 600 1.05 (PI / 3) (-50) 0).

(** A score has reached the target. *)
Definition won (g : Game.t) : Prop :=
  (Game.targetScore g <= Game.playerScore g)%Z
  \/ (Game.targetScore g <= Game.aiScore g)%Z.

(** What holds of a game all along (see [run_invariant]). *)
Record gameInvariant (g : Game.t) : Prop := {
  gi_target : Game.targetScore g = 10%Z;
  gi_player : (0 <= Game.playerScore g <= Game.targetScore g)%Z;
  gi_ai : (0 <= Game.aiScore g <= Game.targetScore g)%Z;
  gi_status : Game.state g = GAME_OVER <-> won g
}.

(** What a run of the game keeps: the ball is one of [reachable], the
    paddles have a height, the draws to come are numbers of [0, 1). *)
Definition sound (g : Game.t) (rnd : Rng) : Prop :=
  reachable (Game.ball g) /\
  Paddle.height (Game.playerPaddle g) <> 0 /\
  Paddle.height (Game.aiPaddle g) <> 0 /\
  rng_ok rnd.


(** A game 800 by 600 whose ball, coming from the right, touches the
    player's paddle at the height of its centre. *)
Definition hitGame : Game.t :=
  Game.set_ball (fst (Game.constructor 800 600 zeros))
    (Ball.mk 30 300 800 600 10 300 300 600 1.05 (PI / 3) (-300) 0).

(** The game of scenario 1 with the AI at 9 points, while the player
    holds a finger on the screen to move the paddle up. *)
Definition touchedGame : Game.t :=
  Game.set_inputHandler (Game.set_aiScore scenarioGame 9%Z)
                        (InputHandler.mk (fun _ => false) (-1)%Z true).

(** The states of the input handler: the one its constructor leaves, and
    those its listeners make of it.  A [touchstart] without a touch throws
    before it assigns anything. *)
Inductive inputReachable : InputHandler.t -> Prop :=
| input_constructor : inputReachable InputHandler.constructor
| input_keyDown i code :
    inputReachable i -> inputReachable (InputHandler.handleKeyDown code i)
| input_keyUp i code :
    inputReachable i -> inputReachable (InputHandler.handleKeyUp code i)
| input_touchStart i rect touches i' :
    inputReachable i ->
    InputHandler.handleTouchStart rect touches i = Some i' ->
    inputReachable i'
| input_touchMove i rect touches :
    inputReachable i ->
    inputReachable (InputHandler.handleTouchMove rect touches i)
| input_touchEnd i :
    inputReachable i -> inputReachable (InputHandler.handleTouchEnd i)
| input_mouseDown i rect clientX clientY :
    inputReachable i ->
    inputReachable (InputHandler.handleMouseDown rect clientX clientY i)
| input_mouseUp i :
    inputReachable i -> inputReachable (InputHandler.handleMouseUp i).

(** A direction: up, none or down. *)
Definition isDirection (d : Z) : Prop := d = (-1)%Z \/ d = 0%Z \/ d = 1%Z.

(** None of the four movement keys is down. *)
Definition noMoveKey (i : InputHandler.t) : Prop :=
  InputHandler.keys i "KeyW" = false /\ InputHandler.keys i "ArrowUp" = false /\
  InputHandler.keys i "KeyS" = false /\ InputHandler.keys i "ArrowDown" = false.

(** The point is in the left half of the canvas, and in its upper half. *)
Definition inLeftHalf (rect : DOMRect.t) (clientX : R) : Prop :=
  clientX - DOMRect.left rect < DOMRect.width rect / 2.

Definition inUpperHalf (rect : DOMRect.t) (clientY : R) : Prop :=
  clientY - DOMRect.top rect < DOMRect.height rect / 2.

(** The fields of a paddle that no method but the constructor and the
    resizing assign: the paddle with its [y] and its [velocity] blanked. *)
Definition paddleFrame (p : Paddle.t) : Paddle.t :=
  Paddle.mk (Paddle.x p) 0 (Paddle.width p) (Paddle.height p)
            (Paddle.canvasHeight p) (Paddle.isAI p) (Paddle.speed p) 0%Z
            (Paddle.aiTolerance p) (Paddle.aiReturnSpeed p).

(** The same for a ball: its position, speed and velocity blanked. *)
Definition ballFrame (b : Ball.t) : Ball.t :=
  Ball.mk 0 0 (Ball.canvasWidth b) (Ball.canvasHeight b) (Ball.radius b)
          (Ball.initialSpeed b) 0 (Ball.maxSpeed b) (Ball.speedIncrement b)
          (Ball.maxBounceAngle b) 0 0.

(** The layout of a game: the constants of its constructor, the player's
    paddle on the left and the AI's on the right of a canvas of the game's
    size, both 8 by 80, and a ball of radius 10 that knows this canvas. *)
Record layout (g : Game.t) : Prop := {
  lay_offset : Game.PADDLE_OFFSET g = 20;
  lay_width : Game.PADDLE_WIDTH g = 8;
  lay_height : Game.PADDLE_HEIGHT g = 80;
  lay_target : Game.targetScore g = 10%Z;
  lay_player :
    paddleFrame (Game.playerPaddle g)
    = Paddle.mk 20 0 8 80 (Game.height g) false 300 0%Z 15 0.6;
  lay_ai :
    paddleFrame (Game.aiPaddle g)
    = Paddle.mk (Game.width g - 20 - 8) 0 8 80 (Game.height g) true 300 0%Z 15 0.6;
  lay_ball :
    ballFrame (Game.ball g)
    = Ball.mk 0 0 (Game.width g) (Game.height g) 10 300 0 600 1.05 (PI / 3) 0 0
}.

(** The game after the listeners have run [handler] on its input
    handler. *)
Definition withInput (handler : InputHandler.t -> InputHandler.t) (g : Game.t)
  : Game.t :=
  Game.set_inputHandler g (handler (Game.inputHandler g)).

(** The game of scenario 1 with the AI at 9 points, after the tick in
    which the ball leaves on the left: a game that is over. *)
Definition finishedGame : Game.t :=
  fst (Game.updatePlaying 0.4 (Game.set_aiScore scenarioGame 9%Z) zeros).

(** The values the constructor gives to the fields of a paddle that no
    method assigns. *)
Definition paddleConstants (p : Paddle.t) : Prop :=
  Paddle.speed p = 300 /\ Paddle.aiTolerance p = 15 /\
  Paddle.aiReturnSpeed p = 0.6.

(** The vertical centre of a paddle. *)
Definition paddleCenter (p : Paddle.t) : R := Paddle.y p + Paddle.height p / 2.

(** What the browser sends to the page: a frame of the animation, the
    events of the keyboard, of the touch screen and of the mouse on the
    canvas, and the resizing of the window, once the delay of its listener
    has passed and [setupCanvas] runs again. *)
Inductive WindowEvent :=
| AnimationFrame (currentTime : R)
| KeyDown (code : string)
| KeyUp (code : string)
| TouchStart (rect : DOMRect.t) (touches : list (R * R))
| TouchMove (rect : DOMRect.t) (touches : list (R * R))
| TouchEnd
| MouseDown (rect : DOMRect.t) (clientX clientY : R)
| MouseUp
| WindowResize (innerWidth innerHeight : R) (devicePixelRatio : option R).

(** The listener of each event, on the game [main] has made.  A touch
    start without a touch throws in its listener, which leaves the game as
    it is. *)
Definition dispatch (e : WindowEvent) (g : Game.t) (rnd : Rng) : Game.t * Rng :=
  match e with
  | AnimationFrame currentTime => Game.gameLoop currentTime g rnd
  | KeyDown code => (withInput (InputHandler.handleKeyDown code) g, rnd)
  | KeyUp code => (withInput (InputHandler.handleKeyUp code) g, rnd)
  | TouchStart rect touches =>
      (match InputHandler.handleTouchStart rect touches (Game.inputHandler g) with
       | Some i => Game.set_inputHandler g i
       | None => g
       end, rnd)
  | TouchMove rect touches =>
      (withInput (InputHandler.handleTouchMove rect touches) g, rnd)
  | TouchEnd => (withInput InputHandler.handleTouchEnd g, rnd)
  | MouseDown rect clientX clientY =>
      (withInput (InputHandler.handleMouseDown rect clientX clientY) g, rnd)
  | MouseUp => (withInput InputHandler.handleMouseUp g, rnd)
  | WindowResize innerWidth innerHeight devicePixelRatio =>
      (onResize innerWidth innerHeight devicePixelRatio g, rnd)
  end.

Fixpoint program (es : list WindowEvent) (g : Game.t) (rnd : Rng)
  : Game.t * Rng :=
  match es with
  | [] => (g, rnd)
  | e :: es => let (g, rnd) := dispatch e g rnd in program es g rnd
  end.

(** The width of a viewport is not negative. *)
Definition viewportOk (innerWidth : R) : Prop := 0 <= innerWidth.

Fixpoint viewportsOk (es : list WindowEvent) : Prop :=
  match es with
  | [] => True
  | WindowResize innerWidth innerHeight _ :: es =>
      viewportOk innerWidth /\ viewportsOk es
  | _ :: es => viewportsOk es
  end.

(** What the game of the page keeps: its layout, its scores and status,
    and a width of at least -20. *)
Record wired (g : Game.t) : Prop := {
  wired_layout : layout g;
  wired_scores : gameInvariant g;
  wired_width : -20 <= Game.width g
}.

(** The points scored so far, by both sides. *)
Definition points (g : Game.t) : Z := (Game.playerScore g + Game.aiScore g)%Z.

(** A call of a method of the audio manager, with what the browser answers
    where it has a say. *)
Inductive AudioCall :=
| CallInit (created : option ContextState)
| CallResumeContext (resumed : bool)
| CallPlayBeep (resumed : bool) (frequency duration : R)
| CallPlayWallHit (resumed : bool)
| CallPlayPaddleHit (resumed : bool)
| CallPlayScore (resumed : bool)
| CallPlayGameOver (resumed : bool)
| CallSetVolume (volume : R)
| CallDestroy.

Definition audioCall (c : AudioCall) (a : AudioManager.t)
  : AudioManager.t * option Beep :=
  match c with
  | CallInit created => (AudioManager.init created a, None)
  | CallResumeContext resumed => (AudioManager.resumeContext resumed a, None)
  | CallPlayBeep resumed frequency duration =>
      AudioManager.playBeep resumed frequency duration a
  | CallPlayWallHit resumed => AudioManager.playWallHit resumed a
  | CallPlayPaddleHit resumed => AudioManager.playPaddleHit resumed a
  | CallPlayScore resumed => AudioManager.playScore resumed a
  | CallPlayGameOver resumed => AudioManager.playGameOver resumed a
  | CallSetVolume volume => (AudioManager.setVolume volume a, None)
  | CallDestroy => (AudioManager.destroy a, None)
  end.

(** The manager after the calls, and the tones handed to the API, oldest
    first. *)
Fixpoint audioCalls (cs : list AudioCall) (a : AudioManager.t)
  : AudioManager.t * list Beep :=
  match cs with
  | [] => (a, [])
  | c :: cs =>
      let (a, beep) := audioCall c a in
      let (a', beeps) := audioCalls cs a in
      (a', match beep with Some b => b :: beeps | None => beeps end)
  end.

(** The calls that give the manager a context. *)
Definition createsContext (c : AudioCall) : bool :=
  match c with
  | CallInit (Some _) => true
  | _ => false
  end.

(** The guard of [playBeep] stops the call. *)
Definition silent (a : AudioManager.t) : Prop :=
  AudioManager.initialized a = false \/ AudioManager.audioContext a = None.

(** A manager made where there is no Web Audio API, one whose [init] has
    failed, one that was destroyed. *)
Inductive silenced : AudioManager.t -> Prop :=
| silenced_unsupported : silenced (AudioManager.constructor None)
| silenced_failed (a : AudioManager.t) : silenced (AudioManager.init None a)
| silenced_destroyed (a : AudioManager.t) : silenced (AudioManager.destroy a).

Definition volumeInRange (a : AudioManager.t) : Prop :=
  0 <= AudioManager.masterVolume a <= 1.

(** The state of the context after [resumeContext]. *)
Definition afterResume (resumed : bool) (c : ContextState) : ContextState :=
  match c with
  | Suspended => if resumed then Running else Suspended
  | Running => Running
  end.

Definition Sound_eqb (s s' : Sound) : bool :=
  match s, s' with
  | WallHitSound, WallHitSound | PaddleHitSound, PaddleHitSound
  | ScoreSound, ScoreSound | GameOverSound, GameOverSound => true
  | _, _ => false
  end.

(** How many times the sound [s] is in the list. *)
Definition countSound (s : Sound) (l : list Sound) : nat :=
  List.length (filter (Sound_eqb s) l).

(** The sounds of a pass: [s] if the pass played it. *)
Definition played (b : bool) (s : Sound) : list Sound :=
  if b then [s] else [].

(** * Properties *)

(** ** Tactics and facts about the number model *)

(** Case analysis on every comparison in sight, then linear arithmetic. *)
Ltac split_cmp :=
  repeat match goal with
    | |- context [Rlt_dec ?a ?b] => destruct (Rlt_dec a b)
    | |- context [Rle_dec ?a ?b] => destruct (Rle_dec a b)
    | |- context [Rgt_dec ?a ?b] => destruct (Rgt_dec a b)
    | |- context [Rge_dec ?a ?b] => destruct (Rge_dec a b)
    | H : context [Rlt_dec ?a ?b] |- _ => destruct (Rlt_dec a b)
    | H : context [Rle_dec ?a ?b] |- _ => destruct (Rle_dec a b)
    | H : context [Rgt_dec ?a ?b] |- _ => destruct (Rgt_dec a b)
    | H : context [Rge_dec ?a ?b] |- _ => destruct (Rge_dec a b)
    end.

Ltac cmp := unfold ltb, leb, gtb, geb, Rmax, Rmin in *; split_cmp.

Lemma ltb_spec (a b : R) : ltb a b = true <-> a < b.
Proof. cmp; split; intros; try lra; try discriminate; reflexivity. Qed.

Lemma leb_spec (a b : R) : leb a b = true <-> a <= b.
Proof. cmp; split; intros; try lra; try discriminate; reflexivity. Qed.

Lemma gtb_spec (a b : R) : gtb a b = true <-> a > b.
Proof. cmp; split; intros; try lra; try discriminate; reflexivity. Qed.

Lemma geb_spec (a b : R) : geb a b = true <-> a >= b.
Proof. cmp; split; intros; try lra; try discriminate; reflexivity. Qed.

(** Running the paddle's methods on given fields. *)
Ltac run_paddle :=
  cbv [Paddle.update Paddle.updateAI Paddle.constructor Paddle.enforceBounds
       Paddle.reset Paddle.getBounds
       Paddle.set_x Paddle.set_y Paddle.set_velocity Paddle.set_canvasHeight
       Paddle.x Paddle.y Paddle.width Paddle.height Paddle.canvasHeight
       Paddle.isAI Paddle.speed Paddle.velocity Paddle.aiTolerance
       Paddle.aiReturnSpeed
       InputHandler.getInputDirection InputHandler.constructor
       InputHandler.keys InputHandler.touchDirection InputHandler.isTouching
       InputHandler.isKeyPressed InputHandler.isTouchActive
       orb andb negb].

Lemma clamp_range (lo hi v : R) : lo <= hi -> lo <= Rmax lo (Rmin hi v) <= hi.
Proof. intros; cmp; lra. Qed.

(** ** Paddle: the screen bounds *)

Lemma enforceBounds_onScreen (p : Paddle.t) :
  Paddle.height p <= Paddle.canvasHeight p -> onScreen (Paddle.enforceBounds p).
Proof.
  intros H; unfold onScreen, Paddle.enforceBounds; simpl.
  apply clamp_range; lra.
Qed.

(** Scenario 2 of the specification: a human paddle at y = 100 on a canvas
    400 high, moving down for half a second, ends at y = 250. *)
Example paddle_scenario_2 :
  let down := InputHandler.mk (fun _ => false) 1%Z true in
  Paddle.y (Paddle.update 0.5 down (Paddle.constructor 20 100 8 80 400 false))
  = 250.
Proof. run_paddle. cmp; lra. Qed.

(** C4, as stated, fails: on a canvas lower than the paddle (a window so
    small that the canvas is 50 high, under the 80 of the paddle) the clamp
    of [update] leaves y = 0, above the upper bound canvasHeight - height
    = -30, and this with direction 0 and dt 0. *)
Lemma paddle_update_low_canvas_off_screen :
  let p := Paddle.update 0 InputHandler.constructor
                         (Paddle.constructor 20 0 8 80 50 false) in
  Paddle.y p = 0 /\ ~ onScreen p.
Proof.
  unfold onScreen; run_paddle.
  replace (Rmax 0 (Rmin (50 - 80) (0 + 0 * 300 * 0))) with 0 by (cmp; lra).
  split; [reflexivity | lra].
Qed.

(** C4, amended: on a canvas at least as high as the paddle, [update] on a
    human paddle and [updateAI] on an AI paddle leave y in
    [0, canvasHeight - height], for every input handler, ball and dt; on
    the paddle of the other role each method returns at once and changes
    nothing. *)
Theorem paddle_update_on_screen
    (p : Paddle.t) (dt : R) (i : InputHandler.t) (ball : Ball.t) :
  Paddle.height p <= Paddle.canvasHeight p ->
  (Paddle.isAI p = false -> onScreen (Paddle.update dt i p)) /\
  (Paddle.isAI p = true -> onScreen (Paddle.updateAI ball dt p)) /\
  (Paddle.isAI p = true -> Paddle.update dt i p = p) /\
  (Paddle.isAI p = false -> Paddle.updateAI ball dt p = p).
Proof.
  intros Hfit; split; [| split; [| split]]; intros Hrole.
  - unfold Paddle.update; rewrite Hrole.
    apply enforceBounds_onScreen; simpl; assumption.
  - unfold Paddle.updateAI; rewrite Hrole; simpl negb; cbv iota.
    apply enforceBounds_onScreen.
    repeat match goal with |- context [if ?c then _ else _] => destruct c end;
      simpl; assumption.
  - unfold Paddle.update; rewrite Hrole; reflexivity.
  - unfold Paddle.updateAI; rewrite Hrole; reflexivity.
Qed.

Lemma paddle_update_on_screen_witness :
  let p := Paddle.constructor 20 100 8 80 400 false in
  let down := InputHandler.mk (fun _ => false) 1%Z true in
  Paddle.height p <= Paddle.canvasHeight p /\
  onScreen (Paddle.update 0.5 down p).
Proof.
  assert (H : Paddle.height (Paddle.constructor 20 100 8 80 400 false)
              <= Paddle.canvasHeight (Paddle.constructor 20 100 8 80 400 false))
    by (simpl; lra).
  split; [exact H |].
  exact (proj1 (paddle_update_on_screen
                  (Paddle.constructor 20 100 8 80 400 false) 0.5
                  (InputHandler.mk (fun _ => false) 1%Z true)
                  (Ball.mk 0 0 0 0 0 0 0 0 0 0 0 0) H) eq_refl).
Defined.

(** ** Ball: the walls *)

(** Running the ball's methods on given fields. *)
Ltac run_ball :=
  cbv [Ball.constructor Ball.setRandomVelocity Ball.update
       Ball.checkWallCollision Ball.getBounds Ball.checkPaddleCollision
       Ball.increaseSpeed Ball.applyPaddleHit Ball.reset random
       Ball.set_x Ball.set_y Ball.set_canvas Ball.set_speed
       Ball.set_velocityX Ball.set_velocityY
       Ball.x Ball.y Ball.canvasWidth Ball.canvasHeight Ball.radius
       Ball.initialSpeed Ball.speed Ball.maxSpeed Ball.speedIncrement
       Ball.maxBounceAngle Ball.velocityX Ball.velocityY
       BallState.set_x BallState.set_y BallState.set_canvas
       BallState.set_speed BallState.set_velocityX BallState.set_velocityY
       BallState.x BallState.y BallState.canvasWidth BallState.canvasHeight
       BallState.radius BallState.initialSpeed BallState.speed
       BallState.maxSpeed BallState.speedIncrement BallState.maxBounceAngle
       BallState.velocityX BallState.velocityY
       left right top bottom fst snd].

(** C2, as stated, fails: on a canvas lower than the ball's diameter (10
    high, for the radius 10 of every ball) both tests succeed, the second
    one puts the ball at y = canvasHeight - radius = 0, which is under
    radius. *)
Lemma wall_collision_low_canvas_out_of_field :
  let b := fst (Ball.checkWallCollision (fst (Ball.constructor 5 5 15 10 zeros))) in
  Ball.y b = 0 /\ Ball.radius b = 10 /\ ~ inField b.
Proof.
  unfold inField; run_ball.
  destruct (leb (5 - 10) 0) eqn:E1;
    [| exfalso; revert E1; cmp; intros; try discriminate; lra].
  cbv iota beta.
  destruct (geb (10 + 10) 10) eqn:E2;
    [| exfalso; revert E2; cmp; intros; try discriminate; lra].
  cbv iota beta.
  split; [lra | split; [reflexivity | lra]].
Qed.

(** C2, amended: when the canvas is at least as high as the ball's
    diameter, the ball lies in [radius, canvasHeight - radius] after
    [checkWallCollision]; the result is true exactly when one of the two
    tests succeeded; vy is non-positive whenever the bottom test succeeded
    and non-negative when the top test alone did; both succeed in one call
    only if canvasHeight = 2 * radius. *)
Theorem wall_collision_in_field (b : Ball.t) :
  2 * Ball.radius b <= Ball.canvasHeight b ->
  let b' := fst (Ball.checkWallCollision b) in
  inField b' /\
  (snd (Ball.checkWallCollision b) = true <-> topWallHit b \/ bottomWallHit b) /\
  (bottomWallHit b -> Ball.velocityY b' <= 0) /\
  (topWallHit b -> ~ bottomWallHit b -> 0 <= Ball.velocityY b') /\
  (topWallHit b -> bottomWallHit b -> Ball.canvasHeight b = 2 * Ball.radius b).
Proof.
  intros Hfit; unfold inField, topWallHit, bottomWallHit.
  destruct b as [bx by_ cw ch r s0 s smax inc ang vx vy]; simpl in Hfit.
  unfold Ball.checkWallCollision; simpl.
  destruct (leb (by_ - r) 0) eqn:E1; simpl;
    [apply leb_spec in E1 | assert (N1 : ~ by_ - r <= 0)
                               by (rewrite <- leb_spec; congruence)].
  - destruct (geb (r + r) ch) eqn:E2; simpl;
      [apply geb_spec in E2 | assert (N2 : ~ r + r >= ch)
                                 by (rewrite <- geb_spec; congruence)].
    + pose proof (Rabs_pos (Rabs vy)).
      repeat split; intros; try tauto; try lra.
    + pose proof (Rabs_pos vy).
      repeat split; intros; try tauto; try lra; try discriminate.
  - destruct (geb (by_ + r) ch) eqn:E2; simpl;
      [apply geb_spec in E2 | assert (N2 : ~ by_ + r >= ch)
                                 by (rewrite <- geb_spec; congruence)].
    + pose proof (Rabs_pos vy).
      repeat split; intros; try tauto; try lra.
    + repeat split; intros; try tauto; try lra; try discriminate.
Qed.

Lemma wall_collision_in_field_witness :
  let b := fst (Ball.constructor 400 5 800 600 zeros) in
  2 * Ball.radius b <= Ball.canvasHeight b /\
  inField (fst (Ball.checkWallCollision b)).
Proof.
  assert (H : 2 * Ball.radius (fst (Ball.constructor 400 5 800 600 zeros))
              <= Ball.canvasHeight (fst (Ball.constructor 400 5 800 600 zeros)))
    by (simpl; lra).
  split; [exact H |].
  exact (proj1 (wall_collision_in_field
                  (fst (Ball.constructor 400 5 800 600 zeros)) H)).
Defined.

(** ** Ball: the paddle test *)



Lemma divide_num (a b : R) : b <> 0 -> divide a b = Num (a / b).
Proof.
  intros Hb; unfold divide; destruct (Req_dec_T b 0); [contradiction | reflexivity].
Qed.

(** The clamped quotient of the hit point: the clamped number for a
    divisor other than 0, 1 or -1 for an infinity, NaN for 0 / 0. *)
Lemma clamp_divide (a b : R) :
  (b <> 0 ->
   Math.max (-1) (Math.min 1 (divide a b)) = Num (Rmax (-1) (Rmin 1 (a / b)))) /\
  (b = 0 -> 0 < a -> Math.max (-1) (Math.min 1 (divide a b)) = Num 1) /\
  (b = 0 -> a < 0 -> Math.max (-1) (Math.min 1 (divide a b)) = Num (-1)) /\
  (b = 0 -> a = 0 -> Math.max (-1) (Math.min 1 (divide a b)) = NaN).
Proof.
  unfold divide.
  destruct (Req_dec_T b 0) as [Hb | Hb].
  - destruct (Req_dec_T a 0) as [Ha | Ha]; simpl.
    + repeat split; intros; try reflexivity; lra.
    + destruct (Rlt_dec 0 a); simpl; repeat split; intros; try lra;
        f_equal; cmp; lra.
  - simpl; repeat split; intros; try reflexivity; contradiction.
Qed.

Lemma clamp_divide_range (a b h : R) :
  Math.max (-1) (Math.min 1 (divide a b)) = Num h -> -1 <= h <= 1.
Proof.
  unfold divide.
  destruct (Req_dec_T b 0); [destruct (Req_dec_T a 0);
                             [| destruct (Rlt_dec 0 a)] |]; simpl;
    try discriminate; intros H; injection H as <-; cmp; lra.
Qed.

Lemma checkPaddleCollision_overlap (b : Ball.t) (p : Paddle.t) :
  boxesOverlap b p ->
  Ball.checkPaddleCollision b p =
  Some (Math.max (-1)
          (Math.min 1 (divide (Ball.y b - (Paddle.y p + Paddle.height p / 2))
                              (Paddle.height p / 2)))).
Proof.
  unfold boxesOverlap, overlap, Ball.checkPaddleCollision; simpl.
  intros [[H1 H2] [H3 H4]].
  apply geb_spec in H1, H3; apply leb_spec in H2, H4.
  rewrite H1, H2, H3, H4; reflexivity.
Qed.

Lemma checkPaddleCollision_apart (b : Ball.t) (p : Paddle.t) :
  ~ boxesOverlap b p -> Ball.checkPaddleCollision b p = None.
Proof.
  unfold boxesOverlap, overlap, Ball.checkPaddleCollision; simpl.
  intros H.
  destruct (geb _ _) eqn:E1 at 1; [| reflexivity].
  destruct (leb _ _) eqn:E2 at 1; [| reflexivity].
  destruct (geb _ _) eqn:E3 at 1; [| reflexivity].
  destruct (leb _ _) eqn:E4 at 1; [| reflexivity].
  exfalso; apply H.
  apply geb_spec in E1, E3; apply leb_spec in E2, E4; tauto.
Qed.

Lemma boxesOverlap_dec (b : Ball.t) (p : Paddle.t) :
  boxesOverlap b p \/ ~ boxesOverlap b p.
Proof.
  unfold boxesOverlap, overlap; simpl.
  destruct (Rge_dec (Ball.x b + Ball.radius b) (Paddle.x p));
  destruct (Rle_dec (Ball.x b - Ball.radius b) (Paddle.x p + Paddle.width p));
  destruct (Rge_dec (Ball.y b + Ball.radius b) (Paddle.y p));
  destruct (Rle_dec (Ball.y b - Ball.radius b) (Paddle.y p + Paddle.height p));
  tauto.
Qed.

(** The numbers [checkPaddleCollision] returns are hit points of
    [-1, 1]. *)
Lemma checkPaddleCollision_range (b : Ball.t) (p : Paddle.t) (h : R) :
  Ball.checkPaddleCollision b p = Some (Num h) -> -1 <= h <= 1.
Proof.
  unfold Ball.checkPaddleCollision.
  destruct (_ && _); [| discriminate].
  intros H; injection H as H; exact (clamp_divide_range _ _ _ H).
Qed.

(** What [checkPaddleCollision] returns is null, a number, or NaN; NaN
    needs a paddle of height 0 whose line goes through the centre of the
    ball. *)
Lemma checkPaddleCollision_cases (b : Ball.t) (p : Paddle.t) :
  Ball.checkPaddleCollision b p = None \/
  (exists h, Ball.checkPaddleCollision b p = Some (Num h)) \/
  (Ball.checkPaddleCollision b p = Some NaN /\
   Paddle.height p = 0 /\ Ball.y b = Paddle.y p).
Proof.
  destruct (boxesOverlap_dec b p) as [H | H];
    [| left; apply checkPaddleCollision_apart; exact H].
  right; rewrite (checkPaddleCollision_overlap b p H).
  destruct (clamp_divide (Ball.y b - (Paddle.y p + Paddle.height p / 2))
                         (Paddle.height p / 2)) as (C1 & C2 & C3 & C4).
  destruct (Req_dec_T (Paddle.height p) 0) as [Hh | Hh].
  - destruct (Rtotal_order (Ball.y b) (Paddle.y p)) as [Hy | [Hy | Hy]].
    + left; exists (-1); rewrite C3; [reflexivity | lra | lra].
    + right; rewrite C4; [| lra | lra]. repeat split; assumption.
    + left; exists 1; rewrite C2; [reflexivity | lra | lra].
  - left; eexists; rewrite C1; [reflexivity | lra].
Qed.

(** For a paddle of a height other than 0 the result is null or a
    number. *)
Lemma checkPaddleCollision_number (b : Ball.t) (p : Paddle.t) :
  Paddle.height p <> 0 ->
  Ball.checkPaddleCollision b p = None \/
  exists h, Ball.checkPaddleCollision b p = Some (Num h).
Proof.
  intros Hh.
  destruct (checkPaddleCollision_cases b p) as [H | [H | (_ & H & _)]];
    [left; exact H | right; exact H | contradiction].
Qed.




(** ** Construction *)

(** C9, as stated, fails: no constructor validates anything; a paddle of
    width 0 and negative height is constructed like any other. *)
Lemma paddle_of_invalid_size_constructed :
  (exists p, new_Paddle 20 260 0 (-80) 600 false = Constructed p /\
             Paddle.width p <= 0 /\ Paddle.height p <= 0) /\
  ~ (exists message,
       new_Paddle 20 260 0 (-80) 600 false = ValidationError message).
Proof.
  split.
  - eexists; split; [reflexivity |]; simpl; lra.
  - intros [message H]; discriminate.
Qed.

(** C9, amended: construction never fails.  A paddle keeps the width and
    the height it is given, whatever they are; the radius of a ball and the
    target score of a game are not arguments but the constants 10 and 10,
    and the game's paddles are 8 wide and 80 high. *)
Theorem construction_never_rejected :
  (forall x y width height canvasHeight isAI,
     exists p, new_Paddle x y width height canvasHeight isAI = Constructed p /\
               Paddle.width p = width /\ Paddle.height p = height) /\
  (forall x y canvasWidth canvasHeight rnd,
     exists b rnd', new_Ball x y canvasWidth canvasHeight rnd
                    = Constructed (b, rnd') /\
                    Ball.radius b = 10) /\
  (forall width height rnd,
     exists g rnd', new_Game width height rnd = Constructed (g, rnd') /\
                    Game.targetScore g = 10%Z /\
                    Ball.radius (Game.ball g) = 10 /\
                    Paddle.width (Game.playerPaddle g) = 8 /\
                    Paddle.height (Game.playerPaddle g) = 80 /\
                    Paddle.width (Game.aiPaddle g) = 8 /\
                    Paddle.height (Game.aiPaddle g) = 80).
Proof.
  split; [| split].
  - intros; eexists; split; [reflexivity | split; reflexivity].
  - intros; unfold new_Ball.
    destruct (Ball.constructor x y canvasWidth canvasHeight rnd) as [b rnd'] eqn:E.
    exists b, rnd'; split; [reflexivity |].
    unfold Ball.constructor, Ball.setRandomVelocity in E; simpl in E.
    injection E as <- _; reflexivity.
  - intros; unfold new_Game, Game.constructor.
    destruct (Ball.constructor (width / 2) (height / 2) width height rnd)
      as [b rnd'] eqn:E.
    eexists; eexists; split; [reflexivity |]; simpl.
    unfold Ball.constructor, Ball.setRandomVelocity in E; simpl in E.
    injection E as <- _; repeat split; reflexivity.
Qed.

(** ** Angles *)

Lemma norm_scale (x y : R) :
  x <> 0 -> sqrt (x * x + y * y) = Rabs x * sqrt (1 + (y / x)²).
Proof.
  intros Hx.
  replace (x * x + y * y) with (x² * (1 + (y / x)²))
    by (unfold Rsqr; field; exact Hx).
  rewrite sqrt_mult.
  - rewrite sqrt_Rsqr_abs; reflexivity.
  - apply Rle_0_sqr.
  - pose proof (Rle_0_sqr (y / x)); lra.
Qed.

Lemma norm_pos (x y : R) : x <> 0 \/ y <> 0 -> 0 < sqrt (x * x + y * y).
Proof.
  intros H; apply sqrt_lt_R0.
  destruct H as [H | H]; nra.
Qed.

(** [Math.atan2] gives the polar angle: away from the origin, the cosine
    and the sine of atan2(y, x), times the length of (x, y), give back x
    and y. *)
Lemma atan2_polar (x y : R) :
  x <> 0 \/ y <> 0 ->
  cos (Math.atan2 y x) * sqrt (x * x + y * y) = x /\
  sin (Math.atan2 y x) * sqrt (x * x + y * y) = y.
Proof.
  intros H; unfold Math.atan2.
  assert (Hk : 0 < sqrt (1 + (y / x)²)).
  { apply sqrt_lt_R0; pose proof (Rle_0_sqr (y / x)); lra. }
  destruct (Rlt_dec 0 x) as [Hx | Hx].
  - rewrite cos_atan, sin_atan, norm_scale by lra.
    rewrite Rabs_right by lra.
    split; field; lra.
  - destruct (Rlt_dec x 0) as [Hx' | Hx'].
    + destruct (Rle_dec 0 y) as [Hy | Hy].
      * rewrite neg_cos, neg_sin, cos_atan, sin_atan, norm_scale by lra.
        rewrite Rabs_left by lra.
        split; field; lra.
      * rewrite cos_minus, sin_minus, cos_PI, sin_PI, cos_atan, sin_atan,
          norm_scale by lra.
        rewrite Rabs_left by lra.
        split; field; lra.
    + assert (x = 0) by lra; subst x.
      assert (Hy : y <> 0) by (destruct H; [lra | assumption]).
      replace (0 * 0 + y * y) with (y²) by (unfold Rsqr; ring).
      rewrite sqrt_Rsqr_abs.
      destruct (Rlt_dec 0 y) as [Hp | Hp].
      * rewrite cos_PI2, sin_PI2, Rabs_right by lra; split; ring.
      * destruct (Rlt_dec y 0) as [Hn | Hn]; [| lra].
        rewrite cos_neg, sin_neg, cos_PI2, sin_PI2, Rabs_left by lra.
        split; ring.
Qed.

Lemma unit_circle (t s : R) :
  (cos t * s) * (cos t * s) + (sin t * s) * (sin t * s) = s * s.
Proof.
  pose proof (sin2_cos2 t) as H; unfold Rsqr in H.
  replace ((cos t * s) * (cos t * s) + (sin t * s) * (sin t * s))
    with ((sin t * sin t + cos t * cos t) * (s * s)) by ring.
  rewrite H; ring.
Qed.

(** Within 60 degrees of the axis the cosine is at least 1/2. *)
Lemma cos_within_PI3 (a : R) : - (PI / 3) <= a <= PI / 3 -> 1 / 2 <= cos a.
Proof.
  intros [Hlo Hhi]; pose proof PI_RGT_0 as HPI.
  rewrite <- cos_PI3.
  destruct (Rle_dec 0 a) as [Ha | Ha].
  - apply cos_decr_1; lra.
  - rewrite <- (cos_neg a); apply cos_decr_1; lra.
Qed.

(** The four angles of [setRandomVelocity] have the same cosine, up to its
    sign. *)
Lemma quadrant_cos (q : Z) (a : R) :
  Rabs (cos (match q with
             | 0%Z => a
             | 1%Z => PI - a
             | 2%Z => PI + a
             | _ => 2 * PI - a
             end)) = Rabs (cos a).
Proof.
  assert (H1 : Rabs (cos (PI - a)) = Rabs (cos a)).
  { rewrite cos_minus, cos_PI, sin_PI.
    replace (-1 * cos a + 0 * sin a) with (- cos a) by ring.
    apply Rabs_Ropp. }
  assert (H2 : Rabs (cos (PI + a)) = Rabs (cos a)).
  { rewrite Rplus_comm, neg_cos; apply Rabs_Ropp. }
  assert (H3 : Rabs (cos (2 * PI - a)) = Rabs (cos a)).
  { rewrite cos_minus, cos_2PI, sin_2PI; f_equal; ring. }
  destruct q as [| p | p]; [reflexivity | | exact H3].
  destruct p as [p | p |]; [exact H3 | | exact H1].
  destruct p as [p | p |]; [exact H3 | exact H3 | exact H2].
Qed.

(** [Math.floor(Math.random() * 4)] is one of 0, 1, 2, 3. *)
Lemma quadrant_range (u : R) : 0 <= u < 1 -> (0 <= Int_part (u * 4) <= 3)%Z.
Proof.
  intros Hu; destruct (base_Int_part (u * 4)) as [Hlo Hhi].
  split.
  - assert (H : -1 < IZR (Int_part (u * 4))) by lra.
    apply lt_IZR in H; lia.
  - assert (H : IZR (Int_part (u * 4)) < 4) by lra.
    apply lt_IZR in H; lia.
Qed.

Lemma sign_square (v : R) : v <> 0 -> Math.sign v * Math.sign v = 1.
Proof. intros H; unfold Math.sign; cmp; lra. Qed.

Lemma sign_neg (v : R) : Math.sign (v * -1) = - Math.sign v.
Proof. unfold Math.sign; cmp; lra. Qed.

Lemma sign_abs (v : R) : Math.sign v * Rabs v = v.
Proof.
  unfold Math.sign; cmp.
  - rewrite Rabs_right; lra.
  - rewrite Rabs_left; lra.
  - assert (v = 0) by lra; subst; rewrite Rabs_R0; ring.
Qed.

(** ** Ball: speed and velocity *)

Lemma rng_ok_zeros : rng_ok zeros.
Proof. intros n; unfold zeros; lra. Qed.

Lemma invariant_moving (b : Ball.t) :
  invariant b -> 0 < Ball.speed b /\ Ball.velocityX b <> 0.
Proof.
  intros [(_ & Hi & _) Hs _ Hh].
  assert (0 < Ball.speed b) by lra.
  split; [assumption |].
  intros E; rewrite E, Rabs_R0 in Hh; lra.
Qed.

Lemma invariant_magnitude (b : Ball.t) :
  invariant b -> magnitude b = Ball.speed b.
Proof.
  intros Hinv; destruct (invariant_moving b Hinv) as [Hs _].
  unfold magnitude; apply sqrt_lem_1.
  - nra.
  - lra.
  - symmetry; apply (inv_magnitude b Hinv).
Qed.

Lemma setRandomVelocity_invariant (b : Ball.t) (rnd : Rng) :
  constants b -> Ball.initialSpeed b <= Ball.speed b <= Ball.maxSpeed b ->
  0 <= rnd 0%nat < 1 ->
  invariant (fst (Ball.setRandomVelocity b rnd)).
Proof.
  intros Hc Hs Hu; pose proof PI_RGT_0 as HPI.
  assert (Hpos : 0 < Ball.speed b) by (destruct Hc as (_ & Hi & _); lra).
  unfold Ball.setRandomVelocity; simpl.
  constructor; simpl; try assumption.
  - apply unit_circle.
  - rewrite Rabs_mult, quadrant_cos, (Rabs_right (Ball.speed b)) by lra.
    assert (Hcos : 1 / 2 <= cos (rnd 0%nat * PI / 6 + PI / 6))
      by (apply cos_within_PI3; nra).
    rewrite Rabs_right by lra.
    nra.
Qed.

Lemma constructor_invariant (x y cw ch : R) (rnd : Rng) :
  rng_ok rnd -> invariant (fst (Ball.constructor x y cw ch rnd)).
Proof.
  intros Hr; unfold Ball.constructor.
  apply setRandomVelocity_invariant; [| simpl; lra | apply Hr].
  unfold constants; simpl; repeat split; reflexivity.
Qed.

Lemma reset_invariant (b : Ball.t) (x y : R) (rnd : Rng) :
  invariant b -> rng_ok rnd -> invariant (fst (Ball.reset x y b rnd)).
Proof.
  intros [Hc Hs _ _] Hr; unfold Ball.reset.
  apply setRandomVelocity_invariant; [exact Hc | | apply Hr].
  destruct Hc as (_ & Hi & Hm & _); simpl; lra.
Qed.

Lemma update_invariant (b : Ball.t) (dt : R) :
  invariant b -> invariant (Ball.update dt b).
Proof. intros [Hc Hs Hm Hh]; constructor; assumption. Qed.

Lemma resize_invariant (b : Ball.t) (w h : R) :
  invariant b -> invariant (Ball.set_canvas b w h).
Proof. intros [Hc Hs Hm Hh]; constructor; assumption. Qed.

Lemma checkWallCollision_invariant (b : Ball.t) :
  invariant b -> invariant (fst (Ball.checkWallCollision b)).
Proof.
  intros [Hc Hs Hm Hh].
  assert (Ha : Rabs (Ball.velocityY b) * Rabs (Ball.velocityY b)
               = Ball.velocityY b * Ball.velocityY b).
  { pose proof (Rsqr_abs (Ball.velocityY b)) as E; unfold Rsqr in E; lra. }
  unfold Ball.checkWallCollision.
  destruct (leb (Ball.y b - Ball.radius b) 0); simpl;
    destruct (geb _ _); simpl; constructor; simpl; try assumption.
  - rewrite Rabs_Rabsolu; lra.
  - lra.
  - lra.
Qed.

(** [increaseSpeed] on a moving ball: the new speed is the old one times
    the increment, capped, and the velocity is the old one rescaled from
    its length to the new speed. *)
Lemma increaseSpeed_velocity (b : Ball.t) :
  Ball.velocityX b <> 0 \/ Ball.velocityY b <> 0 ->
  let s' := Rmin (Ball.speed b * Ball.speedIncrement b) (Ball.maxSpeed b) in
  Ball.speed (Ball.increaseSpeed b) = s' /\
  Ball.velocityX (Ball.increaseSpeed b) = Ball.velocityX b / magnitude b * s' /\
  Ball.velocityY (Ball.increaseSpeed b) = Ball.velocityY b / magnitude b * s'.
Proof.
  intros Hv; unfold magnitude; simpl.
  destruct (atan2_polar _ _ Hv) as [Hcos Hsin].
  pose proof (norm_pos _ _ Hv) as Hn.
  set (n := sqrt (Ball.velocityX b * Ball.velocityX b
                  + Ball.velocityY b * Ball.velocityY b)) in *.
  split; [reflexivity |].
  split.
  - rewrite <- Hcos at 2; field; lra.
  - rewrite <- Hsin at 2; field; lra.
Qed.

(** Whatever the velocity, [increaseSpeed] leaves one whose length is the
    new speed. *)
Lemma increaseSpeed_magnitude (b : Ball.t) :
  let b' := Ball.increaseSpeed b in
  Ball.velocityX b' * Ball.velocityX b' + Ball.velocityY b' * Ball.velocityY b'
  = Ball.speed b' * Ball.speed b'.
Proof. simpl; apply unit_circle. Qed.

Lemma increaseSpeed_constants (b : Ball.t) :
  constants b -> constants (Ball.increaseSpeed b).
Proof. intros H; exact H. Qed.

(** The speed after [increaseSpeed], for the constants of the constructor. *)
Lemma increaseSpeed_speed (b : Ball.t) :
  constants b -> Ball.initialSpeed b <= Ball.speed b <= Ball.maxSpeed b ->
  let b' := Ball.increaseSpeed b in
  Ball.speed b' = Rmin (Ball.speed b * Ball.speedIncrement b) (Ball.maxSpeed b) /\
  Ball.speed b <= Ball.speed b' <= Ball.maxSpeed b' /\
  Ball.initialSpeed b' <= Ball.speed b'.
Proof.
  intros (_ & Hi & Hm & Hinc & _) Hs; simpl.
  split; [reflexivity |].
  rewrite Hi, Hm, Hinc in *; cmp; lra.
Qed.

Lemma increaseSpeed_invariant (b : Ball.t) :
  invariant b -> invariant (Ball.increaseSpeed b).
Proof.
  intros Hinv; pose proof Hinv as [Hc Hs Hm Hh].
  destruct (invariant_moving b Hinv) as [Hpos Hvx].
  destruct (increaseSpeed_speed b Hc Hs) as (Hs' & Hmono & Hlow).
  destruct (increaseSpeed_velocity b (or_introl Hvx)) as (_ & Hx' & _).
  rewrite (invariant_magnitude b Hinv) in Hx'.
  constructor.
  - exact Hc.
  - simpl in *; lra.
  - apply increaseSpeed_magnitude.
  - rewrite Hx', Hs'.
    set (s' := Rmin (Ball.speed b * Ball.speedIncrement b) (Ball.maxSpeed b)) in *.
    assert (Hs'pos : 0 < s') by lra.
    replace (Ball.velocityX b / Ball.speed b * s')
      with (Ball.velocityX b * (s' / Ball.speed b)) by (field; lra).
    assert (Hq : 0 < s' / Ball.speed b) by (apply Rdiv_lt_0_compat; lra).
    rewrite Rabs_mult, (Rabs_right (s' / Ball.speed b)) by lra.
    assert (Hq1 : Ball.speed b * (s' / Ball.speed b) = s') by (field; lra).
    nra.
Qed.

Lemma applyPaddleHit_rebound (hitPoint : R) (b : Ball.t) :
  Ball.applyPaddleHit hitPoint b =
  Ball.set_x (Ball.increaseSpeed (rebound hitPoint b))
             (Ball.x b + Math.sign (Ball.velocityX b * -1) * 2).
Proof.
  unfold Ball.applyPaddleHit, rebound, magnitude; simpl.
  replace (Ball.velocityX b * -1 * (Ball.velocityX b * -1))
    with (Ball.velocityX b * Ball.velocityX b) by ring.
  reflexivity.
Qed.

Lemma rebound_magnitude (h : R) (b : Ball.t) :
  Ball.velocityX b <> 0 -> magnitude (rebound h b) = magnitude b.
Proof.
  intros Hvx.
  assert (Hn : 0 < magnitude b) by (apply norm_pos; left; exact Hvx).
  unfold magnitude at 1; unfold rebound; simpl.
  apply sqrt_lem_1; [| lra |].
  - nra.
  - assert (Hsq : Math.sign (Ball.velocityX b * -1)
                  * Math.sign (Ball.velocityX b * -1) = 1)
      by (apply sign_square; lra).
    pose proof (sin2_cos2 (h * Ball.maxBounceAngle b)) as Hu.
    unfold Rsqr in Hu.
    set (sg := Math.sign (Ball.velocityX b * -1)) in *.
    set (c := cos (h * Ball.maxBounceAngle b)) in *.
    set (s := sin (h * Ball.maxBounceAngle b)) in *.
    set (m := magnitude b) in *.
    replace (sg * m * c * (sg * m * c) + m * s * (m * s))
      with (m * m * ((sg * sg) * (c * c) + s * s)) by ring.
    rewrite Hsq; replace (1 * (c * c) + s * s) with (s * s + c * c) by ring.
    rewrite Hu; ring.
Qed.

(** The velocity after a paddle hit, for a ball that was moving
    horizontally at all: x has the sign opposite to the one before, the
    direction is the hit angle, the length is the new speed. *)
Lemma applyPaddleHit_velocity (h : R) (b : Ball.t) :
  Ball.velocityX b <> 0 ->
  let s' := Rmin (Ball.speed b * Ball.speedIncrement b) (Ball.maxSpeed b) in
  let b' := Ball.applyPaddleHit h b in
  Ball.speed b' = s' /\
  Ball.velocityX b'
  = - Math.sign (Ball.velocityX b) * cos (h * Ball.maxBounceAngle b) * s' /\
  Ball.velocityY b' = sin (h * Ball.maxBounceAngle b) * s'.
Proof.
  intros Hvx s' b'; subst s' b'.
  assert (Hn : 0 < magnitude b) by (apply norm_pos; left; exact Hvx).
  rewrite applyPaddleHit_rebound.
  assert (Hmoving : Ball.velocityX (rebound h b) <> 0
                    \/ Ball.velocityY (rebound h b) <> 0).
  { pose proof (rebound_magnitude h b Hvx) as Hm.
    destruct (Req_dec (Ball.velocityX (rebound h b)) 0) as [Ex | Ex];
      [| left; exact Ex].
    destruct (Req_dec (Ball.velocityY (rebound h b)) 0) as [Ey | Ey];
      [| right; exact Ey].
    exfalso; unfold magnitude at 1 in Hm; rewrite Ex, Ey in Hm.
    replace (0 * 0 + 0 * 0) with 0 in Hm by ring.
    rewrite sqrt_0 in Hm; lra. }
  destruct (increaseSpeed_velocity (rebound h b) Hmoving) as (Hs & Hx & Hy).
  rewrite (rebound_magnitude h b Hvx) in Hx, Hy.
  split; [exact Hs |].
  split.
  - change (Ball.velocityX (Ball.increaseSpeed (rebound h b)) = 
            - Math.sign (Ball.velocityX b) * cos (h * Ball.maxBounceAngle b)
            * Rmin (Ball.speed b * Ball.speedIncrement b) (Ball.maxSpeed b)).
    rewrite Hx; unfold rebound; simpl.
    rewrite sign_neg; field; lra.
  - change (Ball.velocityY (Ball.increaseSpeed (rebound h b)) = 
            sin (h * Ball.maxBounceAngle b)
            * Rmin (Ball.speed b * Ball.speedIncrement b) (Ball.maxSpeed b)).
    rewrite Hy; unfold rebound; simpl.
    field; lra.
Qed.

Lemma applyPaddleHit_constants (h : R) (b : Ball.t) :
  constants b -> constants (Ball.applyPaddleHit h b).
Proof. intros H; exact H. Qed.

Lemma applyPaddleHit_speed (h : R) (b : Ball.t) :
  Ball.speed (Ball.applyPaddleHit h b)
  = Rmin (Ball.speed b * Ball.speedIncrement b) (Ball.maxSpeed b).
Proof. reflexivity. Qed.

Lemma applyPaddleHit_invariant (h : R) (b : Ball.t) :
  invariant b -> -1 <= h <= 1 -> invariant (Ball.applyPaddleHit h b).
Proof.
  intros Hinv Hh; pose proof Hinv as [Hc Hs Hm Hhor].
  destruct (invariant_moving b Hinv) as [Hpos Hvx].
  destruct (applyPaddleHit_velocity h b Hvx) as (Hs' & Hx' & Hy').
  destruct (increaseSpeed_speed b Hc Hs) as (_ & Hmono & Hlow).
  simpl in Hmono, Hlow.
  pose proof Hc as (_ & Hi & Hmax & Hinc & Hang).
  pose proof PI_RGT_0 as HPI.
  assert (Hcos : 1 / 2 <= cos (h * Ball.maxBounceAngle b))
    by (apply cos_within_PI3; rewrite Hang; nra).
  constructor.
  - exact Hc.
  - rewrite Hs'; simpl; lra.
  - rewrite Hx', Hy', Hs'.
    pose proof (sign_square _ Hvx) as Hsq.
    pose proof (sin2_cos2 (h * Ball.maxBounceAngle b)) as Hu; unfold Rsqr in Hu.
    set (sg := Math.sign (Ball.velocityX b)) in *.
    set (c := cos (h * Ball.maxBounceAngle b)) in *.
    set (s := sin (h * Ball.maxBounceAngle b)) in *.
    set (m := Rmin (Ball.speed b * Ball.speedIncrement b) (Ball.maxSpeed b)) in *.
    replace (- sg * c * m * (- sg * c * m) + s * m * (s * m))
      with (m * m * ((sg * sg) * (c * c) + s * s)) by ring.
    rewrite Hsq; replace (1 * (c * c) + s * s) with (s * s + c * c) by ring.
    rewrite Hu; ring.
  - rewrite Hx', Hs'.
    set (m := Rmin (Ball.speed b * Ball.speedIncrement b) (Ball.maxSpeed b)) in *.
    assert (Hm0 : 0 < m) by lra.
    rewrite !Rabs_mult, Rabs_Ropp.
    assert (Hsg : Rabs (Math.sign (Ball.velocityX b)) = 1)
      by (unfold Math.sign; cmp; try (rewrite Rabs_right by lra; reflexivity);
          try (rewrite Rabs_left by lra; ring); lra).
    rewrite Hsg, (Rabs_right (cos _)), (Rabs_right m) by lra.
    nra.
Qed.

Theorem reachable_invariant (b : Ball.t) : reachable b -> invariant b.
Proof.
  induction 1.
  - apply constructor_invariant; assumption.
  - destruct IHreachable as [Hc Hs _ _].
    apply setRandomVelocity_invariant; [assumption | assumption | apply H0].
  - apply update_invariant; assumption.
  - apply checkWallCollision_invariant; assumption.
  - apply applyPaddleHit_invariant; [assumption |].
    eapply checkPaddleCollision_range; eassumption.
  - apply increaseSpeed_invariant; assumption.
  - apply reset_invariant; assumption.
  - apply resize_invariant; assumption.
Qed.

Lemma sign_opp (v : R) : Math.sign (- v) = - Math.sign v.
Proof. unfold Math.sign; cmp; lra. Qed.

Lemma sign_sign (v : R) : Math.sign (Math.sign v) = Math.sign v.
Proof. unfold Math.sign; cmp; lra. Qed.

Lemma sign_mult_pos (v k : R) : 0 < k -> Math.sign (v * k) = Math.sign v.
Proof.
  intros Hk; unfold Math.sign.
  destruct (Rlt_dec 0 v); destruct (Rlt_dec v 0);
    destruct (Rlt_dec 0 (v * k)); destruct (Rlt_dec (v * k) 0);
    try reflexivity; exfalso; nra.
Qed.

Lemma sign_nonzero (v : R) : v <> 0 -> Math.sign v <> 0.
Proof. intros H; unfold Math.sign; cmp; lra. Qed.

Lemma applyPaddleHit_magnitude (h : R) (b : Ball.t) :
  0 < Ball.speed (Ball.applyPaddleHit h b) ->
  magnitude (Ball.applyPaddleHit h b) = Ball.speed (Ball.applyPaddleHit h b).
Proof.
  intros Hpos; unfold magnitude; apply sqrt_lem_1.
  - nra.
  - lra.
  - symmetry; rewrite applyPaddleHit_rebound.
    apply (increaseSpeed_magnitude (rebound h b)).
Qed.

Lemma applyPaddleHit_speedBounds (h : R) (b : Ball.t) :
  speedBounds b ->
  speedBounds (Ball.applyPaddleHit h b) /\
  Ball.speed b <= Ball.speed (Ball.applyPaddleHit h b).
Proof.
  intros [Hc Hs].
  destruct (increaseSpeed_speed b Hc Hs) as (_ & Hmono & Hlow).
  rewrite applyPaddleHit_speed; simpl in Hmono, Hlow.
  split; [split |]; [exact Hc | rewrite applyPaddleHit_speed | ]; simpl; lra.
Qed.

Lemma paddleHits_speedBounds (hs : list R) (b : Ball.t) :
  speedBounds b ->
  speedBounds (paddleHits hs b) /\ Ball.speed b <= Ball.speed (paddleHits hs b).
Proof.
  revert b; induction hs as [| h hs IH]; intros b Hb; simpl.
  - split; [exact Hb | lra].
  - destruct (applyPaddleHit_speedBounds h b Hb) as [Hb' Hle].
    destruct (IH _ Hb') as [Hb'' Hle'].
    split; [exact Hb'' | lra].
Qed.

(** C1: for every ball the program can hold, [increaseSpeed] sets the speed
    to min(speed * speedIncrement, maxSpeed), which is at least the speed
    before and at most maxSpeed; the velocity it computes from
    atan2(vy, vx) is the one before times the positive factor
    new speed / old speed, so the direction is kept.  Every paddle hit
    changes the speed in this way, and along any sequence of paddle hits
    the speed never decreases and never exceeds maxSpeed. *)
Theorem speed_ramp (b : Ball.t) :
  reachable b ->
  let b' := Ball.increaseSpeed b in
  Ball.speed b' = Rmin (Ball.speed b * Ball.speedIncrement b) (Ball.maxSpeed b) /\
  Ball.speed b <= Ball.speed b' <= Ball.maxSpeed b' /\
  (Ball.velocityX b'
   = cos (Math.atan2 (Ball.velocityY b) (Ball.velocityX b)) * Ball.speed b' /\
   Ball.velocityY b'
   = sin (Math.atan2 (Ball.velocityY b) (Ball.velocityX b)) * Ball.speed b') /\
  (0 < Ball.speed b' / Ball.speed b /\
   Ball.velocityX b' = Ball.speed b' / Ball.speed b * Ball.velocityX b /\
   Ball.velocityY b' = Ball.speed b' / Ball.speed b * Ball.velocityY b) /\
  (forall hs h,
     let c := paddleHits hs b in
     Ball.speed (Ball.applyPaddleHit h c)
     = Rmin (Ball.speed c * Ball.speedIncrement c) (Ball.maxSpeed c) /\
     Ball.speed b <= Ball.speed c /\
     Ball.speed c <= Ball.speed (Ball.applyPaddleHit h c) <= Ball.maxSpeed c).
Proof.
  intros Hr; pose proof (reachable_invariant b Hr) as Hinv.
  pose proof Hinv as [Hc Hs Hm Hh].
  destruct (invariant_moving b Hinv) as [Hpos Hvx].
  destruct (increaseSpeed_speed b Hc Hs) as (Hs' & Hmono & Hlow).
  destruct (increaseSpeed_velocity b (or_introl Hvx)) as (_ & Hx' & Hy').
  rewrite (invariant_magnitude b Hinv) in Hx', Hy'.
  cbv zeta; split; [exact Hs' |].
  split; [exact Hmono |].
  split; [split; reflexivity |].
  split.
  - assert (Hpos' : 0 < Ball.speed (Ball.increaseSpeed b)) by lra.
    rewrite Hx', Hy', Hs'; rewrite Hs' in Hpos'.
    set (s' := Rmin (Ball.speed b * Ball.speedIncrement b) (Ball.maxSpeed b)) in *.
    split; [apply Rdiv_lt_0_compat; lra |].
    split; field; lra.
  - intros hs h; set (c := paddleHits hs b).
    destruct (paddleHits_speedBounds hs b (conj Hc Hs)) as [Hb Hle].
    destruct (applyPaddleHit_speedBounds h c Hb) as [[_ Hb'] Hle'].
    fold c in Hle.
    split; [apply applyPaddleHit_speed |].
    split; [exact Hle |].
    split; [exact Hle' |].
    exact (proj2 Hb').
Qed.

Lemma firstBall_reachable : reachable firstBall.
Proof. apply reach_constructor, rng_ok_zeros. Defined.

Lemma speed_ramp_witness :
  reachable firstBall /\ Ball.speed (Ball.increaseSpeed firstBall) = 315.
Proof.
  split; [exact firstBall_reachable |].
  rewrite (proj1 (speed_ramp firstBall firstBall_reachable)).
  simpl; cmp; lra.
Defined.

Lemma invariant_speedInvariant (b : Ball.t) : invariant b -> speedInvariant b.
Proof.
  intros Hinv; split.
  - apply invariant_magnitude; exact Hinv.
  - destruct (invariant_moving b Hinv) as [Hpos _].
    pose proof (inv_speed b Hinv); lra.
Qed.

(** C5: every ball the program can hold, from its construction on and
    through any sequence of operations, has sqrt(vx^2 + vy^2) = speed and
    0 < speed <= maxSpeed; in particular this holds after each of
    [setRandomVelocity], [checkWallCollision], [applyPaddleHit] and
    [increaseSpeed]. *)
Theorem velocity_magnitude_invariant (b : Ball.t) :
  reachable b ->
  speedInvariant b /\
  (forall rnd, rng_ok rnd -> speedInvariant (fst (Ball.setRandomVelocity b rnd))) /\
  speedInvariant (fst (Ball.checkWallCollision b)) /\
  (forall paddle h,
     Paddle.height paddle <> 0 ->
     Ball.checkPaddleCollision b paddle = Some (Num h) ->
     speedInvariant (Ball.applyPaddleHit h b)) /\
  speedInvariant (Ball.increaseSpeed b).
Proof.
  intros Hr; split; [| split; [| split; [| split]]]; intros;
    apply invariant_speedInvariant, reachable_invariant.
  - exact Hr.
  - apply reach_setRandomVelocity; assumption.
  - apply reach_checkWallCollision; assumption.
  - eapply reach_applyPaddleHit; eassumption.
  - apply reach_increaseSpeed; assumption.
Qed.

Lemma velocity_magnitude_invariant_witness :
  reachable firstBall /\ magnitude firstBall = 300.
Proof.
  split; [exact firstBall_reachable |].
  exact (proj1 (proj1 (velocity_magnitude_invariant firstBall firstBall_reachable))).
Defined.

(** ** Ball: the rebound off a paddle *)

(** The horizontal velocity after a paddle hit whose angle has a positive
    cosine: its sign is the opposite of the one before, its size is that
    cosine times the new speed. *)
Lemma applyPaddleHit_horizontal (h : R) (b : Ball.t) :
  Ball.velocityX b <> 0 ->
  0 < cos (h * Ball.maxBounceAngle b) ->
  0 < Rmin (Ball.speed b * Ball.speedIncrement b) (Ball.maxSpeed b) ->
  let b' := Ball.applyPaddleHit h b in
  Math.sign (Ball.velocityX b') = - Math.sign (Ball.velocityX b) /\
  Rabs (Ball.velocityX b') = cos (h * Ball.maxBounceAngle b) * Ball.speed b'.
Proof.
  intros Hvx Hcos Hs b'; subst b'.
  destruct (applyPaddleHit_velocity h b Hvx) as (Hs' & Hx' & _).
  rewrite Hx', Hs'.
  set (c := cos (h * Ball.maxBounceAngle b)) in *.
  set (m := Rmin (Ball.speed b * Ball.speedIncrement b) (Ball.maxSpeed b)) in *.
  assert (Hcm : 0 < c * m) by nra.
  replace (- Math.sign (Ball.velocityX b) * c * m)
    with (- Math.sign (Ball.velocityX b) * (c * m)) by ring.
  split.
  - rewrite sign_mult_pos, sign_opp, sign_sign by assumption; reflexivity.
  - rewrite Rabs_mult, Rabs_Ropp, (Rabs_right (c * m)) by lra.
    assert (Hsg : Rabs (Math.sign (Ball.velocityX b)) = 1)
      by (unfold Math.sign; cmp; try (rewrite Rabs_right by lra; reflexivity);
          try (rewrite Rabs_left by lra; ring); lra).
    rewrite Hsg; ring.
Qed.

(** C10: for every ball with the constants of the constructor, a vx other
    than 0 and a positive speed, and every hit point h of [-1, 1],
    [applyPaddleHit h] leaves |vx| >= speed * cos(maxBounceAngle) =
    speed / 2, for the speed after the hit (and so for the one before, if
    that was at most maxSpeed), with the sign of vx reversed; the speed
    after the hit is the length of the velocity, so the rebound is never
    steeper than 60 degrees. *)
Theorem paddle_hit_horizontal_bound (b : Ball.t) (h : R) :
  constants b ->
  Ball.velocityX b <> 0 ->
  0 < Ball.speed b ->
  -1 <= h <= 1 ->
  let b' := Ball.applyPaddleHit h b in
  Ball.speed b' * cos (Ball.maxBounceAngle b') <= Rabs (Ball.velocityX b') /\
  Ball.speed b' * cos (Ball.maxBounceAngle b') = Ball.speed b' / 2 /\
  Math.sign (Ball.velocityX b') = - Math.sign (Ball.velocityX b) /\
  Ball.velocityX b' <> 0 /\
  magnitude b' = Ball.speed b' /\
  (Ball.speed b <= Ball.maxSpeed b -> Ball.speed b / 2 <= Rabs (Ball.velocityX b')).
Proof.
  intros Hc Hvx Hpos Hh b'; subst b'.
  pose proof Hc as (_ & _ & Hmax & Hinc & Hang).
  pose proof PI_RGT_0 as HPI.
  assert (Hcos : 1 / 2 <= cos (h * Ball.maxBounceAngle b))
    by (apply cos_within_PI3; rewrite Hang; nra).
  assert (Hs' : 0 < Rmin (Ball.speed b * Ball.speedIncrement b) (Ball.maxSpeed b))
    by (rewrite Hmax, Hinc; cmp; lra).
  destruct (applyPaddleHit_horizontal h b Hvx) as (Hsg & Habs); [lra | lra |].
  assert (Hang' : Ball.maxBounceAngle (Ball.applyPaddleHit h b) = PI / 3)
    by exact Hang.
  rewrite Hang', cos_PI3, Habs, applyPaddleHit_speed.
  set (m := Rmin (Ball.speed b * Ball.speedIncrement b) (Ball.maxSpeed b)) in *.
  split; [nra |].
  split; [lra |].
  split; [exact Hsg |].
  split.
  - intros E.
    assert (Hz : Rabs (Ball.velocityX (Ball.applyPaddleHit h b)) = 0)
      by (rewrite E; apply Rabs_R0).
    rewrite Habs, applyPaddleHit_speed in Hz; fold m in Hz; nra.
  - split.
    + apply applyPaddleHit_magnitude; rewrite applyPaddleHit_speed; exact Hs'.
    + intros Hle.
      assert (Ball.speed b <= m)
        by (unfold m; rewrite Hmax, Hinc in *; cmp; lra).
      nra.
Qed.

Lemma paddle_hit_horizontal_bound_witness :
  let b := Ball.mk 30 280 800 600 10 300 300 600 1.05 (PI / 3) (-300) 0 in
  (constants b /\ Ball.velocityX b <> 0 /\ 0 < Ball.speed b /\
   -1 <= -0.5 <= 1) /\
  Ball.speed b / 2 <= Rabs (Ball.velocityX (Ball.applyPaddleHit (-0.5) b)).
Proof.
  assert (Hc : constants
                 (Ball.mk 30 280 800 600 10 300 300 600 1.05 (PI / 3) (-300) 0))
    by (unfold constants; simpl; repeat split; reflexivity).
  assert (Hvx : Ball.velocityX
                  (Ball.mk 30 280 800 600 10 300 300 600 1.05 (PI / 3) (-300) 0)
                <> 0) by (simpl; lra).
  assert (Hs : 0 < Ball.speed
                     (Ball.mk 30 280 800 600 10 300 300 600 1.05 (PI / 3) (-300) 0))
    by (simpl; lra).
  assert (Hh : -1 <= -0.5 <= 1) by lra.
  split; [repeat split; try assumption; lra |].
  apply (paddle_hit_horizontal_bound _ _ Hc Hvx Hs Hh).
  simpl; lra.
Defined.

(** ** Game: the scoring pass *)

Lemma reset_position (x y : R) (b : Ball.t) (rnd : Rng) :
  let b' := fst (Ball.reset x y b rnd) in
  Ball.x b' = x /\ Ball.y b' = y /\
  Ball.speed b' = Ball.initialSpeed b /\
  Ball.initialSpeed b' = Ball.initialSpeed b /\
  Ball.radius b' = Ball.radius b.
Proof. simpl; repeat split; reflexivity. Qed.

Lemma checkWinCondition_fields (g : Game.t) :
  let g' := Game.checkWinCondition g in
  Game.width g' = Game.width g /\ Game.height g' = Game.height g /\
  Game.playerScore g' = Game.playerScore g /\
  Game.aiScore g' = Game.aiScore g /\
  Game.targetScore g' = Game.targetScore g /\
  Game.ball g' = Game.ball g /\
  Game.state g' = (if winTest g then GAME_OVER else Game.state g).
Proof.
  unfold Game.checkWinCondition, winTest; simpl.
  destruct (_ || _); simpl; repeat split; reflexivity.
Qed.

Lemma checkScoring_branches (g : Game.t) (rnd : Rng) :
  Game.checkScoring g rnd =
  let ballX := Ball.x (Game.ball g) in
  let ballRadius := Ball.radius (Game.ball g) in
  let (g1, rnd1) := if ltb (ballX + ballRadius) 0 then aiPoint g rnd
                    else (g, rnd) in
  if gtb (ballX - ballRadius) (Game.width g1) then playerPoint g1 rnd1
  else (g1, rnd1).
Proof.
  unfold Game.checkScoring, aiPoint, playerPoint; cbv zeta.
  destruct (ltb _ 0).
  - destruct (Ball.reset _ _ _ rnd) as [b rnd1].
    destruct (gtb _ _); [| reflexivity].
    destruct (Ball.reset _ _ _ rnd1) as [b' rnd2]; reflexivity.
  - destruct (gtb _ _); [| reflexivity].
    destruct (Ball.reset _ _ _ rnd) as [b' rnd2]; reflexivity.
Qed.

Lemma aiPoint_fields (g : Game.t) (rnd : Rng) :
  let g' := fst (aiPoint g rnd) in
  Game.width g' = Game.width g /\ Game.height g' = Game.height g /\
  Game.playerScore g' = Game.playerScore g /\
  Game.aiScore g' = (Game.aiScore g + 1)%Z /\
  Game.targetScore g' = Game.targetScore g /\
  ballAtCenter g' /\
  Ball.initialSpeed (Game.ball g') = Ball.initialSpeed (Game.ball g) /\
  Game.state g' =
    (if (Game.playerScore g >=? Game.targetScore g)%Z
        || (Game.aiScore g + 1 >=? Game.targetScore g)%Z
     then GAME_OVER else Game.state g).
Proof.
  unfold aiPoint, ballAtCenter; cbv zeta.
  destruct (Ball.reset _ _ _ rnd) as [b rnd1] eqn:E.
  pose proof (reset_position (Game.width g / 2) (Game.height g / 2)
                             (Game.ball g) rnd) as Hr.
  cbv zeta in Hr; simpl Game.ball in E; simpl Game.width in E;
    simpl Game.height in E; rewrite E in Hr; simpl fst in Hr.
  destruct Hr as (Hx & Hy & Hs & Hi & _).
  unfold Game.checkWinCondition; simpl.
  destruct (_ || _); simpl; repeat split; try assumption; try reflexivity;
    congruence.
Qed.

Lemma playerPoint_fields (g : Game.t) (rnd : Rng) :
  let g' := fst (playerPoint g rnd) in
  Game.width g' = Game.width g /\ Game.height g' = Game.height g /\
  Game.playerScore g' = (Game.playerScore g + 1)%Z /\
  Game.aiScore g' = Game.aiScore g /\
  Game.targetScore g' = Game.targetScore g /\
  ballAtCenter g' /\
  Ball.initialSpeed (Game.ball g') = Ball.initialSpeed (Game.ball g) /\
  Game.state g' =
    (if (Game.playerScore g + 1 >=? Game.targetScore g)%Z
        || (Game.aiScore g >=? Game.targetScore g)%Z
     then GAME_OVER else Game.state g).
Proof.
  unfold playerPoint, ballAtCenter; cbv zeta.
  destruct (Ball.reset _ _ _ rnd) as [b rnd1] eqn:E.
  pose proof (reset_position (Game.width g / 2) (Game.height g / 2)
                             (Game.ball g) rnd) as Hr.
  cbv zeta in Hr; simpl Game.ball in E; simpl Game.width in E;
    simpl Game.height in E; rewrite E in Hr; simpl fst in Hr.
  destruct Hr as (Hx & Hy & Hs & Hi & _).
  unfold Game.checkWinCondition; simpl.
  destruct (_ || _); simpl; repeat split; try assumption; try reflexivity;
    congruence.
Qed.

Lemma checkScoring_ai (g : Game.t) (rnd : Rng) :
  exitedLeft g -> ~ exitedRight g -> Game.checkScoring g rnd = aiPoint g rnd.
Proof.
  unfold exitedLeft, exitedRight; intros Hl Hr.
  rewrite checkScoring_branches; cbv zeta.
  apply ltb_spec in Hl; rewrite Hl.
  pose proof (aiPoint_fields g rnd) as (Hw & _); cbv zeta in Hw.
  destruct (aiPoint g rnd) as [g1 rnd1]; simpl in Hw; rewrite Hw.
  destruct (gtb _ _) eqn:E; [| reflexivity].
  apply gtb_spec in E; contradiction.
Qed.

Lemma checkScoring_player (g : Game.t) (rnd : Rng) :
  ~ exitedLeft g -> exitedRight g -> Game.checkScoring g rnd = playerPoint g rnd.
Proof.
  unfold exitedLeft, exitedRight; intros Hl Hr.
  rewrite checkScoring_branches; cbv zeta.
  destruct (ltb _ 0) eqn:E; [apply ltb_spec in E; contradiction |].
  apply gtb_spec in Hr; rewrite Hr; reflexivity.
Qed.

Lemma checkScoring_none (g : Game.t) (rnd : Rng) :
  ~ exitedLeft g -> ~ exitedRight g -> Game.checkScoring g rnd = (g, rnd).
Proof.
  unfold exitedLeft, exitedRight; intros Hl Hr.
  rewrite checkScoring_branches; cbv zeta.
  destruct (ltb _ 0) eqn:E; [apply ltb_spec in E; contradiction |].
  destruct (gtb _ _) eqn:E'; [apply gtb_spec in E'; contradiction |].
  reflexivity.
Qed.

Lemma checkScoring_both (g : Game.t) (rnd : Rng) :
  exitedLeft g -> exitedRight g ->
  Game.checkScoring g rnd =
  playerPoint (fst (aiPoint g rnd)) (snd (aiPoint g rnd)).
Proof.
  unfold exitedLeft, exitedRight; intros Hl Hr.
  rewrite checkScoring_branches; cbv zeta.
  apply ltb_spec in Hl; rewrite Hl.
  pose proof (aiPoint_fields g rnd) as (Hw & _); cbv zeta in Hw.
  destruct (aiPoint g rnd) as [g1 rnd1]; simpl in *; rewrite Hw.
  apply gtb_spec in Hr; rewrite Hr; reflexivity.
Qed.

Lemma exited_dec (g : Game.t) :
  (exitedLeft g \/ ~ exitedLeft g) /\ (exitedRight g \/ ~ exitedRight g).
Proof.
  unfold exitedLeft, exitedRight; split.
  - destruct (Rlt_dec (Ball.x (Game.ball g) + Ball.radius (Game.ball g)) 0); tauto.
  - destruct (Rgt_dec (Ball.x (Game.ball g) - Ball.radius (Game.ball g))
                      (Game.width g)); tauto.
Qed.

(** The counters and the ball after the scoring pass, whichever of its
    branches run. *)
Lemma checkScoring_counters (g : Game.t) (rnd : Rng) :
  let g' := fst (Game.checkScoring g rnd) in
  (exitedLeft g -> Game.aiScore g' = (Game.aiScore g + 1)%Z) /\
  (~ exitedLeft g -> Game.aiScore g' = Game.aiScore g) /\
  (exitedRight g -> Game.playerScore g' = (Game.playerScore g + 1)%Z) /\
  (~ exitedRight g -> Game.playerScore g' = Game.playerScore g) /\
  (exitedLeft g \/ exitedRight g -> ballAtCenter g') /\
  Game.targetScore g' = Game.targetScore g /\
  Game.width g' = Game.width g /\ Game.height g' = Game.height g.
Proof.
  cbv zeta.
  destruct (exited_dec g) as [[Hl | Hl] [Hr | Hr]].
  - rewrite (checkScoring_both g rnd Hl Hr).
    pose proof (aiPoint_fields g rnd) as Ha; cbv zeta in Ha.
    pose proof (playerPoint_fields (fst (aiPoint g rnd)) (snd (aiPoint g rnd)))
      as Hp; cbv zeta in Hp.
    destruct Ha as (Ha1 & Ha2 & Ha3 & Ha4 & Ha5 & _).
    destruct Hp as (Hp1 & Hp2 & Hp3 & Hp4 & Hp5 & Hp6 & _).
    repeat split; intros; try tauto; try congruence.
    + apply Hp6.
    + apply Hp6.
    + apply Hp6.
  - rewrite (checkScoring_ai g rnd Hl Hr).
    pose proof (aiPoint_fields g rnd) as Ha; cbv zeta in Ha.
    destruct Ha as (Ha1 & Ha2 & Ha3 & Ha4 & Ha5 & Ha6 & _).
    repeat split; intros; try tauto; try congruence; apply Ha6.
  - rewrite (checkScoring_player g rnd Hl Hr).
    pose proof (playerPoint_fields g rnd) as Hp; cbv zeta in Hp.
    destruct Hp as (Hp1 & Hp2 & Hp3 & Hp4 & Hp5 & Hp6 & _).
    repeat split; intros; try tauto; try congruence; apply Hp6.
  - rewrite (checkScoring_none g rnd Hl Hr); simpl.
    repeat split; intros; try tauto; try congruence.
Qed.

(** ** Game: one tick *)

Lemma paddle_update_x (dt : R) (i : InputHandler.t) (p : Paddle.t) :
  Paddle.x (Paddle.update dt i p) = Paddle.x p /\
  Paddle.height (Paddle.update dt i p) = Paddle.height p.
Proof. unfold Paddle.update; destruct (Paddle.isAI p); split; reflexivity. Qed.

Lemma paddle_updateAI_x (ball : Ball.t) (dt : R) (p : Paddle.t) :
  Paddle.x (Paddle.updateAI ball dt p) = Paddle.x p /\
  Paddle.height (Paddle.updateAI ball dt p) = Paddle.height p.
Proof.
  unfold Paddle.updateAI; destruct (Paddle.isAI p); simpl;
    [| split; reflexivity].
  repeat match goal with |- context [if ?c then _ else _] => destruct c end;
    split; reflexivity.
Qed.

Lemma checkWallCollision_x (b : Ball.t) :
  Ball.x (fst (Ball.checkWallCollision b)) = Ball.x b /\
  Ball.radius (fst (Ball.checkWallCollision b)) = Ball.radius b.
Proof.
  unfold Ball.checkWallCollision.
  destruct (leb _ 0); simpl; destruct (geb _ _); split; reflexivity.
Qed.

Lemma checkPaddleCollision_left_of (b : Ball.t) (p : Paddle.t) :
  Ball.x b + Ball.radius b < Paddle.x p -> Ball.checkPaddleCollision b p = None.
Proof.
  intros H; apply checkPaddleCollision_apart.
  unfold boxesOverlap, overlap; simpl; lra.
Qed.

Lemma checkPaddleCollision_right_of (b : Ball.t) (p : Paddle.t) :
  Paddle.x p + Paddle.width p < Ball.x b - Ball.radius b ->
  Ball.checkPaddleCollision b p = None.
Proof.
  intros H; apply checkPaddleCollision_apart.
  unfold boxesOverlap, overlap; simpl; lra.
Qed.

Lemma paddle_update_width (dt : R) (i : InputHandler.t) (p : Paddle.t) :
  Paddle.width (Paddle.update dt i p) = Paddle.width p.
Proof. unfold Paddle.update; destruct (Paddle.isAI p); reflexivity. Qed.

Lemma paddle_updateAI_width (ball : Ball.t) (dt : R) (p : Paddle.t) :
  Paddle.width (Paddle.updateAI ball dt p) = Paddle.width p.
Proof.
  unfold Paddle.updateAI; destruct (Paddle.isAI p); simpl; [| reflexivity].
  repeat match goal with |- context [if ?c then _ else _] => destruct c end;
    reflexivity.
Qed.

(** The collision pass touches neither the status nor the scores. *)
Lemma checkCollisions_fields (g : Game.t) :
  let g' := Game.checkCollisions g in
  Game.state g' = Game.state g /\
  Game.playerScore g' = Game.playerScore g /\
  Game.aiScore g' = Game.aiScore g /\
  Game.targetScore g' = Game.targetScore g /\
  Game.width g' = Game.width g /\ Game.height g' = Game.height g /\
  Game.inputHandler g' = Game.inputHandler g /\
  Game.playerPaddle g' = Game.playerPaddle g /\
  Game.aiPaddle g' = Game.aiPaddle g.
Proof.
  unfold Game.checkCollisions; cbv zeta.
  destruct (Ball.checkWallCollision (Game.ball g)) as [b hit].
  destruct hit; simpl;
    destruct (Ball.checkPaddleCollision _ _) as [[] |]; simpl;
    destruct (Ball.checkPaddleCollision _ _) as [[] |]; simpl;
    repeat split; reflexivity.
Qed.

(** With the ball left of both paddles, the collision pass is the wall
    check alone. *)
Lemma checkCollisions_ball_clear (g : Game.t) :
  Ball.x (Game.ball g) + Ball.radius (Game.ball g) < Paddle.x (Game.playerPaddle g) ->
  Ball.x (Game.ball g) + Ball.radius (Game.ball g) < Paddle.x (Game.aiPaddle g) ->
  Game.ball (Game.checkCollisions g) = fst (Ball.checkWallCollision (Game.ball g)).
Proof.
  intros Hp Ha; unfold Game.checkCollisions; cbv zeta.
  destruct (checkWallCollision_x (Game.ball g)) as [Hx Hr].
  destruct (Ball.checkWallCollision (Game.ball g)) as [b hit].
  simpl fst in *.
  assert (E1 : Ball.checkPaddleCollision b (Game.playerPaddle g) = None)
    by (apply checkPaddleCollision_left_of; lra).
  assert (E2 : Ball.checkPaddleCollision b (Game.aiPaddle g) = None)
    by (apply checkPaddleCollision_left_of; lra).
  destruct hit; simpl; rewrite E1; simpl; rewrite E2; reflexivity.
Qed.

(** With the ball beside each paddle, the collision pass is the wall
    check alone. *)
Lemma checkCollisions_ball_free (g : Game.t) :
  Ball.x (Game.ball g) + Ball.radius (Game.ball g) < Paddle.x (Game.playerPaddle g) \/
  Paddle.x (Game.playerPaddle g) + Paddle.width (Game.playerPaddle g)
  < Ball.x (Game.ball g) - Ball.radius (Game.ball g) ->
  Ball.x (Game.ball g) + Ball.radius (Game.ball g) < Paddle.x (Game.aiPaddle g) \/
  Paddle.x (Game.aiPaddle g) + Paddle.width (Game.aiPaddle g)
  < Ball.x (Game.ball g) - Ball.radius (Game.ball g) ->
  Game.ball (Game.checkCollisions g) = fst (Ball.checkWallCollision (Game.ball g)).
Proof.
  intros Hp Ha; unfold Game.checkCollisions; cbv zeta.
  destruct (checkWallCollision_x (Game.ball g)) as [Hx Hr].
  destruct (Ball.checkWallCollision (Game.ball g)) as [b hit].
  simpl fst in *.
  assert (E1 : Ball.checkPaddleCollision b (Game.playerPaddle g) = None).
  { destruct Hp; [apply checkPaddleCollision_left_of
                 | apply checkPaddleCollision_right_of]; lra. }
  assert (E2 : Ball.checkPaddleCollision b (Game.aiPaddle g) = None).
  { destruct Ha; [apply checkPaddleCollision_left_of
                 | apply checkPaddleCollision_right_of]; lra. }
  destruct hit; simpl; rewrite E1; simpl; rewrite E2; reflexivity.
Qed.

Lemma updatePlaying_playing (dt : R) (g : Game.t) (rnd : Rng) :
  Game.state g = PLAYING ->
  Game.updatePlaying dt g rnd = Game.checkScoring (beforeScoring dt g) rnd.
Proof. intros H; unfold Game.updatePlaying; rewrite H; reflexivity. Qed.

Lemma beforeScoring_fields (dt : R) (g : Game.t) :
  let g' := beforeScoring dt g in
  Game.state g' = Game.state g /\
  Game.playerScore g' = Game.playerScore g /\
  Game.aiScore g' = Game.aiScore g /\
  Game.targetScore g' = Game.targetScore g /\
  Game.width g' = Game.width g /\ Game.height g' = Game.height g /\
  Game.inputHandler g' = Game.inputHandler g.
Proof.
  unfold beforeScoring; cbv zeta.
  match goal with |- context [Game.checkCollisions ?a] =>
    pose proof (checkCollisions_fields a) as H; cbv zeta in H end.
  destruct H as (H1 & H2 & H3 & H4 & H5 & H6 & H7 & _).
  rewrite H1, H2, H3, H4, H5, H6, H7; simpl; repeat split; reflexivity.
Qed.

(** A tick in which the ball leaves on the left, the paddles being inside
    the canvas: the playing block of [update] is a point for the AI. *)
Lemma left_exit_tick (g : Game.t) (dt : R) (rnd : Rng) :
  Game.state g = PLAYING ->
  0 <= Game.width g -> 0 <= Ball.radius (Game.ball g) ->
  0 <= Paddle.x (Game.playerPaddle g) -> 0 <= Paddle.x (Game.aiPaddle g) ->
  Ball.x (Game.ball g) + Ball.velocityX (Game.ball g) * dt
  + Ball.radius (Game.ball g) < 0 ->
  let g' := fst (Game.updatePlaying dt g rnd) in
  Game.aiScore g' = (Game.aiScore g + 1)%Z /\
  Game.playerScore g' = Game.playerScore g /\
  Game.targetScore g' = Game.targetScore g /\
  Ball.x (Game.ball g') = Game.width g / 2 /\
  Ball.y (Game.ball g') = Game.height g / 2 /\
  Game.state g' =
    (if (Game.playerScore g >=? Game.targetScore g)%Z
        || (Game.aiScore g + 1 >=? Game.targetScore g)%Z
     then GAME_OVER else PLAYING).
Proof.
  intros Hst Hw Hr Hpp Hap Hdt.
  pose proof (beforeScoring_fields dt g) as Hf; cbv zeta in Hf.
  destruct Hf as (F1 & F2 & F3 & F4 & F5 & F6 & _).
  assert (Hball : Game.ball (beforeScoring dt g)
                  = fst (Ball.checkWallCollision (Ball.update dt (Game.ball g)))).
  { unfold beforeScoring; cbv zeta.
    apply checkCollisions_ball_clear; simpl.
    - pose proof (paddle_update_x dt (Game.inputHandler g) (Game.playerPaddle g))
        as [E _]; rewrite E; lra.
    - match goal with |- _ < Paddle.x (Paddle.updateAI ?b ?d ?p) =>
        pose proof (paddle_updateAI_x b d p) as [E _]; rewrite E end.
      lra. }
  destruct (checkWallCollision_x (Ball.update dt (Game.ball g))) as [Ex Er].
  simpl Ball.x in Ex at 2; simpl Ball.radius in Er at 2.
  assert (Hl : exitedLeft (beforeScoring dt g))
    by (unfold exitedLeft; rewrite Hball, Ex, Er; lra).
  assert (Hnr : ~ exitedRight (beforeScoring dt g))
    by (unfold exitedRight; rewrite Hball, Ex, Er, F5; lra).
  cbv zeta.
  rewrite (updatePlaying_playing dt g rnd Hst), (checkScoring_ai _ rnd Hl Hnr).
  pose proof (aiPoint_fields (beforeScoring dt g) rnd) as Ha; cbv zeta in Ha.
  destruct (aiPoint (beforeScoring dt g) rnd) as [g1 rnd1]; simpl fst in *.
  destruct Ha as (A1 & A2 & A3 & A4 & A5 & (A6 & A7 & _) & _ & A8).
  rewrite F1, F2, F3, F4, Hst in A8.
  repeat split; congruence.
Qed.

(** The ball [reset] makes is served, whatever the ball was. *)
Lemma reset_served (x y : R) (b : Ball.t) (rnd : Rng) :
  served (fst (Ball.reset x y b rnd)).
Proof.
  unfold served, Ball.reset, Ball.setRandomVelocity; simpl.
  split; [reflexivity | apply unit_circle].
Qed.

Lemma aiPoint_ball (g : Game.t) (rnd : Rng) :
  Game.ball (fst (aiPoint g rnd))
  = fst (Ball.reset (Game.width g / 2) (Game.height g / 2) (Game.ball g) rnd) /\
  snd (aiPoint g rnd)
  = snd (Ball.reset (Game.width g / 2) (Game.height g / 2) (Game.ball g) rnd).
Proof.
  unfold aiPoint; cbv zeta.
  change (Game.width (Game.play (Game.set_aiScore g (Game.aiScore g + 1)%Z)
                                ScoreSound)) with (Game.width g).
  change (Game.height (Game.play (Game.set_aiScore g (Game.aiScore g + 1)%Z)
                                 ScoreSound)) with (Game.height g).
  change (Game.ball (Game.play (Game.set_aiScore g (Game.aiScore g + 1)%Z)
                               ScoreSound)) with (Game.ball g).
  destruct (Ball.reset _ _ (Game.ball g) rnd) as [b rnd1]; simpl.
  unfold Game.checkWinCondition; destruct (_ || _); split; reflexivity.
Qed.

Lemma playerPoint_ball (g : Game.t) (rnd : Rng) :
  Game.ball (fst (playerPoint g rnd))
  = fst (Ball.reset (Game.width g / 2) (Game.height g / 2) (Game.ball g) rnd) /\
  snd (playerPoint g rnd)
  = snd (Ball.reset (Game.width g / 2) (Game.height g / 2) (Game.ball g) rnd).
Proof.
  unfold playerPoint; cbv zeta.
  change (Game.width (Game.play (Game.set_playerScore g (Game.playerScore g + 1)%Z)
                                ScoreSound)) with (Game.width g).
  change (Game.height (Game.play (Game.set_playerScore g (Game.playerScore g + 1)%Z)
                                 ScoreSound)) with (Game.height g).
  change (Game.ball (Game.play (Game.set_playerScore g (Game.playerScore g + 1)%Z)
                               ScoreSound)) with (Game.ball g).
  destruct (Ball.reset _ _ (Game.ball g) rnd) as [b rnd1]; simpl.
  unfold Game.checkWinCondition; destruct (_ || _); split; reflexivity.
Qed.

(** The ball after a scoring pass in which it left the canvas is served;
    when it left on one side only, it is the ball [reset] makes of it with
    the next two draws. *)
Lemma checkScoring_serve (g : Game.t) (rnd : Rng) :
  let g' := fst (Game.checkScoring g rnd) in
  let centred :=
    Ball.reset (Game.width g / 2) (Game.height g / 2) (Game.ball g) rnd in
  (exitedLeft g \/ exitedRight g -> served (Game.ball g')) /\
  (~ (exitedLeft g /\ exitedRight g) -> exitedLeft g \/ exitedRight g ->
   Game.ball g' = fst centred /\ snd (Game.checkScoring g rnd) = snd centred) /\
  (~ exitedLeft g -> ~ exitedRight g -> Game.checkScoring g rnd = (g, rnd)).
Proof.
  cbv zeta.
  destruct (exited_dec g) as [[Hl | Hl] [Hr | Hr]].
  - rewrite (checkScoring_both g rnd Hl Hr).
    destruct (playerPoint_ball (fst (aiPoint g rnd)) (snd (aiPoint g rnd)))
      as [E _].
    split; [intros _; rewrite E; apply reset_served |].
    split; [intros H; exfalso; apply H; split; assumption | contradiction].
  - rewrite (checkScoring_ai g rnd Hl Hr).
    destruct (aiPoint_ball g rnd) as [E1 E2].
    split; [intros _; rewrite E1; apply reset_served |].
    split; [intros _ _; split; assumption | contradiction].
  - rewrite (checkScoring_player g rnd Hl Hr).
    destruct (playerPoint_ball g rnd) as [E1 E2].
    split; [intros _; rewrite E1; apply reset_served |].
    split; [intros _ _; split; assumption | contradiction].
  - rewrite (checkScoring_none g rnd Hl Hr).
    split; [intros [H | H]; contradiction |].
    split; [intros _ [H | H]; contradiction | reflexivity].
Qed.

(** A tick in which the ball leaves on the left, the paddles being inside
    the canvas: what the scoring pass finds. *)
Lemma left_exit_before (g : Game.t) (dt : R) :
  0 <= Game.width g -> 0 <= Ball.radius (Game.ball g) ->
  0 <= Paddle.x (Game.playerPaddle g) -> 0 <= Paddle.x (Game.aiPaddle g) ->
  Ball.x (Game.ball g) + Ball.velocityX (Game.ball g) * dt
  + Ball.radius (Game.ball g) < 0 ->
  exitedLeft (beforeScoring dt g) /\ ~ exitedRight (beforeScoring dt g) /\
  Ball.initialSpeed (Game.ball (beforeScoring dt g))
  = Ball.initialSpeed (Game.ball g).
Proof.
  intros Hw Hr Hpp Hap Hdt.
  assert (Hball : Game.ball (beforeScoring dt g)
                  = fst (Ball.checkWallCollision (Ball.update dt (Game.ball g)))).
  { unfold beforeScoring; cbv zeta.
    apply checkCollisions_ball_clear; simpl.
    - pose proof (paddle_update_x dt (Game.inputHandler g) (Game.playerPaddle g))
        as [E _]; rewrite E; lra.
    - match goal with |- _ < Paddle.x (Paddle.updateAI ?b ?d ?p) =>
        pose proof (paddle_updateAI_x b d p) as [E _]; rewrite E end.
      lra. }
  destruct (checkWallCollision_x (Ball.update dt (Game.ball g))) as [Ex Er].
  simpl Ball.x in Ex at 2; simpl Ball.radius in Er at 2.
  pose proof (beforeScoring_fields dt g) as Hf; cbv zeta in Hf.
  destruct Hf as (_ & _ & _ & _ & F5 & _).
  split; [unfold exitedLeft; rewrite Hball, Ex, Er; lra |].
  split; [unfold exitedRight; rewrite Hball, Ex, Er, F5; lra |].
  rewrite Hball; unfold Ball.checkWallCollision; cbv zeta.
  destruct (leb _ _); destruct (geb _ _); reflexivity.
Qed.

(** In such a tick the ball is served. *)
Lemma left_exit_served (g : Game.t) (dt : R) (rnd : Rng) :
  Game.state g = PLAYING ->
  0 <= Game.width g -> 0 <= Ball.radius (Game.ball g) ->
  0 <= Paddle.x (Game.playerPaddle g) -> 0 <= Paddle.x (Game.aiPaddle g) ->
  Ball.x (Game.ball g) + Ball.velocityX (Game.ball g) * dt
  + Ball.radius (Game.ball g) < 0 ->
  served (Game.ball (fst (Game.updatePlaying dt g rnd))) /\
  Ball.initialSpeed (Game.ball (fst (Game.updatePlaying dt g rnd)))
  = Ball.initialSpeed (Game.ball g).
Proof.
  intros Hst Hw Hr Hpp Hap Hdt.
  destruct (left_exit_before g dt Hw Hr Hpp Hap Hdt) as (Hl & Hnr & Hi).
  rewrite (updatePlaying_playing dt g rnd Hst).
  split; [apply checkScoring_serve; left; exact Hl |].
  rewrite (checkScoring_ai _ rnd Hl Hnr).
  pose proof (aiPoint_fields (beforeScoring dt g) rnd) as Ha; cbv zeta in Ha.
  destruct Ha as (_ & _ & _ & _ & _ & _ & A7 & _).
  rewrite A7; exact Hi.
Qed.

(** Scenario 1 of the specification, for any game in which the paddles
    are inside the canvas: a ball at x = 5 with vx = -50 and radius 10, on
    a canvas 800 wide, and a tick long enough for the ball to leave on the
    left. *)
Lemma scenario_1 (g : Game.t) (dt : R) (rnd : Rng) :
  Game.state g = PLAYING ->
  Game.width g = 800 ->
  Game.playerScore g = 0%Z -> Game.aiScore g = 0%Z -> Game.targetScore g = 10%Z ->
  Ball.x (Game.ball g) = 5 -> Ball.velocityX (Game.ball g) = -50 ->
  Ball.radius (Game.ball g) = 10 ->
  0 <= Paddle.x (Game.playerPaddle g) -> 0 <= Paddle.x (Game.aiPaddle g) ->
  Ball.x (Game.ball g) + Ball.velocityX (Game.ball g) * dt
  + Ball.radius (Game.ball g) < 0 ->
  let g' := fst (Game.update dt g rnd) in
  Game.aiScore g' = 1%Z /\ Game.playerScore g' = 0%Z /\
  Ball.x (Game.ball g') = 400 /\ Ball.y (Game.ball g') = Game.height g / 2 /\
  served (Game.ball g') /\
  Ball.initialSpeed (Game.ball g') = Ball.initialSpeed (Game.ball g) /\
  Game.state g' = PLAYING.
Proof.
  intros Hst Hw Hps Has Hts Hx Hvx Hr Hpp Hap Hdt.
  destruct (left_exit_tick g dt rnd Hst) as (A1 & A2 & A3 & A4 & A5 & A6);
    try assumption; try lra.
  destruct (left_exit_served g dt rnd Hst) as ([A7 A8] & A9);
    try assumption; try lra.
  rewrite Hps, Has, Hts in A6; simpl in A6.
  cbv zeta; unfold Game.update.
  destruct (Game.updatePlaying dt g rnd) as [g1 rnd1]; simpl fst in *.
  unfold Game.updateRestart; rewrite A6; simpl.
  repeat split.
  - rewrite A1, Has; reflexivity.
  - rewrite A2, Hps; reflexivity.
  - rewrite A4, Hw; lra.
  - exact A5.
  - exact A7.
  - exact A8.
  - exact A9.
  - exact A6.
Qed.

Lemma update_blocks (dt : R) (g : Game.t) (rnd : Rng) :
  Game.update dt g rnd =
  Game.updateRestart (fst (Game.updatePlaying dt g rnd))
                     (snd (Game.updatePlaying dt g rnd)).
Proof.
  unfold Game.update; destruct (Game.updatePlaying dt g rnd); reflexivity.
Qed.

(** The playing block of a tick leaves the input handler as it is. *)
Lemma point_inputHandler (g : Game.t) (rnd : Rng) :
  Game.inputHandler (fst (aiPoint g rnd)) = Game.inputHandler g /\
  Game.inputHandler (fst (playerPoint g rnd)) = Game.inputHandler g.
Proof.
  unfold aiPoint, playerPoint; cbv zeta.
  split;
    match goal with |- context [Ball.reset ?x ?y ?b rnd] =>
      destruct (Ball.reset x y b rnd) end;
    unfold Game.checkWinCondition; destruct (_ || _); reflexivity.
Qed.

Lemma updatePlaying_inputHandler (dt : R) (g : Game.t) (rnd : Rng) :
  Game.inputHandler (fst (Game.updatePlaying dt g rnd)) = Game.inputHandler g.
Proof.
  unfold Game.updatePlaying.
  destruct (Game.state g); [| reflexivity].
  fold (beforeScoring dt g).
  pose proof (beforeScoring_fields dt g) as Hf; cbv zeta in Hf.
  destruct Hf as (_ & _ & _ & _ & _ & _ & F7).
  rewrite checkScoring_branches; cbv zeta.
  assert (H1 : Game.inputHandler
                 (fst (if ltb (Ball.x (Game.ball (beforeScoring dt g))
                               + Ball.radius (Game.ball (beforeScoring dt g))) 0
                       then aiPoint (beforeScoring dt g) rnd
                       else (beforeScoring dt g, rnd)))
               = Game.inputHandler g).
  { destruct (ltb _ 0); [| exact F7].
    etransitivity; [apply (proj1 (point_inputHandler _ _)) | exact F7]. }
  destruct (if ltb _ 0 then aiPoint _ rnd else (_, rnd)) as [g1 rnd1].
  simpl in H1.
  destruct (gtb _ _); [| exact H1].
  etransitivity; [apply (proj2 (point_inputHandler _ _)) | exact H1].
Qed.

(** With the restart input off, a tick is its playing block. *)
Lemma update_no_restart (dt : R) (g : Game.t) (rnd : Rng) :
  Game.restartRequested g = false ->
  Game.update dt g rnd = Game.updatePlaying dt g rnd.
Proof.
  intros Hr; rewrite update_blocks.
  pose proof (updatePlaying_inputHandler dt g rnd) as Hi.
  destruct (Game.updatePlaying dt g rnd) as [g1 rnd1]; simpl in Hi |- *.
  unfold Game.updateRestart.
  destruct (Game.state g1); [reflexivity |].
  replace (Game.restartRequested g1) with (Game.restartRequested g)
    by (unfold Game.restartRequested; rewrite Hi; reflexivity).
  rewrite Hr; reflexivity.
Qed.

(** The first tick of a game of width -50, as its constructor makes it:
    the ball, at x = -25, has its right edge left of x = 0 and its left
    edge right of x = width, both branches of the scoring pass fire, and
    the tick gives a point to each side. *)
Lemma scoring_pass_both_branches :
  let g' := fst (Game.checkScoring narrowGame zeros) in
  let g1 := fst (Game.update 0 narrowGame zeros) in
  (exitedLeft narrowGame /\ exitedRight narrowGame /\
   Game.aiScore g' = (Game.aiScore narrowGame + 1)%Z /\
   Game.playerScore g' = (Game.playerScore narrowGame + 1)%Z) /\
  (Game.aiScore narrowGame = 0%Z /\ Game.playerScore narrowGame = 0%Z /\
   Game.aiScore g1 = 1%Z /\ Game.playerScore g1 = 1%Z).
Proof.
  assert (Hl : exitedLeft narrowGame) by (unfold exitedLeft; simpl; lra).
  assert (Hr : exitedRight narrowGame) by (unfold exitedRight; simpl; lra).
  pose proof (checkScoring_counters narrowGame zeros) as H; cbv zeta in H.
  destruct H as (H1 & _ & H3 & _).
  cbv zeta; split;
    [split; [exact Hl | split; [exact Hr | split; [exact (H1 Hl) | exact (H3 Hr)]]] |].
  split; [reflexivity |]. split; [reflexivity |].
  pose proof (beforeScoring_fields 0 narrowGame) as Hf; cbv zeta in Hf.
  destruct Hf as (_ & F2 & F3 & _ & F5 & _).
  assert (Hball : Game.ball (beforeScoring 0 narrowGame)
                  = fst (Ball.checkWallCollision
                           (Ball.update 0 (Game.ball narrowGame)))).
  { unfold beforeScoring; cbv zeta.
    apply checkCollisions_ball_free.
    - left; cbn [Game.ball Game.set_ball Game.playerPaddle Game.set_aiPaddle
                 Game.set_playerPaddle].
      rewrite (proj1 (paddle_update_x 0 _ _)); simpl; lra.
    - right; cbn [Game.ball Game.set_ball Game.aiPaddle Game.set_aiPaddle
                  Game.set_playerPaddle].
      match goal with |- Paddle.x (Paddle.updateAI ?b ?d ?p) + _ < _ =>
        rewrite (proj1 (paddle_updateAI_x b d p)), (paddle_updateAI_width b d p)
      end.
      simpl; lra. }
  destruct (checkWallCollision_x (Ball.update 0 (Game.ball narrowGame)))
    as [Ex Er].
  assert (Hl' : exitedLeft (beforeScoring 0 narrowGame))
    by (unfold exitedLeft; rewrite Hball, Ex, Er; simpl; lra).
  assert (Hr' : exitedRight (beforeScoring 0 narrowGame))
    by (unfold exitedRight; rewrite Hball, Ex, Er, F5; simpl; lra).
  rewrite (update_no_restart 0 narrowGame zeros eq_refl),
    (updatePlaying_playing 0 narrowGame zeros eq_refl).
  pose proof (checkScoring_counters (beforeScoring 0 narrowGame) zeros) as H.
  cbv zeta in H; destruct H as (C1 & _ & C3 & _).
  rewrite (C1 Hl'), (C3 Hr'), F2, F3; split; reflexivity.
Qed.

(** C6: in the scoring pass the AI's counter goes up by one exactly when
    the ball's right edge is left of x = 0 and the player's exactly when
    its left edge is right of x = width, and stays as it is otherwise; the
    two cannot happen in one pass when the width is at least -2 * radius
    (so on every canvas whose width is not negative, the radius of a ball
    being 10).  After a point the ball is at the centre of the canvas, at
    its initial speed, with a velocity of that length; when one branch
    fired it is the ball [reset] makes with the next two draws, and when
    none fired the pass changes nothing.  Scenario 1: a ball at x = 5 with
    vx = -50 and radius 10 on a canvas 800 wide, scores 0 to 0 with target
    10, and a tick long enough that x + radius < 0: the AI's score is 1,
    the ball is at (400, height / 2) and served at the initial speed it
    had, the status is still 'PLAYING'. *)
Theorem scoring_pass :
  (forall (g : Game.t) (rnd : Rng),
     let g' := fst (Game.checkScoring g rnd) in
     let centred :=
       Ball.reset (Game.width g / 2) (Game.height g / 2) (Game.ball g) rnd in
     (exitedLeft g <-> Game.aiScore g' = (Game.aiScore g + 1)%Z) /\
     (~ exitedLeft g <-> Game.aiScore g' = Game.aiScore g) /\
     (exitedRight g <-> Game.playerScore g' = (Game.playerScore g + 1)%Z) /\
     (~ exitedRight g <-> Game.playerScore g' = Game.playerScore g) /\
     (- (2 * Ball.radius (Game.ball g)) <= Game.width g ->
      ~ (exitedLeft g /\ exitedRight g)) /\
     (exitedLeft g \/ exitedRight g ->
      ballAtCenter g' /\ served (Game.ball g')) /\
     (~ (exitedLeft g /\ exitedRight g) -> exitedLeft g \/ exitedRight g ->
      Game.ball g' = fst centred /\
      snd (Game.checkScoring g rnd) = snd centred) /\
     (~ exitedLeft g -> ~ exitedRight g -> Game.checkScoring g rnd = (g, rnd))) /\
  (forall (g : Game.t) (dt : R) (rnd : Rng),
     Game.state g = PLAYING ->
     Game.width g = 800 ->
     Game.playerScore g = 0%Z -> Game.aiScore g = 0%Z ->
     Game.targetScore g = 10%Z ->
     Ball.x (Game.ball g) = 5 -> Ball.velocityX (Game.ball g) = -50 ->
     Ball.radius (Game.ball g) = 10 ->
     0 <= Paddle.x (Game.playerPaddle g) -> 0 <= Paddle.x (Game.aiPaddle g) ->
     Ball.x (Game.ball g) + Ball.velocityX (Game.ball g) * dt
     + Ball.radius (Game.ball g) < 0 ->
     let g' := fst (Game.update dt g rnd) in
     Game.aiScore g' = 1%Z /\ Game.playerScore g' = 0%Z /\
     Ball.x (Game.ball g') = 400 /\ Ball.y (Game.ball g') = Game.height g / 2 /\
     served (Game.ball g') /\
     Ball.initialSpeed (Game.ball g') = Ball.initialSpeed (Game.ball g) /\
     Game.state g' = PLAYING).
Proof.
  split; [| exact scenario_1].
  intros g rnd; cbv zeta.
  pose proof (checkScoring_counters g rnd) as H; cbv zeta in H.
  destruct H as (H1 & H2 & H3 & H4 & H5 & _).
  pose proof (checkScoring_serve g rnd) as S; cbv zeta in S.
  destruct S as (S1 & S2 & S3).
  destruct (exited_dec g) as [Hl Hr].
  split; [| split; [| split; [| split; [| split; [| split; [| split]]]]]].
  - split; [exact H1 |].
    intros E; destruct Hl as [Hl | Hl]; [exact Hl |].
    rewrite (H2 Hl) in E; lia.
  - split; [exact H2 |].
    intros E Hl'; rewrite (H1 Hl') in E; lia.
  - split; [exact H3 |].
    intros E; destruct Hr as [Hr | Hr]; [exact Hr |].
    rewrite (H4 Hr) in E; lia.
  - split; [exact H4 |].
    intros E Hr'; rewrite (H3 Hr') in E; lia.
  - unfold exitedLeft, exitedRight; intros Hw [A B]; lra.
  - intros He; split; [exact (H5 He) | exact (S1 He)].
  - exact S2.
  - exact S3.
Qed.

(** Scenario 1 on the game 800 by 600: the ball came at 50 pixels per
    second and leaves the serve at 300. *)
Lemma scoring_pass_witness :
  let g' := fst (Game.update 0.4 scenarioGame zeros) in
  Game.aiScore g' = 1%Z /\ Game.playerScore g' = 0%Z /\
  Ball.x (Game.ball g') = 400 /\ Ball.y (Game.ball g') = 300 /\
  Ball.velocityX (Game.ball g') * Ball.velocityX (Game.ball g')
  + Ball.velocityY (Game.ball g') * Ball.velocityY (Game.ball g')
  = 300 * 300 /\
  Game.state g' = PLAYING.
Proof.
  destruct (proj2 scoring_pass scenarioGame 0.4 zeros)
    as (H1 & H2 & H3 & H4 & [H5 H6] & H7 & H8);
    try reflexivity; try (simpl; lra).
  cbv zeta; rewrite H4, H6, H7.
  repeat split; try assumption; simpl; lra.
Defined.

(** ** Game: the sounds of the passes *)

Lemma checkCollisions_sounds (g : Game.t) :
  exists wall player ai : bool,
    Game.audioManager (Game.checkCollisions g)
    = Game.audioManager g
      ++ played wall WallHitSound ++ played player PaddleHitSound
      ++ played ai PaddleHitSound.
Proof.
  unfold Game.checkCollisions; cbv zeta.
  destruct (Ball.checkWallCollision (Game.ball g)) as [b hit].
  exists hit.
  destruct hit; simpl;
    (destruct (Ball.checkPaddleCollision _ _) as [[] |];
     [exists true | exists true | exists true | exists true | exists false]);
    simpl;
    (destruct (Ball.checkPaddleCollision _ _) as [[] |];
     [exists true | exists true | exists true | exists true | exists false]);
    simpl; rewrite <- ?app_assoc; simpl; rewrite ?app_nil_r; reflexivity.
Qed.

Lemma beforeScoring_sounds (dt : R) (g : Game.t) :
  exists wall player ai : bool,
    Game.audioManager (beforeScoring dt g)
    = Game.audioManager g
      ++ played wall WallHitSound ++ played player PaddleHitSound
      ++ played ai PaddleHitSound.
Proof.
  unfold beforeScoring; cbv zeta.
  match goal with |- context [Game.checkCollisions ?a] =>
    destruct (checkCollisions_sounds a) as (w & p & a' & H) end.
  exists w, p, a'; rewrite H; reflexivity.
Qed.

Lemma checkWinCondition_sounds (g : Game.t) :
  let over := (Game.playerScore g >=? Game.targetScore g)%Z
              || (Game.aiScore g >=? Game.targetScore g)%Z in
  Game.audioManager (Game.checkWinCondition g)
  = Game.audioManager g ++ played over GameOverSound /\
  Game.state (Game.checkWinCondition g)
  = (if over then GAME_OVER else Game.state g) /\
  Game.playerScore (Game.checkWinCondition g) = Game.playerScore g /\
  Game.aiScore (Game.checkWinCondition g) = Game.aiScore g /\
  Game.targetScore (Game.checkWinCondition g) = Game.targetScore g.
Proof.
  cbv zeta; unfold Game.checkWinCondition.
  destruct (_ || _); simpl; rewrite ?app_nil_r; repeat split; reflexivity.
Qed.

Lemma aiPoint_sounds (g : Game.t) (rnd : Rng) :
  exists over : bool,
    Game.audioManager (fst (aiPoint g rnd))
    = Game.audioManager g ++ ScoreSound :: played over GameOverSound /\
    Game.state (fst (aiPoint g rnd)) = (if over then GAME_OVER else Game.state g) /\
    points (fst (aiPoint g rnd)) = (points g + 1)%Z.
Proof.
  unfold aiPoint, points; cbv zeta.
  match goal with |- context [Ball.reset ?x ?y ?b rnd] =>
    destruct (Ball.reset x y b rnd) as [b1 rnd1] end.
  simpl fst.
  match goal with |- context [Game.checkWinCondition ?a] =>
    pose proof (checkWinCondition_sounds a) as H; cbv zeta in H;
    destruct H as (H1 & H2 & H3 & H4 & _) end.
  eexists; rewrite H1, H2, H3, H4; simpl.
  rewrite <- app_assoc; simpl.
  split; [reflexivity | split; [reflexivity | lia]].
Qed.

Lemma playerPoint_sounds (g : Game.t) (rnd : Rng) :
  exists over : bool,
    Game.audioManager (fst (playerPoint g rnd))
    = Game.audioManager g ++ ScoreSound :: played over GameOverSound /\
    Game.state (fst (playerPoint g rnd)) = (if over then GAME_OVER else Game.state g) /\
    points (fst (playerPoint g rnd)) = (points g + 1)%Z.
Proof.
  unfold playerPoint, points; cbv zeta.
  match goal with |- context [Ball.reset ?x ?y ?b rnd] =>
    destruct (Ball.reset x y b rnd) as [b1 rnd1] end.
  simpl fst.
  match goal with |- context [Game.checkWinCondition ?a] =>
    pose proof (checkWinCondition_sounds a) as H; cbv zeta in H;
    destruct H as (H1 & H2 & H3 & H4 & _) end.
  eexists; rewrite H1, H2, H3, H4; simpl.
  rewrite <- app_assoc; simpl.
  split; [reflexivity | split; [reflexivity | lia]].
Qed.

Lemma checkScoring_sounds (g : Game.t) (rnd : Rng) :
  Game.state g = PLAYING ->
  let g' := fst (Game.checkScoring g rnd) in
  exists added,
    Game.audioManager g' = Game.audioManager g ++ added /\
    Z.of_nat (countSound ScoreSound added) = (points g' - points g)%Z /\
    (In GameOverSound added <-> Game.state g' = GAME_OVER) /\
    countSound WallHitSound added = 0%nat /\
    countSound PaddleHitSound added = 0%nat.
Proof.
  intros Hst; cbv zeta.
  destruct (exited_dec g) as [[Hl | Hl] [Hr | Hr]].
  - rewrite (checkScoring_both g rnd Hl Hr).
    destruct (aiPoint_sounds g rnd) as (o1 & A1 & A2 & A3).
    destruct (playerPoint_sounds (fst (aiPoint g rnd)) (snd (aiPoint g rnd)))
      as (o2 & P1 & P2 & P3).
    exists (ScoreSound :: played o1 GameOverSound
              ++ ScoreSound :: played o2 GameOverSound).
    rewrite P1, P2, P3, A1, A2, A3, Hst, <- app_assoc.
    destruct o1, o2; simpl;
      (split; [reflexivity | split; [lia | split; [| split; reflexivity]]]);
      split; intros H; try reflexivity; try discriminate; simpl; try tauto;
      repeat (destruct H as [H | H]; try discriminate H); contradiction.
  - rewrite (checkScoring_ai g rnd Hl Hr).
    destruct (aiPoint_sounds g rnd) as (o1 & A1 & A2 & A3).
    exists (ScoreSound :: played o1 GameOverSound).
    rewrite A1, A2, A3, Hst.
    destruct o1; simpl;
      (split; [reflexivity | split; [lia | split; [| split; reflexivity]]]);
      split; intros H; try reflexivity; try discriminate; simpl; try tauto;
      repeat (destruct H as [H | H]; try discriminate H); contradiction.
  - rewrite (checkScoring_player g rnd Hl Hr).
    destruct (playerPoint_sounds g rnd) as (o1 & A1 & A2 & A3).
    exists (ScoreSound :: played o1 GameOverSound).
    rewrite A1, A2, A3, Hst.
    destruct o1; simpl;
      (split; [reflexivity | split; [lia | split; [| split; reflexivity]]]);
      split; intros H; try reflexivity; try discriminate; simpl; try tauto;
      repeat (destruct H as [H | H]; try discriminate H); contradiction.
  - rewrite (checkScoring_none g rnd Hl Hr); simpl.
    exists []; rewrite app_nil_r, Hst; simpl.
    split; [reflexivity | split; [lia | split; [| split; reflexivity]]].
    split; [intros [] | discriminate].
Qed.

Lemma countSound_app (s : Sound) (l l' : list Sound) :
  countSound s (l ++ l') = (countSound s l + countSound s l')%nat.
Proof. unfold countSound; rewrite filter_app, length_app; reflexivity. Qed.

(** ** Game: the status *)

Lemma status_cases (s : Status) : s = PLAYING \/ s = GAME_OVER.
Proof. destruct s; [left | right]; reflexivity. Qed.

(** The status after the scoring pass of a game that was being played:
    'GAME_OVER' exactly when a score has reached the target. *)
Lemma checkScoring_status (g : Game.t) (rnd : Rng) :
  Game.state g = PLAYING -> ~ won g ->
  let g' := fst (Game.checkScoring g rnd) in
  Game.state g' = GAME_OVER <-> won g'.
Proof.
  unfold won; intros Hst Hnw; cbv zeta.
  destruct (exited_dec g) as [[Hl | Hl] [Hr | Hr]].
  - rewrite (checkScoring_both g rnd Hl Hr).
    pose proof (aiPoint_fields g rnd) as Ha; cbv zeta in Ha.
    pose proof (playerPoint_fields (fst (aiPoint g rnd)) (snd (aiPoint g rnd)))
      as Hp; cbv zeta in Hp.
    destruct Ha as (_ & _ & A3 & A4 & A5 & _ & _ & A8).
    destruct Hp as (_ & _ & P3 & P4 & P5 & _ & _ & P8).
    rewrite P8, P3, P4, P5, A8, A3, A4, A5, Hst.
    destruct (Z.geb_spec (Game.playerScore g + 1) (Game.targetScore g));
      destruct (Z.geb_spec (Game.aiScore g + 1) (Game.targetScore g));
      destruct (Z.geb_spec (Game.playerScore g) (Game.targetScore g));
      simpl; split; intros; try reflexivity; try discriminate; try lia.
  - rewrite (checkScoring_ai g rnd Hl Hr).
    pose proof (aiPoint_fields g rnd) as Ha; cbv zeta in Ha.
    destruct Ha as (_ & _ & A3 & A4 & A5 & _ & _ & A8).
    rewrite A8, A3, A4, A5, Hst.
    destruct (Z.geb_spec (Game.playerScore g) (Game.targetScore g));
      destruct (Z.geb_spec (Game.aiScore g + 1) (Game.targetScore g));
      simpl; split; intros; try reflexivity; try discriminate; try lia.
  - rewrite (checkScoring_player g rnd Hl Hr).
    pose proof (playerPoint_fields g rnd) as Hp; cbv zeta in Hp.
    destruct Hp as (_ & _ & P3 & P4 & P5 & _ & _ & P8).
    rewrite P8, P3, P4, P5, Hst.
    destruct (Z.geb_spec (Game.playerScore g + 1) (Game.targetScore g));
      destruct (Z.geb_spec (Game.aiScore g) (Game.targetScore g));
      simpl; split; intros; try reflexivity; try discriminate; try lia.
  - rewrite (checkScoring_none g rnd Hl Hr); simpl; rewrite Hst.
    split; [discriminate | tauto].
Qed.

(** Each counter goes up by at most one in the scoring pass. *)
Lemma checkScoring_step (g : Game.t) (rnd : Rng) :
  let g' := fst (Game.checkScoring g rnd) in
  (Game.playerScore g <= Game.playerScore g' <= Game.playerScore g + 1)%Z /\
  (Game.aiScore g <= Game.aiScore g' <= Game.aiScore g + 1)%Z /\
  Game.targetScore g' = Game.targetScore g.
Proof.
  pose proof (checkScoring_counters g rnd) as H; cbv zeta in *.
  destruct H as (H1 & H2 & H3 & H4 & _ & H6 & _).
  destruct (exited_dec g) as [[Hl | Hl] [Hr | Hr]];
    try rewrite (H1 Hl); try rewrite (H2 Hl);
    try rewrite (H3 Hr); try rewrite (H4 Hr);
    repeat split; try lia; exact H6.
Qed.

Lemma updatePlaying_over (dt : R) (g : Game.t) (rnd : Rng) :
  Game.state g = GAME_OVER -> Game.updatePlaying dt g rnd = (g, rnd).
Proof. intros H; unfold Game.updatePlaying; rewrite H; reflexivity. Qed.

Lemma updatePlaying_status (dt : R) (g : Game.t) (rnd : Rng) :
  Game.state g = PLAYING -> ~ won g ->
  let g1 := fst (Game.updatePlaying dt g rnd) in
  Game.state g1 = GAME_OVER <-> won g1.
Proof.
  intros Hst Hnw; cbv zeta.
  rewrite (updatePlaying_playing dt g rnd Hst).
  pose proof (beforeScoring_fields dt g) as Hf; cbv zeta in Hf.
  destruct Hf as (F1 & F2 & F3 & F4 & _).
  apply checkScoring_status.
  - rewrite F1; exact Hst.
  - unfold won in *; rewrite F2, F3, F4; exact Hnw.
Qed.

Lemma updatePlaying_invariant (dt : R) (g : Game.t) (rnd : Rng) :
  gameInvariant g -> gameInvariant (fst (Game.updatePlaying dt g rnd)).
Proof.
  intros Hinv; pose proof Hinv as [Ht Hp Ha Hs].
  destruct (status_cases (Game.state g)) as [Hst | Hst].
  - assert (Hnw : ~ won g) by (rewrite <- Hs, Hst; discriminate).
    pose proof (updatePlaying_status dt g rnd Hst Hnw) as Hs'; cbv zeta in Hs'.
    rewrite (updatePlaying_playing dt g rnd Hst) in *.
    pose proof (beforeScoring_fields dt g) as Hf; cbv zeta in Hf.
    destruct Hf as (F1 & F2 & F3 & F4 & _).
    pose proof (checkScoring_step (beforeScoring dt g) rnd) as Hc.
    cbv zeta in Hc; destruct Hc as (C1 & C2 & C3).
    rewrite F2 in C1; rewrite F3 in C2; rewrite F4 in C3.
    unfold won in Hnw.
    constructor; [congruence | rewrite C3; lia | rewrite C3; lia | exact Hs'].
  - rewrite (updatePlaying_over dt g rnd Hst); exact Hinv.
Qed.

Lemma reset_game_fields (g : Game.t) (rnd : Rng) :
  let g' := fst (Game.reset g rnd) in
  Game.state g' = PLAYING /\ Game.playerScore g' = 0%Z /\
  Game.aiScore g' = 0%Z /\ Game.targetScore g' = Game.targetScore g.
Proof.
  unfold Game.reset; cbv zeta.
  destruct (Ball.reset _ _ _ rnd) as [b rnd1]; simpl.
  repeat split; reflexivity.
Qed.

Lemma updateRestart_invariant (g : Game.t) (rnd : Rng) :
  gameInvariant g -> gameInvariant (fst (Game.updateRestart g rnd)).
Proof.
  intros Hinv; unfold Game.updateRestart.
  destruct (Game.state g); [exact Hinv |].
  destruct (Game.restartRequested g); [| exact Hinv].
  pose proof (reset_game_fields g rnd) as H; cbv zeta in H.
  destruct H as (H1 & H2 & H3 & H4).
  pose proof (gi_target g Hinv) as Ht.
  constructor; [congruence | rewrite H2, H4; lia | rewrite H3, H4; lia |].
  unfold won; rewrite H1, H2, H3, H4, Ht.
  split; [discriminate | lia].
Qed.

Lemma update_invariant_game (dt : R) (g : Game.t) (rnd : Rng) :
  gameInvariant g -> gameInvariant (fst (Game.update dt g rnd)).
Proof.
  intros Hinv; unfold Game.update.
  pose proof (updatePlaying_invariant dt g rnd Hinv) as H.
  destruct (Game.updatePlaying dt g rnd) as [g1 rnd1].
  apply updateRestart_invariant; exact H.
Qed.

Lemma step_invariant (e : HostEvent) (g : Game.t) (rnd : Rng) :
  gameInvariant g -> gameInvariant (fst (step e g rnd)).
Proof.
  intros Hinv; destruct e as [currentTime | i | w h]; simpl.
  - unfold Game.gameLoop; apply update_invariant_game.
    destruct Hinv; constructor; assumption.
  - destruct Hinv; constructor; assumption.
  - destruct Hinv; constructor; assumption.
Qed.

Lemma run_invariant (es : list HostEvent) (g : Game.t) (rnd : Rng) :
  gameInvariant g -> gameInvariant (fst (run es g rnd)).
Proof.
  revert g rnd; induction es as [| e es IH]; intros g rnd Hinv; simpl.
  - exact Hinv.
  - pose proof (step_invariant e g rnd Hinv) as H.
    destruct (step e g rnd) as [g1 rnd1]; apply IH; exact H.
Qed.

Lemma constructor_gameInvariant (width height : R) (rnd : Rng) :
  gameInvariant (fst (Game.constructor width height rnd)).
Proof.
  unfold Game.constructor; cbv zeta.
  destruct (Ball.constructor _ _ _ _ rnd) as [b rnd1]; simpl.
  constructor; simpl; try lia; try reflexivity.
  unfold won; simpl; split; [discriminate | lia].
Qed.

Lemma updateRestart_playing (g : Game.t) (rnd : Rng) :
  Game.state g = PLAYING -> Game.updateRestart g rnd = (g, rnd).
Proof. intros H; unfold Game.updateRestart; rewrite H; reflexivity. Qed.

(** A game over stays as it is until the restart input, which starts a new
    game. *)
Lemma update_over (dt : R) (g : Game.t) (rnd : Rng) :
  Game.state g = GAME_OVER ->
  Game.updatePlaying dt g rnd = (g, rnd) /\
  (Game.restartRequested g = false -> Game.update dt g rnd = (g, rnd)) /\
  (Game.restartRequested g = true ->
   Game.update dt g rnd = Game.reset g rnd /\
   Game.state (fst (Game.reset g rnd)) = PLAYING).
Proof.
  intros Hst.
  pose proof (updatePlaying_over dt g rnd Hst) as E.
  split; [exact E |].
  rewrite update_blocks, E; simpl; unfold Game.updateRestart; rewrite Hst.
  split; intros Hr; rewrite Hr; [reflexivity |].
  split; [reflexivity |].
  apply (reset_game_fields g rnd).
Qed.

(** The listeners of the input handler and the resizing of the window
    leave the status and the scores as they are. *)
Lemma host_event_status (g : Game.t) (rnd : Rng) :
  (forall i,
     Game.state (fst (step (Input i) g rnd)) = Game.state g /\
     Game.playerScore (fst (step (Input i) g rnd)) = Game.playerScore g /\
     Game.aiScore (fst (step (Input i) g rnd)) = Game.aiScore g) /\
  (forall w h,
     Game.state (fst (step (Resize w h) g rnd)) = Game.state g /\
     Game.playerScore (fst (step (Resize w h) g rnd)) = Game.playerScore g /\
     Game.aiScore (fst (step (Resize w h) g rnd)) = Game.aiScore g).
Proof. split; intros; simpl; repeat split; reflexivity. Qed.

(** The status along a run of the game, from its construction on. *)
Lemma run_status (width height : R) (rnd : Rng) (es : list HostEvent) :
  let start := Game.constructor width height rnd in
  let g := fst (run es (fst start) (snd start)) in
  Game.targetScore g = 10%Z /\
  (Game.state g = GAME_OVER <->
   Game.playerScore g = 10%Z \/ Game.aiScore g = 10%Z) /\
  (Game.state g = PLAYING <->
   (Game.playerScore g < 10)%Z /\ (Game.aiScore g < 10)%Z).
Proof.
  cbv zeta.
  pose proof (run_invariant es _ (snd (Game.constructor width height rnd))
                (constructor_gameInvariant width height rnd)) as [Ht Hp Ha Hs].
  set (g := fst (run es _ _)) in *.
  unfold won in Hs; rewrite Ht in *.
  split; [reflexivity |].
  split.
  - rewrite Hs; lia.
  - destruct (status_cases (Game.state g)) as [E | E]; rewrite E.
    + split; [intros _ | reflexivity].
      assert (Hn : ~ ((10 <= Game.playerScore g)%Z \/ (10 <= Game.aiScore g)%Z))
        by (rewrite <- Hs, E; discriminate).
      lia.
    + split; [discriminate |].
      assert (Hw : (10 <= Game.playerScore g)%Z \/ (10 <= Game.aiScore g)%Z)
        by (apply Hs; exact E).
      lia.
Qed.

(** With the ball right of both paddles, the collision pass is the wall
    check alone. *)
Lemma checkCollisions_ball_clear_right (g : Game.t) :
  Paddle.x (Game.playerPaddle g) + Paddle.width (Game.playerPaddle g)
  < Ball.x (Game.ball g) - Ball.radius (Game.ball g) ->
  Paddle.x (Game.aiPaddle g) + Paddle.width (Game.aiPaddle g)
  < Ball.x (Game.ball g) - Ball.radius (Game.ball g) ->
  Game.ball (Game.checkCollisions g) = fst (Ball.checkWallCollision (Game.ball g)).
Proof.
  intros Hp Ha; unfold Game.checkCollisions; cbv zeta.
  destruct (checkWallCollision_x (Game.ball g)) as [Hx Hr].
  destruct (Ball.checkWallCollision (Game.ball g)) as [b hit].
  simpl fst in *.
  assert (E1 : Ball.checkPaddleCollision b (Game.playerPaddle g) = None)
    by (apply checkPaddleCollision_right_of; lra).
  assert (E2 : Ball.checkPaddleCollision b (Game.aiPaddle g) = None)
    by (apply checkPaddleCollision_right_of; lra).
  destruct hit; simpl; rewrite E1; simpl; rewrite E2; reflexivity.
Qed.

(** A tick in which the ball leaves on the right, the paddles being inside
    the canvas: the playing block of [update] is a point for the player. *)
Lemma right_exit_tick (g : Game.t) (dt : R) (rnd : Rng) :
  Game.state g = PLAYING ->
  paddlesInside g -> 0 <= Ball.radius (Game.ball g) ->
  Ball.x (Game.ball g) + Ball.velocityX (Game.ball g) * dt
  - Ball.radius (Game.ball g) > Game.width g ->
  let g' := fst (Game.updatePlaying dt g rnd) in
  Game.playerScore g' = (Game.playerScore g + 1)%Z /\
  Game.aiScore g' = Game.aiScore g /\
  Game.state g' =
    (if (Game.playerScore g + 1 >=? Game.targetScore g)%Z
        || (Game.aiScore g >=? Game.targetScore g)%Z
     then GAME_OVER else PLAYING).
Proof.
  intros Hst (Hw & Hp0 & Hp1 & Ha0 & Ha1) Hr Hdt.
  pose proof (beforeScoring_fields dt g) as Hf; cbv zeta in Hf.
  destruct Hf as (F1 & F2 & F3 & F4 & F5 & F6 & _).
  assert (Hball : Game.ball (beforeScoring dt g)
                  = fst (Ball.checkWallCollision (Ball.update dt (Game.ball g)))).
  { unfold beforeScoring; cbv zeta.
    apply checkCollisions_ball_clear_right; simpl.
    - pose proof (paddle_update_x dt (Game.inputHandler g) (Game.playerPaddle g))
        as [E _]; rewrite E, paddle_update_width; lra.
    - match goal with |- Paddle.x (Paddle.updateAI ?b ?d ?p) + _ < _ =>
        pose proof (paddle_updateAI_x b d p) as [E _];
        rewrite E, paddle_updateAI_width end.
      lra. }
  destruct (checkWallCollision_x (Ball.update dt (Game.ball g))) as [Ex Er].
  simpl Ball.x in Ex at 2; simpl Ball.radius in Er at 2.
  assert (Hnl : ~ exitedLeft (beforeScoring dt g))
    by (unfold exitedLeft; rewrite Hball, Ex, Er; lra).
  assert (Hx : exitedRight (beforeScoring dt g))
    by (unfold exitedRight; rewrite Hball, Ex, Er, F5; lra).
  cbv zeta.
  rewrite (updatePlaying_playing dt g rnd Hst), (checkScoring_player _ rnd Hnl Hx).
  pose proof (playerPoint_fields (beforeScoring dt g) rnd) as Ha; cbv zeta in Ha.
  destruct (playerPoint (beforeScoring dt g) rnd) as [g1 rnd1]; simpl fst in *.
  destruct Ha as (_ & _ & A3 & A4 & _ & _ & _ & A8).
  rewrite F1, F2, F3, F4, Hst in A8.
  repeat split; congruence.
Qed.

(** The tick of a game being played, the restart input off: the counters
    go up by one at most, and the status after it. *)
Lemma playing_tick (g : Game.t) (dt : R) (rnd : Rng) :
  gameInvariant g -> Game.state g = PLAYING ->
  Game.restartRequested g = false ->
  let g' := fst (Game.update dt g rnd) in
  (Game.playerScore g <= Game.playerScore g' <= Game.playerScore g + 1)%Z /\
  (Game.aiScore g <= Game.aiScore g' <= Game.aiScore g + 1)%Z /\
  (Game.state g' = GAME_OVER <->
   Game.playerScore g' = 10%Z \/ Game.aiScore g' = 10%Z) /\
  (Game.state g' = PLAYING <->
   (Game.playerScore g' < 10)%Z /\ (Game.aiScore g' < 10)%Z).
Proof.
  intros Hinv Hst Hr; cbv zeta.
  rewrite (update_no_restart dt g rnd Hr).
  pose proof (updatePlaying_invariant dt g rnd Hinv) as [Ht1 Hp1 Ha1 Hs1].
  rewrite (updatePlaying_playing dt g rnd Hst) in *.
  pose proof (beforeScoring_fields dt g) as Hf; cbv zeta in Hf.
  destruct Hf as (_ & F2 & F3 & _).
  pose proof (checkScoring_step (beforeScoring dt g) rnd) as Hc.
  cbv zeta in Hc; destruct Hc as (C1 & C2 & _).
  rewrite F2 in C1; rewrite F3 in C2.
  set (g1 := fst (Game.checkScoring (beforeScoring dt g) rnd)) in *.
  unfold won in Hs1; rewrite Ht1 in *.
  split; [exact C1 |]. split; [exact C2 |].
  split; [rewrite Hs1; lia |].
  destruct (status_cases (Game.state g1)) as [E | E]; rewrite E.
  - split; [intros _ | reflexivity].
    assert (Hn : ~ ((10 <= Game.playerScore g1)%Z \/ (10 <= Game.aiScore g1)%Z))
      by (rewrite <- Hs1, E; discriminate).
    lia.
  - split; [discriminate |].
    assert (Hw : (10 <= Game.playerScore g1)%Z \/ (10 <= Game.aiScore g1)%Z)
      by (apply Hs1; exact E).
    lia.
Qed.

(** The tick in which the ball leaves the canvas, the paddles being inside
    it and the restart input off: a point for one side, and the game is
    over after it exactly if this was that side's tenth point. *)
Lemma exit_tick (g : Game.t) (dt : R) (rnd : Rng) :
  gameInvariant g -> Game.state g = PLAYING ->
  Game.restartRequested g = false ->
  paddlesInside g -> 0 <= Ball.radius (Game.ball g) ->
  let g' := fst (Game.update dt g rnd) in
  let x' := Ball.x (Game.ball g) + Ball.velocityX (Game.ball g) * dt in
  (x' + Ball.radius (Game.ball g) < 0 ->
   Game.aiScore g' = (Game.aiScore g + 1)%Z /\
   Game.playerScore g' = Game.playerScore g /\
   (Game.state g' = GAME_OVER <-> Game.aiScore g = 9%Z) /\
   (Game.state g' = PLAYING <-> (Game.aiScore g < 9)%Z)) /\
  (x' - Ball.radius (Game.ball g) > Game.width g ->
   Game.playerScore g' = (Game.playerScore g + 1)%Z /\
   Game.aiScore g' = Game.aiScore g /\
   (Game.state g' = GAME_OVER <-> Game.playerScore g = 9%Z) /\
   (Game.state g' = PLAYING <-> (Game.playerScore g < 9)%Z)).
Proof.
  intros Hinv Hst Hr Hin Hrad; cbv zeta.
  pose proof Hinv as [Ht Hp Ha Hs].
  assert (Hnw : ~ won g) by (rewrite <- Hs, Hst; discriminate).
  unfold won in Hnw; rewrite Ht in *.
  rewrite (update_no_restart dt g rnd Hr).
  split; intros Hx.
  - destruct Hin as (Hw & Hp0 & _ & Ha0 & _).
    destruct (left_exit_tick g dt rnd Hst Hw Hrad Hp0 Ha0 Hx)
      as (A1 & A2 & _ & _ & _ & A6).
    rewrite Ht in A6.
    split; [exact A1 |]. split; [exact A2 |].
    rewrite A6.
    destruct (Z.geb_spec (Game.playerScore g) 10);
      destruct (Z.geb_spec (Game.aiScore g + 1) 10); simpl;
      split; split; intros; try reflexivity; try discriminate; lia.
  - destruct (right_exit_tick g dt rnd Hst Hin Hrad Hx) as (A1 & A2 & A6).
    rewrite Ht in A6.
    split; [exact A1 |]. split; [exact A2 |].
    rewrite A6.
    destruct (Z.geb_spec (Game.playerScore g + 1) 10);
      destruct (Z.geb_spec (Game.aiScore g) 10); simpl;
      split; split; intros; try reflexivity; try discriminate; lia.
Qed.

(** The tenth point with a finger on the screen: the game of scenario 1
    with the AI at 9 points, the player steering by touch, and the tick in
    which the ball leaves on the left.  The tick plays the sounds of the
    point and of the end of the match, and ends with a new game being
    played at 0 to 0: the status after it is not 'GAME_OVER'. *)
Lemma tenth_point_tick_restarts :
  let g' := fst (Game.update 0.4 touchedGame zeros) in
  (Game.state touchedGame = PLAYING /\ Game.aiScore touchedGame = 9%Z /\
   Ball.x (Game.ball touchedGame) + Ball.velocityX (Game.ball touchedGame) * 0.4
   + Ball.radius (Game.ball touchedGame) < 0) /\
  In ScoreSound (Game.audioManager g') /\
  In GameOverSound (Game.audioManager g') /\
  Game.state g' = PLAYING /\ Game.state g' <> GAME_OVER /\
  Game.aiScore g' = 0%Z /\ Game.playerScore g' = 0%Z.
Proof.
  cbv zeta.
  split; [split; [reflexivity | split; [reflexivity | simpl; lra]] |].
  destruct (left_exit_before touchedGame 0.4) as (Hl & Hnr & _);
    try (simpl; lra).
  pose proof (beforeScoring_fields 0.4 touchedGame) as Hf; cbv zeta in Hf.
  destruct Hf as (F1 & F2 & F3 & F4 & _ & _ & F7).
  destruct (aiPoint_sounds (beforeScoring 0.4 touchedGame) zeros)
    as (over & S1 & S2 & _).
  pose proof (aiPoint_fields (beforeScoring 0.4 touchedGame) zeros) as Ha.
  cbv zeta in Ha; destruct Ha as (_ & _ & _ & _ & _ & _ & _ & A8).
  rewrite F2, F3, F4 in A8.
  pose proof (proj1 (point_inputHandler (beforeScoring 0.4 touchedGame) zeros))
    as Hi.
  rewrite update_blocks, (updatePlaying_playing 0.4 touchedGame zeros eq_refl),
    (checkScoring_ai _ zeros Hl Hnr).
  destruct (aiPoint (beforeScoring 0.4 touchedGame) zeros) as [g1 rnd1].
  simpl fst in *; simpl snd.
  change (Game.state g1 = GAME_OVER) in A8.
  assert (Ho : over = true).
  { destruct over; [reflexivity |].
    rewrite S2, F1 in A8; discriminate. }
  subst over.
  unfold Game.updateRestart, Game.restartRequested; rewrite A8, Hi, F7; simpl.
  rewrite S1.
  repeat split; try reflexivity; try discriminate;
    apply in_or_app; right; simpl; tauto.
Qed.

(** C7: the status has two values, and after every tick of a game it is
    'GAME_OVER' exactly when a score has reached the target, which is 10.
    A tick of a game being played whose restart input (the Space key, an
    active touch) is off adds at most one point to each side and leaves
    'GAME_OVER' exactly when a score has reached the target; a tick of a
    game that is over changes nothing unless the restart input is on, in
    which case it resets the game to 'PLAYING' at 0 to 0; input and resize
    events leave the status and the scores as they are.  Along every run of
    a game from its construction the target is 10 and the status is
    'GAME_OVER' exactly when a score is 10.  In a tick, the restart input
    off and the paddles inside the canvas, in which the ball leaves the
    canvas on the left the AI scores, and in which it leaves on the right
    the player scores, and the status after the tick is 'GAME_OVER'
    exactly if this was that side's tenth point: not on any of the first
    nine, and on the tenth. *)
Theorem match_status_machine :
  (forall g dt rnd,
     gameInvariant g -> gameInvariant (fst (Game.update dt g rnd))) /\
  (forall g dt rnd,
     gameInvariant g -> Game.state g = PLAYING ->
     Game.restartRequested g = false ->
     let g' := fst (Game.update dt g rnd) in
     (Game.playerScore g <= Game.playerScore g' <= Game.playerScore g + 1)%Z /\
     (Game.aiScore g <= Game.aiScore g' <= Game.aiScore g + 1)%Z /\
     (Game.state g' = GAME_OVER <->
      Game.playerScore g' = 10%Z \/ Game.aiScore g' = 10%Z) /\
     (Game.state g' = PLAYING <->
      (Game.playerScore g' < 10)%Z /\ (Game.aiScore g' < 10)%Z)) /\
  (forall g dt rnd,
     Game.state g = GAME_OVER ->
     (Game.restartRequested g = false -> Game.update dt g rnd = (g, rnd)) /\
     (Game.restartRequested g = true ->
      let g' := fst (Game.update dt g rnd) in
      Game.update dt g rnd = Game.reset g rnd /\
      Game.state g' = PLAYING /\
      Game.playerScore g' = 0%Z /\ Game.aiScore g' = 0%Z)) /\
  (forall g rnd,
     (forall i,
        Game.state (fst (step (Input i) g rnd)) = Game.state g /\
        Game.playerScore (fst (step (Input i) g rnd)) = Game.playerScore g /\
        Game.aiScore (fst (step (Input i) g rnd)) = Game.aiScore g) /\
     (forall w h,
        Game.state (fst (step (Resize w h) g rnd)) = Game.state g /\
        Game.playerScore (fst (step (Resize w h) g rnd)) = Game.playerScore g /\
        Game.aiScore (fst (step (Resize w h) g rnd)) = Game.aiScore g)) /\
  (forall width height rnd es,
     let start := Game.constructor width height rnd in
     let g := fst (run es (fst start) (snd start)) in
     Game.targetScore g = 10%Z /\
     (Game.state g = GAME_OVER <->
      Game.playerScore g = 10%Z \/ Game.aiScore g = 10%Z) /\
     (Game.state g = PLAYING <->
      (Game.playerScore g < 10)%Z /\ (Game.aiScore g < 10)%Z)) /\
  (forall g dt rnd,
     gameInvariant g -> Game.state g = PLAYING ->
     Game.restartRequested g = false ->
     paddlesInside g -> 0 <= Ball.radius (Game.ball g) ->
     let g' := fst (Game.update dt g rnd) in
     let x' := Ball.x (Game.ball g) + Ball.velocityX (Game.ball g) * dt in
     (x' + Ball.radius (Game.ball g) < 0 ->
      Game.aiScore g' = (Game.aiScore g + 1)%Z /\
      Game.playerScore g' = Game.playerScore g /\
      (Game.state g' = GAME_OVER <-> Game.aiScore g = 9%Z) /\
      (Game.state g' = PLAYING <-> (Game.aiScore g < 9)%Z)) /\
     (x' - Ball.radius (Game.ball g) > Game.width g ->
      Game.playerScore g' = (Game.playerScore g + 1)%Z /\
      Game.aiScore g' = Game.aiScore g /\
      (Game.state g' = GAME_OVER <-> Game.playerScore g = 9%Z) /\
      (Game.state g' = PLAYING <-> (Game.playerScore g < 9)%Z))).
Proof.
  split; [exact (fun g dt rnd => update_invariant_game dt g rnd) |].
  split; [exact (fun g dt rnd => playing_tick g dt rnd) |].
  split.
  { intros g dt rnd Hst.
    destruct (update_over dt g rnd Hst) as (_ & H1 & H2).
    split; [exact H1 |].
    intros Hr; cbv zeta; destruct (H2 Hr) as [E _].
    split; [exact E |].
    rewrite E; pose proof (reset_game_fields g rnd) as F; cbv zeta in F; tauto. }
  split; [exact host_event_status |].
  split; [exact run_status |].
  exact (fun g dt rnd => exit_tick g dt rnd).
Qed.

(** The tenth point: the game of scenario 1 with the AI at 9, no key down
    and no touch, and the tick in which the ball leaves on the left. *)
Lemma match_status_machine_witness :
  let g := Game.set_aiScore scenarioGame 9%Z in
  let g' := fst (Game.update 0.4 g zeros) in
  (gameInvariant g /\ Game.state g = PLAYING /\
   Game.restartRequested g = false /\ paddlesInside g /\
   0 <= Ball.radius (Game.ball g)) /\
  Game.aiScore g' = 10%Z /\ Game.state g' = GAME_OVER.
Proof.
  cbv zeta.
  assert (Hinv : gameInvariant (Game.set_aiScore scenarioGame 9%Z)).
  { constructor; simpl; try lia; try reflexivity.
    unfold won; simpl; split; [discriminate | lia]. }
  assert (Hin : paddlesInside (Game.set_aiScore scenarioGame 9%Z))
    by (unfold paddlesInside; simpl; lra).
  assert (Hr : 0 <= Ball.radius (Game.ball (Game.set_aiScore scenarioGame 9%Z)))
    by (simpl; lra).
  split;
    [split; [exact Hinv
            | split; [reflexivity
                     | split; [reflexivity | split; [exact Hin | exact Hr]]]] |].
  destruct (proj1 (proj2 (proj2 (proj2 (proj2 (proj2 match_status_machine))))
                     (Game.set_aiScore scenarioGame 9%Z) 0.4 zeros
                     Hinv eq_refl eq_refl Hin Hr))
    as (A1 & _ & A3 & _); [simpl; lra |].
  split; [exact A1 | apply A3; reflexivity].
Defined.

(** ** Game: the balls of a run *)

Lemma reset_reachable (b : Ball.t) (x y : R) (rnd : Rng) :
  reachable b -> rng_ok rnd ->
  reachable (fst (Ball.reset x y b rnd)) /\ rng_ok (snd (Ball.reset x y b rnd)).
Proof.
  intros Hb Hr; split; [apply reach_reset; assumption |].
  intros n; simpl; apply Hr.
Qed.

Lemma constructor_reachable (x y cw ch : R) (rnd : Rng) :
  rng_ok rnd ->
  reachable (fst (Ball.constructor x y cw ch rnd)) /\
  rng_ok (snd (Ball.constructor x y cw ch rnd)).
Proof.
  intros Hr; split; [apply reach_constructor; assumption |].
  intros n; simpl; apply Hr.
Qed.

Lemma checkCollisions_reachable (g : Game.t) :
  reachable (Game.ball g) ->
  Paddle.height (Game.playerPaddle g) <> 0 ->
  Paddle.height (Game.aiPaddle g) <> 0 ->
  reachable (Game.ball (Game.checkCollisions g)).
Proof.
  intros Hb Hp Ha; unfold Game.checkCollisions; cbv zeta.
  pose proof (reach_checkWallCollision _ Hb) as Hw.
  destruct (Ball.checkWallCollision (Game.ball g)) as [b hit]; simpl fst in Hw.
  assert (Hstep : forall b0 p0, reachable b0 -> Paddle.height p0 <> 0 ->
            reachable (match Ball.checkPaddleCollision b0 p0 with
                       | Some (Num h) => Ball.applyPaddleHit h b0
                       | _ => b0
                       end)).
  { intros b0 p0 Hb0 Hp0.
    destruct (Ball.checkPaddleCollision b0 p0) as [[h | | |] |] eqn:E;
      try exact Hb0.
    exact (reach_applyPaddleHit b0 p0 h Hb0 Hp0 E). }
  pose proof (Hstep b (Game.playerPaddle g) Hw Hp) as H1.
  pose proof (Hstep _ (Game.aiPaddle g) H1 Ha) as H2.
  destruct hit; simpl;
    destruct (Ball.checkPaddleCollision b (Game.playerPaddle g)) as [[] |];
    simpl; simpl in H2;
    destruct (Ball.checkPaddleCollision _ (Game.aiPaddle g)) as [[] |];
    simpl; exact H2.
Qed.

Lemma beforeScoring_sound (dt : R) (g : Game.t) (rnd : Rng) :
  sound g rnd -> sound (beforeScoring dt g) rnd.
Proof.
  intros (Hb & Hp & Ha & Hr).
  assert (E1 : forall p, Paddle.height p <> 0 ->
            Paddle.height (Paddle.update dt (Game.inputHandler g) p) <> 0).
  { intros p Hp0 E; apply Hp0; rewrite <- E; symmetry.
    apply (proj2 (paddle_update_x _ _ _)). }
  assert (E2 : forall b p, Paddle.height p <> 0 ->
            Paddle.height (Paddle.updateAI b dt p) <> 0).
  { intros b p Hp0 E; apply Hp0; rewrite <- E; symmetry.
    apply (proj2 (paddle_updateAI_x _ _ _)). }
  unfold sound, beforeScoring; cbv zeta.
  match goal with |- context [Game.checkCollisions ?a] =>
    pose proof (checkCollisions_fields a) as Hf; cbv zeta in Hf;
    destruct Hf as (_ & _ & _ & _ & _ & _ & _ & F8 & F9);
    rewrite F8, F9
  end.
  split; [| split; [apply E1; exact Hp | split; [apply E2; exact Ha | exact Hr]]].
  apply checkCollisions_reachable.
  - apply reach_update; exact Hb.
  - apply E1; exact Hp.
  - apply E2; exact Ha.
Qed.

Lemma aiPoint_sound (g : Game.t) (rnd : Rng) :
  sound g rnd -> sound (fst (aiPoint g rnd)) (snd (aiPoint g rnd)).
Proof.
  intros (B & P & A & Rg); unfold sound, aiPoint; cbv zeta.
  match goal with |- context [Ball.reset ?x ?y ?b rnd] =>
    assert (Hres : reachable (fst (Ball.reset x y b rnd))
                   /\ rng_ok (snd (Ball.reset x y b rnd)))
      by (apply reset_reachable; [exact B | exact Rg]);
    destruct (Ball.reset x y b rnd) as [b1 rnd1]
  end.
  simpl in Hres; unfold Game.checkWinCondition.
  destruct (_ || _); simpl; tauto.
Qed.

Lemma playerPoint_sound (g : Game.t) (rnd : Rng) :
  sound g rnd -> sound (fst (playerPoint g rnd)) (snd (playerPoint g rnd)).
Proof.
  intros (B & P & A & Rg); unfold sound, playerPoint; cbv zeta.
  match goal with |- context [Ball.reset ?x ?y ?b rnd] =>
    assert (Hres : reachable (fst (Ball.reset x y b rnd))
                   /\ rng_ok (snd (Ball.reset x y b rnd)))
      by (apply reset_reachable; [exact B | exact Rg]);
    destruct (Ball.reset x y b rnd) as [b1 rnd1]
  end.
  simpl in Hres; unfold Game.checkWinCondition.
  destruct (_ || _); simpl; tauto.
Qed.

Lemma checkScoring_sound (g : Game.t) (rnd : Rng) :
  sound g rnd ->
  sound (fst (Game.checkScoring g rnd)) (snd (Game.checkScoring g rnd)).
Proof.
  intros H; rewrite checkScoring_branches; cbv zeta.
  assert (H1 : sound (fst (if ltb (Ball.x (Game.ball g) + Ball.radius (Game.ball g)) 0
                           then aiPoint g rnd else (g, rnd)))
                     (snd (if ltb (Ball.x (Game.ball g) + Ball.radius (Game.ball g)) 0
                           then aiPoint g rnd else (g, rnd))))
    by (destruct (ltb _ 0); [apply aiPoint_sound | simpl]; exact H).
  destruct (if ltb _ 0 then aiPoint g rnd else (g, rnd)) as [g1 rnd1].
  simpl in H1.
  destruct (gtb _ _); [apply playerPoint_sound | simpl]; exact H1.
Qed.

Lemma reset_sound (g : Game.t) (rnd : Rng) :
  sound g rnd -> sound (fst (Game.reset g rnd)) (snd (Game.reset g rnd)).
Proof.
  intros (B & P & A & Rg); unfold sound, Game.reset; cbv zeta.
  match goal with |- context [Ball.reset ?x ?y ?b rnd] =>
    assert (Hres : reachable (fst (Ball.reset x y b rnd))
                   /\ rng_ok (snd (Ball.reset x y b rnd)))
      by (apply reset_reachable; [exact B | exact Rg]);
    destruct (Ball.reset x y b rnd) as [b1 rnd1]
  end.
  simpl in Hres; simpl; tauto.
Qed.

Lemma update_sound (dt : R) (g : Game.t) (rnd : Rng) :
  sound g rnd -> sound (fst (Game.update dt g rnd)) (snd (Game.update dt g rnd)).
Proof.
  intros H; rewrite update_blocks.
  assert (H1 : sound (fst (Game.updatePlaying dt g rnd))
                     (snd (Game.updatePlaying dt g rnd))).
  { unfold Game.updatePlaying.
    destruct (Game.state g); [| exact H].
    fold (beforeScoring dt g).
    apply checkScoring_sound, beforeScoring_sound; exact H. }
  destruct (Game.updatePlaying dt g rnd) as [g1 rnd1]; simpl in H1 |- *.
  unfold Game.updateRestart.
  destruct (Game.state g1); [exact H1 |].
  destruct (Game.restartRequested g1); [apply reset_sound |]; exact H1.
Qed.

Lemma step_sound (e : HostEvent) (g : Game.t) (rnd : Rng) :
  sound g rnd -> sound (fst (step e g rnd)) (snd (step e g rnd)).
Proof.
  intros H; destruct e as [currentTime | i | w h]; simpl.
  - unfold Game.gameLoop; apply update_sound; exact H.
  - exact H.
  - destruct H as (B & P & A & Rg).
    split; [apply reach_resize; exact B | tauto].
Qed.

Lemma constructor_sound (width height : R) (rnd : Rng) :
  rng_ok rnd ->
  sound (fst (Game.constructor width height rnd))
        (snd (Game.constructor width height rnd)).
Proof.
  intros Hr; unfold sound, Game.constructor; cbv zeta.
  pose proof (constructor_reachable (width / 2) (height / 2) width height rnd Hr)
    as Hb.
  destruct (Ball.constructor _ _ _ _ rnd) as [b rnd1]; simpl in *.
  split; [tauto | split; [lra | split; [lra | tauto]]].
Qed.

(** Every ball a game holds, from its construction and along any run with
    draws of [0, 1), is one of [reachable]. *)
Theorem run_ball_reachable (width height : R) (rnd : Rng) (es : list HostEvent) :
  rng_ok rnd ->
  let start := Game.constructor width height rnd in
  reachable (Game.ball (fst (run es (fst start) (snd start)))).
Proof.
  intros Hr; cbv zeta.
  pose proof (constructor_sound width height rnd Hr) as Hstart.
  generalize dependent (snd (Game.constructor width height rnd)).
  generalize dependent (fst (Game.constructor width height rnd)).
  induction es as [| e es IH]; intros g rnd0 H; simpl.
  - apply H.
  - pose proof (step_sound e g rnd0 H) as Hs.
    destruct (step e g rnd0) as [g1 rnd1]; apply IH; exact Hs.
Qed.

(** ** Examples *)

(** A ball that has crossed the top wall is put back at y = radius and
    sent down. *)
Example wall_bounce_top :
  Ball.checkWallCollision
    (Ball.mk 400 5 800 600 10 300 300 600 1.05 (PI / 3) 260 (-150))
  = (Ball.mk 400 10 800 600 10 300 300 600 1.05 (PI / 3) 260 150, true).
Proof.
  unfold Ball.checkWallCollision; simpl.
  replace (leb (5 - 10) 0) with true by (symmetry; apply leb_spec; lra).
  simpl.
  replace (geb (10 + 10) 600) with false by (cmp; lra).
  rewrite Rabs_left by lra.
  replace (- -150) with 150 by lra; reflexivity.
Qed.

(** Scenario 5 of the specification: the ball moves away, the AI paddle is
    above the centre and drifts down at speed * aiReturnSpeed = 180 pixels
    per second. *)
Example ai_paddle_drifts_to_center :
  let ball := Ball.mk 400 300 800 600 10 300 300 600 1.05 (PI / 3) (-300) 0 in
  let p := Paddle.updateAI ball 0.1 (Paddle.constructor 772 0 8 80 400 true) in
  Paddle.y p = 18 /\ Paddle.velocity p = 1%Z.
Proof.
  cbv zeta; run_paddle; simpl BallState.velocityX.
  replace (gtb (-300) 0) with false by (cmp; lra).
  replace (ltb (0 + 80 / 2) (400 / 2 - 10)) with true
    by (symmetry; apply ltb_spec; lra).
  cbv iota; split; [cmp; lra | reflexivity].
Qed.

(** The tenth point under an active touch: the playing block of the tick
    ends the game, and the restart check of the same tick starts a new one
    at 0 to 0. *)
Example tenth_point_under_touch :
  let g1 := fst (Game.updatePlaying 0.4 touchedGame zeros) in
  let g2 := fst (Game.update 0.4 touchedGame zeros) in
  Game.state g1 = GAME_OVER /\ Game.aiScore g1 = 10%Z /\
  Game.state g2 = PLAYING /\ Game.aiScore g2 = 0%Z.
Proof.
  cbv zeta.
  destruct (left_exit_tick touchedGame 0.4 zeros)
    as (A1 & _ & _ & _ & _ & A6); try reflexivity; try (simpl; lra).
  simpl in A6; simpl Game.aiScore in A1 at 2.
  pose proof (updatePlaying_inputHandler 0.4 touchedGame zeros) as Hi.
  rewrite update_blocks.
  destruct (Game.updatePlaying 0.4 touchedGame zeros) as [g1 rnd1].
  simpl fst in *; simpl snd.
  split; [exact A6 | split; [exact A1 |]].
  unfold Game.updateRestart, Game.restartRequested; rewrite A6, Hi; simpl.
  pose proof (reset_game_fields g1 rnd1) as H; cbv zeta in H.
  split; apply H.
Qed.

(** * Further properties *)

(** ** InputHandler: keys and touches *)

Lemma processTouchPosition_direction
    (rect : DOMRect.t) (clientX clientY : R) (i : InputHandler.t) :
  let i' := InputHandler.processTouchPosition rect clientX clientY i in
  InputHandler.keys i' = InputHandler.keys i /\
  InputHandler.isTouching i' = InputHandler.isTouching i /\
  (inLeftHalf rect clientX -> inUpperHalf rect clientY ->
   InputHandler.touchDirection i' = (-1)%Z) /\
  (inLeftHalf rect clientX -> ~ inUpperHalf rect clientY ->
   InputHandler.touchDirection i' = 1%Z) /\
  (~ inLeftHalf rect clientX -> InputHandler.touchDirection i' = 0%Z).
Proof.
  unfold inLeftHalf, inUpperHalf, InputHandler.processTouchPosition; cbv zeta.
  destruct (ltb _ _) eqn:E1;
    [apply ltb_spec in E1
    | assert (N1 : ~ clientX - DOMRect.left rect < DOMRect.width rect / 2)
        by (rewrite <- ltb_spec; congruence)];
    [destruct (ltb _ _) eqn:E2;
       [apply ltb_spec in E2
       | assert (N2 : ~ clientY - DOMRect.top rect < DOMRect.height rect / 2)
           by (rewrite <- ltb_spec; congruence)] |];
    simpl; repeat split; intros; try reflexivity; tauto.
Qed.

Lemma processTouchPosition_isDirection
    (rect : DOMRect.t) (clientX clientY : R) (i : InputHandler.t) :
  isDirection (InputHandler.touchDirection
                 (InputHandler.processTouchPosition rect clientX clientY i)).
Proof.
  unfold InputHandler.processTouchPosition, isDirection; cbv zeta.
  destruct (ltb _ _); [destruct (ltb _ _) |]; simpl; tauto.
Qed.

Lemma inputReachable_touchDirection (i : InputHandler.t) :
  inputReachable i -> isDirection (InputHandler.touchDirection i).
Proof.
  induction 1 as [| i code Hi IH | i code Hi IH | i rect touches i' Hi IH Hs
                 | i rect touches Hi IH | i Hi IH | i rect cx cy Hi IH | i Hi IH];
    try (unfold isDirection; simpl; tauto).
  - unfold InputHandler.handleKeyDown, InputHandler.set_key.
    destruct (String.eqb code "__proto__"); exact IH.
  - unfold InputHandler.handleKeyUp, InputHandler.set_key.
    destruct (String.eqb code "__proto__"); exact IH.
  - destruct touches as [| [cx cy] touches]; [discriminate |].
    simpl in Hs; injection Hs as <-; simpl.
    apply processTouchPosition_isDirection.
  - destruct touches as [| [cx cy] touches]; [exact IH |].
    apply processTouchPosition_isDirection.
  - apply processTouchPosition_isDirection.
Qed.

(** X1: whatever the listeners have done to the input handler since its
    construction, [getInputDirection] returns -1, 0 or 1; an up key wins
    over a down key and over the touch, a down key wins over the touch, and
    with none of the four keys down the direction is the one of the
    touch. *)
Theorem input_direction_range (i : InputHandler.t) :
  inputReachable i ->
  isDirection (InputHandler.getInputDirection i) /\
  (InputHandler.keys i "KeyW" = true \/ InputHandler.keys i "ArrowUp" = true ->
   InputHandler.getInputDirection i = (-1)%Z) /\
  (InputHandler.keys i "KeyW" = false -> InputHandler.keys i "ArrowUp" = false ->
   InputHandler.keys i "KeyS" = true \/ InputHandler.keys i "ArrowDown" = true ->
   InputHandler.getInputDirection i = 1%Z) /\
  (noMoveKey i ->
   InputHandler.getInputDirection i = InputHandler.touchDirection i).
Proof.
  intros Hr; pose proof (inputReachable_touchDirection i Hr) as Ht.
  unfold InputHandler.getInputDirection, noMoveKey, isDirection in *.
  destruct (InputHandler.keys i "KeyW"), (InputHandler.keys i "ArrowUp"),
    (InputHandler.keys i "KeyS"), (InputHandler.keys i "ArrowDown");
    simpl; repeat split; intros; try tauto; try reflexivity;
    try (destruct H; discriminate);
    try (destruct H1; discriminate);
    try (destruct H as (? & ? & ? & ?); discriminate).
Qed.

Lemma input_direction_range_witness :
  let i := InputHandler.handleKeyDown "KeyS"
             (InputHandler.handleKeyDown "KeyW" InputHandler.constructor) in
  inputReachable i /\ InputHandler.getInputDirection i = (-1)%Z.
Proof.
  assert (H : inputReachable
                (InputHandler.handleKeyDown "KeyS"
                   (InputHandler.handleKeyDown "KeyW" InputHandler.constructor)))
    by (apply input_keyDown, input_keyDown, input_constructor).
  split; [exact H |].
  apply (proj1 (proj2 (input_direction_range _ H))).
  left; reflexivity.
Defined.

(** X3: with none of the four movement keys down, a mouse press or the
    first touch of a touch start or touch move gives the direction of its
    zone: up in the upper left quarter of the canvas, down in the lower
    left quarter, none in the right half; a press or a touch start also
    makes the touch active.  A release (touch end or mouse up) gives
    direction 0 and an inactive touch.  A touch move without a touch
    changes nothing, a touch start without a touch throws. *)
Theorem touch_zones
    (rect : DOMRect.t) (clientX clientY : R) (rest : list (R * R))
    (i : InputHandler.t) :
  noMoveKey i ->
  let pressed := InputHandler.handleMouseDown rect clientX clientY i in
  let moved :=
    InputHandler.handleTouchMove rect ((clientX, clientY) :: rest) i in
  (InputHandler.handleTouchStart rect ((clientX, clientY) :: rest) i
   = Some pressed) /\
  InputHandler.isTouchActive pressed = true /\
  InputHandler.isTouchActive moved = InputHandler.isTouchActive i /\
  (inLeftHalf rect clientX -> inUpperHalf rect clientY ->
   InputHandler.getInputDirection pressed = (-1)%Z /\
   InputHandler.getInputDirection moved = (-1)%Z) /\
  (inLeftHalf rect clientX -> ~ inUpperHalf rect clientY ->
   InputHandler.getInputDirection pressed = 1%Z /\
   InputHandler.getInputDirection moved = 1%Z) /\
  (~ inLeftHalf rect clientX ->
   InputHandler.getInputDirection pressed = 0%Z /\
   InputHandler.getInputDirection moved = 0%Z) /\
  (InputHandler.getInputDirection (InputHandler.handleTouchEnd pressed) = 0%Z /\
   InputHandler.isTouchActive (InputHandler.handleTouchEnd pressed) = false /\
   InputHandler.getInputDirection (InputHandler.handleMouseUp pressed) = 0%Z /\
   InputHandler.isTouchActive (InputHandler.handleMouseUp pressed) = false) /\
  InputHandler.handleTouchMove rect [] i = i /\
  InputHandler.handleTouchStart rect [] i = None.
Proof.
  intros (K1 & K2 & K3 & K4); cbv zeta.
  pose proof (processTouchPosition_direction rect clientX clientY i) as H.
  cbv zeta in H; destruct H as (Hk & Ht & Hup & Hdown & Hnone).
  assert (Hdir : forall j,
            InputHandler.keys j = InputHandler.keys i ->
            InputHandler.getInputDirection j = InputHandler.touchDirection j).
  { intros j Hj; unfold InputHandler.getInputDirection.
    rewrite Hj, K1, K2, K3, K4; reflexivity. }
  unfold InputHandler.handleMouseDown, InputHandler.handleTouchMove,
    InputHandler.handleTouchStart, InputHandler.handleTouchEnd,
    InputHandler.handleMouseUp, InputHandler.isTouchActive; cbv zeta.
  split; [reflexivity |].
  split; [reflexivity |].
  split; [exact Ht |].
  split; [intros A B; rewrite !Hdir by exact Hk; simpl; rewrite (Hup A B); tauto |].
  split; [intros A B; rewrite !Hdir by exact Hk; simpl; rewrite (Hdown A B); tauto |].
  split; [intros A; rewrite !Hdir by exact Hk; simpl; rewrite (Hnone A); tauto |].
  split; [| split; reflexivity].
  rewrite !Hdir by exact Hk; simpl; tauto.
Qed.

Lemma touch_zones_witness :
  let rect := DOMRect.mk 100 50 900 600 in
  noMoveKey InputHandler.constructor /\
  InputHandler.getInputDirection
    (InputHandler.handleMouseDown rect 200 100 InputHandler.constructor)
  = (-1)%Z.
Proof.
  assert (H : noMoveKey InputHandler.constructor)
    by (repeat split; reflexivity).
  split; [exact H |].
  apply (proj1 (proj2 (proj2 (proj2
           (touch_zones (DOMRect.mk 100 50 900 600) 200 100 []
                        InputHandler.constructor H))))).
  - unfold inLeftHalf; simpl; lra.
  - unfold inUpperHalf; simpl; lra.
Defined.

(** ** Game: the layout *)

Lemma paddle_update_frame (dt : R) (i : InputHandler.t) (p : Paddle.t) :
  paddleFrame (Paddle.update dt i p) = paddleFrame p.
Proof. unfold Paddle.update; destruct (Paddle.isAI p); reflexivity. Qed.

Lemma paddle_updateAI_frame (ball : Ball.t) (dt : R) (p : Paddle.t) :
  paddleFrame (Paddle.updateAI ball dt p) = paddleFrame p.
Proof.
  unfold Paddle.updateAI; destruct (Paddle.isAI p); simpl; [| reflexivity].
  repeat match goal with |- context [if ?c then _ else _] => destruct c end;
    reflexivity.
Qed.

Lemma checkWallCollision_frame (b : Ball.t) :
  ballFrame (fst (Ball.checkWallCollision b)) = ballFrame b.
Proof.
  unfold Ball.checkWallCollision.
  destruct (leb _ 0); simpl; destruct (geb _ _); reflexivity.
Qed.

Lemma ball_reset_frame (x y : R) (b : Ball.t) (rnd : Rng) :
  ballFrame (fst (Ball.reset x y b rnd)) = ballFrame b.
Proof. reflexivity. Qed.

Lemma checkCollisions_frame (g : Game.t) :
  ballFrame (Game.ball (Game.checkCollisions g)) = ballFrame (Game.ball g).
Proof.
  unfold Game.checkCollisions; cbv zeta.
  pose proof (checkWallCollision_frame (Game.ball g)) as Hw.
  destruct (Ball.checkWallCollision (Game.ball g)) as [b hit]; simpl fst in Hw.
  rewrite <- Hw.
  destruct hit; simpl;
    destruct (Ball.checkPaddleCollision b (Game.playerPaddle g)) as [[] |]; simpl;
    destruct (Ball.checkPaddleCollision _ (Game.aiPaddle g)) as [[] |];
    reflexivity.
Qed.

(** The layout is a matter of a few fields. *)
Lemma layout_fields (g g' : Game.t) :
  layout g ->
  Game.PADDLE_OFFSET g' = Game.PADDLE_OFFSET g ->
  Game.PADDLE_WIDTH g' = Game.PADDLE_WIDTH g ->
  Game.PADDLE_HEIGHT g' = Game.PADDLE_HEIGHT g ->
  Game.targetScore g' = Game.targetScore g ->
  Game.width g' = Game.width g -> Game.height g' = Game.height g ->
  paddleFrame (Game.playerPaddle g') = paddleFrame (Game.playerPaddle g) ->
  paddleFrame (Game.aiPaddle g') = paddleFrame (Game.aiPaddle g) ->
  ballFrame (Game.ball g') = ballFrame (Game.ball g) ->
  layout g'.
Proof.
  intros [L1 L2 L3 L4 L5 L6 L7] E1 E2 E3 E4 E5 E6 E7 E8 E9.
  constructor; congruence.
Qed.

Lemma beforeScoring_layout (dt : R) (g : Game.t) :
  layout g -> layout (beforeScoring dt g).
Proof.
  intros L; unfold beforeScoring; cbv zeta.
  match goal with |- layout (Game.checkCollisions ?a) =>
    pose proof (checkCollisions_fields a) as Hf; cbv zeta in Hf;
    pose proof (checkCollisions_frame a) as Hb;
    assert (Hc : Game.PADDLE_OFFSET (Game.checkCollisions a) = Game.PADDLE_OFFSET g
                 /\ Game.PADDLE_WIDTH (Game.checkCollisions a) = Game.PADDLE_WIDTH g
                 /\ Game.PADDLE_HEIGHT (Game.checkCollisions a) = Game.PADDLE_HEIGHT g)
  end.
  { unfold Game.checkCollisions; cbv zeta.
    destruct (Ball.checkWallCollision _) as [b hit].
    destruct hit; simpl;
      destruct (Ball.checkPaddleCollision _ _) as [[] |]; simpl;
      destruct (Ball.checkPaddleCollision _ _) as [[] |]; simpl;
      repeat split; reflexivity. }
  destruct Hf as (_ & _ & _ & F4 & F5 & F6 & _ & F8 & F9).
  destruct Hc as (C1 & C2 & C3).
  apply (layout_fields g); try assumption.
  - rewrite F8; apply paddle_update_frame.
  - rewrite F9; apply paddle_updateAI_frame.
Qed.

Lemma point_layout (g : Game.t) (rnd : Rng) :
  layout g -> layout (fst (aiPoint g rnd)) /\ layout (fst (playerPoint g rnd)).
Proof.
  intros L; unfold aiPoint, playerPoint; cbv zeta.
  split;
    match goal with |- context [Ball.reset ?x ?y ?b rnd] =>
      pose proof (ball_reset_frame x y b rnd) as Hb;
      destruct (Ball.reset x y b rnd) as [b1 rnd1]
    end;
    simpl in Hb; unfold Game.checkWinCondition; destruct (_ || _); simpl;
    apply (layout_fields g); try assumption; reflexivity.
Qed.

Lemma checkScoring_layout (g : Game.t) (rnd : Rng) :
  layout g -> layout (fst (Game.checkScoring g rnd)).
Proof.
  intros L; rewrite checkScoring_branches; cbv zeta.
  assert (H1 : layout (fst (if ltb (Ball.x (Game.ball g)
                                    + Ball.radius (Game.ball g)) 0
                            then aiPoint g rnd else (g, rnd)))).
  { destruct (ltb _ 0); [apply point_layout | simpl]; exact L. }
  destruct (if ltb _ 0 then aiPoint g rnd else (g, rnd)) as [g1 rnd1].
  simpl in H1.
  destruct (gtb _ _); [apply point_layout | simpl]; exact H1.
Qed.

Lemma updatePlaying_layout (dt : R) (g : Game.t) (rnd : Rng) :
  layout g -> layout (fst (Game.updatePlaying dt g rnd)).
Proof.
  intros L; unfold Game.updatePlaying.
  destruct (Game.state g); [| exact L].
  fold (beforeScoring dt g).
  apply checkScoring_layout, beforeScoring_layout; exact L.
Qed.

(** After [reset] the paddles are the ones of the constructor, for the size
    the game has now. *)
Lemma reset_paddles (g : Game.t) (rnd : Rng) :
  layout g ->
  Game.playerPaddle (fst (Game.reset g rnd))
  = Paddle.constructor 20 (Game.height g / 2 - 80 / 2) 8 80 (Game.height g) false /\
  Game.aiPaddle (fst (Game.reset g rnd))
  = Paddle.constructor (Game.width g - 20 - 8) (Game.height g / 2 - 80 / 2)
                       8 80 (Game.height g) true.
Proof.
  intros [L1 L2 L3 L4 L5 L6 L7]; unfold Game.reset; cbv zeta.
  match goal with |- context [Ball.reset ?x ?y ?b rnd] =>
    destruct (Ball.reset x y b rnd) as [b1 rnd1] end.
  simpl; rewrite L1, L2, L3.
  unfold paddleFrame in L5, L6.
  injection L5 as P1 P2 P3 P4 P5 P6 P7 P8.
  injection L6 as A1 A2 A3 A4 A5 A6 A7 A8.
  unfold Paddle.reset, Paddle.set_velocity, Paddle.set_y, Paddle.set_x,
    Paddle.constructor; simpl.
  rewrite P2, P3, P4, P5, P6, P7, P8, A2, A3, A4, A5, A6, A7, A8.
  split; reflexivity.
Qed.

Lemma reset_layout (g : Game.t) (rnd : Rng) :
  layout g -> layout (fst (Game.reset g rnd)).
Proof.
  intros L; destruct (reset_paddles g rnd L) as [Hp Ha].
  pose proof L as [L1 L2 L3 L4 L5 L6 L7].
  assert (Hrest : let g' := fst (Game.reset g rnd) in
            Game.PADDLE_OFFSET g' = Game.PADDLE_OFFSET g /\
            Game.PADDLE_WIDTH g' = Game.PADDLE_WIDTH g /\
            Game.PADDLE_HEIGHT g' = Game.PADDLE_HEIGHT g /\
            Game.targetScore g' = Game.targetScore g /\
            Game.width g' = Game.width g /\ Game.height g' = Game.height g /\
            ballFrame (Game.ball g') = ballFrame (Game.ball g)).
  { unfold Game.reset; cbv zeta.
    match goal with |- context [Ball.reset ?x ?y ?b rnd] =>
      pose proof (ball_reset_frame x y b rnd) as Hb;
      destruct (Ball.reset x y b rnd) as [b1 rnd1] end.
    simpl in *; repeat split; try reflexivity; exact Hb. }
  cbv zeta in Hrest; destruct Hrest as (R1 & R2 & R3 & R4 & R5 & R6 & R7).
  constructor; try congruence.
  - rewrite Hp, R6; reflexivity.
  - rewrite Ha, R5, R6; reflexivity.
Qed.

Lemma update_layout (dt : R) (g : Game.t) (rnd : Rng) :
  layout g -> layout (fst (Game.update dt g rnd)).
Proof.
  intros L; rewrite update_blocks.
  pose proof (updatePlaying_layout dt g rnd L) as H1.
  destruct (Game.updatePlaying dt g rnd) as [g1 rnd1]; simpl in H1 |- *.
  unfold Game.updateRestart.
  destruct (Game.state g1); [exact H1 |].
  destruct (Game.restartRequested g1); [apply reset_layout |]; exact H1.
Qed.

Lemma handleResize_layout (w h : R) (g : Game.t) :
  layout g -> layout (Game.handleResize w h g).
Proof.
  intros [L1 L2 L3 L4 L5 L6 L7].
  unfold paddleFrame in L5, L6; unfold ballFrame in L7.
  injection L5 as P1 P2 P3 P4 P5 P6 P7 P8.
  injection L6 as A1 A2 A3 A4 A5 A6 A7 A8.
  injection L7 as B1 B2 B3 B4 B5 B6 B7.
  constructor; simpl; try assumption.
  - unfold paddleFrame; simpl.
    rewrite L1, P2, P3, P5, P6, P7, P8; reflexivity.
  - unfold paddleFrame; simpl.
    rewrite L1, L2, A2, A3, A5, A6, A7, A8; reflexivity.
  - unfold ballFrame; simpl.
    rewrite B3, B4, B5, B6, B7; reflexivity.
Qed.

Lemma constructor_layout (width height : R) (rnd : Rng) :
  layout (fst (Game.constructor width height rnd)).
Proof.
  unfold Game.constructor; cbv zeta.
  assert (Hb : ballFrame (fst (Ball.constructor (width / 2) (height / 2)
                                                width height rnd))
               = Ball.mk 0 0 width height 10 300 0 600 1.05 (PI / 3) 0 0)
    by reflexivity.
  destruct (Ball.constructor _ _ _ _ rnd) as [b rnd1]; simpl in *.
  constructor; simpl; try reflexivity; exact Hb.
Qed.

Lemma step_layout (e : HostEvent) (g : Game.t) (rnd : Rng) :
  layout g -> layout (fst (step e g rnd)).
Proof.
  intros L; destruct e as [currentTime | i | w h]; simpl.
  - unfold Game.gameLoop; apply update_layout.
    destruct L; constructor; assumption.
  - destruct L; constructor; assumption.
  - apply handleResize_layout; exact L.
Qed.

Lemma run_layout (es : list HostEvent) (g : Game.t) (rnd : Rng) :
  layout g -> layout (fst (run es g rnd)).
Proof.
  revert g rnd; induction es as [| e es IH]; intros g rnd L; simpl.
  - exact L.
  - pose proof (step_layout e g rnd L) as H.
    destruct (step e g rnd) as [g1 rnd1]; apply IH; exact H.
Qed.

(** ** Game: restarting *)

Lemma finishedGame_over : Game.state finishedGame = GAME_OVER.
Proof.
  unfold finishedGame.
  destruct (left_exit_tick (Game.set_aiScore scenarioGame 9%Z) 0.4 zeros)
    as (_ & _ & _ & _ & _ & A6); try reflexivity; try (simpl; lra).
  exact A6.
Defined.

(** [this.keys[code] = v] sets the key of the code, but for
    ["__proto__"], and nothing else. *)
Lemma set_key_fields (i : InputHandler.t) (code : string) (v : bool) :
  InputHandler.touchDirection (InputHandler.set_key i code v)
  = InputHandler.touchDirection i /\
  InputHandler.isTouching (InputHandler.set_key i code v)
  = InputHandler.isTouching i /\
  (forall k, k <> code ->
     InputHandler.keys (InputHandler.set_key i code v) k = InputHandler.keys i k) /\
  (code <> "__proto__"%string ->
   InputHandler.keys (InputHandler.set_key i code v) code = v).
Proof.
  unfold InputHandler.set_key.
  destruct (String.eqb_spec code "__proto__") as [E | E]; simpl.
  - repeat split; try reflexivity; intros; contradiction.
  - repeat split; try reflexivity.
    + intros k Hk; apply String.eqb_neq in Hk; rewrite Hk; reflexivity.
    + intros _; rewrite String.eqb_refl; reflexivity.
Qed.

Lemma update_restart (dt : R) (g : Game.t) (rnd : Rng) :
  Game.state g = GAME_OVER -> Game.restartRequested g = true ->
  let g' := fst (Game.update dt g rnd) in
  Game.state g' = PLAYING /\ Game.playerScore g' = 0%Z /\ Game.aiScore g' = 0%Z.
Proof.
  intros Hst Hr; cbv zeta.
  destruct (update_over dt g rnd Hst) as (_ & _ & H).
  destruct (H Hr) as [E _]; rewrite E.
  pose proof (reset_game_fields g rnd) as F; cbv zeta in F; tauto.
Qed.

(** X4: when the game is over, a mouse press or a touch start anywhere on
    the canvas, or the Space key going down, makes the next tick start a
    new game: 'PLAYING' at 0 to 0.  With Space up and no touch active, any
    other key going down or up leaves the game over, with its scores. *)
Theorem restart_inputs (g : Game.t) (dt : R) (rnd : Rng) :
  Game.state g = GAME_OVER ->
  (forall rect clientX clientY,
     let g' := fst (Game.update dt
                      (withInput (InputHandler.handleMouseDown rect clientX clientY) g)
                      rnd) in
     Game.state g' = PLAYING /\ Game.playerScore g' = 0%Z /\
     Game.aiScore g' = 0%Z) /\
  (forall rect touches i',
     InputHandler.handleTouchStart rect touches (Game.inputHandler g) = Some i' ->
     let g' := fst (Game.update dt (Game.set_inputHandler g i') rnd) in
     Game.state g' = PLAYING /\ Game.playerScore g' = 0%Z /\
     Game.aiScore g' = 0%Z) /\
  (let g' := fst (Game.update dt
                    (withInput (InputHandler.handleKeyDown "Space") g) rnd) in
   Game.state g' = PLAYING /\ Game.playerScore g' = 0%Z /\
   Game.aiScore g' = 0%Z) /\
  (Game.restartRequested g = false ->
   forall code, code <> "Space"%string ->
     Game.update dt (withInput (InputHandler.handleKeyDown code) g) rnd
     = (withInput (InputHandler.handleKeyDown code) g, rnd) /\
     Game.update dt (withInput (InputHandler.handleKeyUp code) g) rnd
     = (withInput (InputHandler.handleKeyUp code) g, rnd)).
Proof.
  intros Hst.
  split; [| split; [| split]].
  - intros rect cx cy; apply update_restart; [exact Hst |].
    unfold Game.restartRequested, withInput, InputHandler.isTouchActive,
      InputHandler.handleMouseDown; simpl.
    apply orb_true_r.
  - intros rect touches i' Hi; apply update_restart; [exact Hst |].
    destruct touches as [| [cx cy] touches]; [discriminate |].
    simpl in Hi; injection Hi as <-.
    unfold Game.restartRequested, InputHandler.isTouchActive; simpl.
    apply orb_true_r.
  - apply update_restart; [exact Hst |].
    unfold Game.restartRequested, withInput, InputHandler.isKeyPressed,
      InputHandler.handleKeyDown, InputHandler.set_key; simpl.
    reflexivity.
  - intros Hno code Hcode.
    assert (Hneq : "Space"%string <> code)
      by (intros E; apply Hcode; symmetry; exact E).
    unfold Game.restartRequested, InputHandler.isKeyPressed,
      InputHandler.isTouchActive in Hno.
    split;
      (match goal with |- Game.update dt ?a rnd = _ =>
         destruct (update_over dt a rnd Hst) as (_ & H & _) end;
       apply H;
       unfold Game.restartRequested, withInput, InputHandler.isKeyPressed,
         InputHandler.isTouchActive, InputHandler.handleKeyDown,
         InputHandler.handleKeyUp;
       cbn [Game.inputHandler Game.set_inputHandler];
       match goal with |- context [InputHandler.set_key ?i ?c ?v] =>
         destruct (set_key_fields i c v) as (_ & -> & Hk & _) end;
       rewrite (Hk _ Hneq); exact Hno).
Qed.

Lemma restart_inputs_witness :
  Game.state finishedGame = GAME_OVER /\
  Game.state (fst (Game.update 0.016
                     (withInput (InputHandler.handleKeyDown "Space") finishedGame)
                     zeros)) = PLAYING.
Proof.
  split; [exact finishedGame_over |].
  apply (proj1 (proj2 (proj2 (restart_inputs finishedGame 0.016 zeros
                                             finishedGame_over)))).
Defined.

(** ** Game: a new game *)

Lemma ball_reset_fresh (x y w h : R) (b : Ball.t) (rnd : Rng) :
  ballFrame b = Ball.mk 0 0 w h 10 300 0 600 1.05 (PI / 3) 0 0 ->
  Ball.reset x y b rnd = Ball.constructor x y w h rnd.
Proof.
  destruct b as [bx by_ cw ch r s0 s smax inc ang vx vy].
  unfold ballFrame; simpl; intros E.
  injection E as -> -> -> -> -> -> ->.
  reflexivity.
Qed.

Lemma reset_ball (g : Game.t) (rnd : Rng) :
  layout g ->
  let fresh := Ball.constructor (Game.width g / 2) (Game.height g / 2)
                                (Game.width g) (Game.height g) rnd in
  Game.ball (fst (Game.reset g rnd)) = fst fresh /\
  snd (Game.reset g rnd) = snd fresh.
Proof.
  intros [_ _ _ _ _ _ L7]; unfold Game.reset; cbv zeta.
  match goal with |- context [Ball.reset ?x ?y ?b rnd] =>
    assert (E : Ball.reset x y b rnd
                = Ball.constructor (Game.width g / 2) (Game.height g / 2)
                                   (Game.width g) (Game.height g) rnd)
      by (apply ball_reset_fresh; exact L7);
    rewrite E
  end.
  destruct (Ball.constructor _ _ _ _ rnd) as [b1 rnd1]; split; reflexivity.
Qed.

(** X5: [reset] makes of any game a run has led to the game its
    constructor would make for the size the game has now and the same
    draws: the same status, scores, paddles and ball, and the same draws
    left; it keeps the input handler and the sounds played. *)
Theorem reset_is_new_game
    (width height : R) (rnd0 : Rng) (es : list HostEvent) (rnd : Rng) :
  let start := Game.constructor width height rnd0 in
  let g := fst (run es (fst start) (snd start)) in
  let g' := fst (Game.reset g rnd) in
  let fresh := Game.constructor (Game.width g) (Game.height g) rnd in
  Game.state g' = Game.state (fst fresh) /\
  Game.playerScore g' = Game.playerScore (fst fresh) /\
  Game.aiScore g' = Game.aiScore (fst fresh) /\
  Game.targetScore g' = Game.targetScore (fst fresh) /\
  Game.width g' = Game.width (fst fresh) /\
  Game.height g' = Game.height (fst fresh) /\
  Game.playerPaddle g' = Game.playerPaddle (fst fresh) /\
  Game.aiPaddle g' = Game.aiPaddle (fst fresh) /\
  Game.ball g' = Game.ball (fst fresh) /\
  snd (Game.reset g rnd) = snd fresh /\
  Game.inputHandler g' = Game.inputHandler g /\
  Game.audioManager g' = Game.audioManager g.
Proof.
  cbv zeta.
  pose proof (run_layout es _ (snd (Game.constructor width height rnd0))
                (constructor_layout width height rnd0)) as L.
  set (g := fst (run es _ _)) in *.
  destruct (reset_paddles g rnd L) as [Hp Ha].
  destruct (reset_ball g rnd L) as [Hb Hrnd].
  pose proof (reset_game_fields g rnd) as Hf; cbv zeta in Hf.
  destruct Hf as (F1 & F2 & F3 & F4).
  pose proof (reset_layout g rnd L) as [_ _ _ Lt _ _ _].
  assert (Hsize : Game.width (fst (Game.reset g rnd)) = Game.width g /\
                  Game.height (fst (Game.reset g rnd)) = Game.height g /\
                  Game.inputHandler (fst (Game.reset g rnd)) = Game.inputHandler g /\
                  Game.audioManager (fst (Game.reset g rnd)) = Game.audioManager g).
  { unfold Game.reset; cbv zeta.
    match goal with |- context [Ball.reset ?x ?y ?b rnd] =>
      destruct (Ball.reset x y b rnd) as [b1 rnd1] end.
    repeat split; reflexivity. }
  destruct Hsize as (S1 & S2 & S3 & S4).
  rewrite Hp, Ha, Hb, Hrnd, F1, F2, F3, Lt, S1, S2, S3, S4.
  unfold Game.constructor; cbv zeta.
  destruct (Ball.constructor _ _ _ _ rnd) as [b1 rnd1]; simpl.
  repeat split; reflexivity.
Qed.

(** ** Game: the name of the winner *)

Lemma finishedGame_invariant : gameInvariant finishedGame.
Proof.
  apply updatePlaying_invariant.
  constructor; simpl; try lia; try reflexivity.
  unfold won; simpl; split; [discriminate | lia].
Defined.

(** X6: in a game that is over, with the scores and the status as every
    run keeps them (see [run_invariant]), the side [drawGameOver] names in
    its message has reached the target of 10: 'Player' exactly when the
    player has 10 points, and 'AI' only when the AI has 10 and the player
    less. *)
Theorem winner_reached_target (g : Game.t) :
  gameInvariant g ->
  Game.state g = GAME_OVER ->
  (Game.winner g = "Player"%string <-> Game.playerScore g = 10%Z) /\
  (Game.winner g = "AI"%string ->
   Game.aiScore g = 10%Z /\ (Game.playerScore g < 10)%Z) /\
  (Game.winner g = "Player"%string \/ Game.winner g = "AI"%string).
Proof.
  intros [Ht Hp Ha Hs] Hover; apply Hs in Hover; unfold won in Hover.
  unfold Game.winner; rewrite Ht in *.
  destruct (Z.geb_spec (Game.playerScore g) 10) as [Hge | Hlt].
  - split; [split; [intros _; lia | reflexivity] |].
    split; [discriminate | left; reflexivity].
  - split; [split; [discriminate | lia] |].
    split; [intros _; lia | right; reflexivity].
Qed.

Lemma winner_reached_target_witness :
  (gameInvariant finishedGame /\ Game.state finishedGame = GAME_OVER) /\
  (Game.winner finishedGame = "AI"%string -> Game.aiScore finishedGame = 10%Z).
Proof.
  split; [split; [exact finishedGame_invariant | exact finishedGame_over] |].
  intros Hw.
  exact (proj1 (proj1 (proj2 (winner_reached_target finishedGame
                                finishedGame_invariant finishedGame_over)) Hw)).
Defined.

(** ** Game: the paddles and the ball after a tick *)

Lemma checkScoring_paddles (g : Game.t) (rnd : Rng) :
  Game.playerPaddle (fst (Game.checkScoring g rnd)) = Game.playerPaddle g /\
  Game.aiPaddle (fst (Game.checkScoring g rnd)) = Game.aiPaddle g.
Proof.
  assert (Hpt : forall g0 rnd0,
            (Game.playerPaddle (fst (aiPoint g0 rnd0)) = Game.playerPaddle g0 /\
             Game.aiPaddle (fst (aiPoint g0 rnd0)) = Game.aiPaddle g0) /\
            (Game.playerPaddle (fst (playerPoint g0 rnd0)) = Game.playerPaddle g0 /\
             Game.aiPaddle (fst (playerPoint g0 rnd0)) = Game.aiPaddle g0)).
  { intros g0 rnd0; unfold aiPoint, playerPoint; cbv zeta.
    split;
      match goal with |- context [Ball.reset ?x ?y ?b rnd0] =>
        destruct (Ball.reset x y b rnd0) end;
      unfold Game.checkWinCondition; destruct (_ || _); split; reflexivity. }
  rewrite checkScoring_branches; cbv zeta.
  assert (H1 : Game.playerPaddle
                 (fst (if ltb (Ball.x (Game.ball g) + Ball.radius (Game.ball g)) 0
                       then aiPoint g rnd else (g, rnd))) = Game.playerPaddle g /\
               Game.aiPaddle
                 (fst (if ltb (Ball.x (Game.ball g) + Ball.radius (Game.ball g)) 0
                       then aiPoint g rnd else (g, rnd))) = Game.aiPaddle g).
  { destruct (ltb _ 0); [apply Hpt | split; reflexivity]. }
  destruct (if ltb _ 0 then aiPoint g rnd else (g, rnd)) as [g1 rnd1].
  simpl in H1; destruct H1 as [P A].
  destruct (gtb _ _); [| split; assumption].
  destruct (Hpt g1 rnd1) as [_ [P' A']]; split; congruence.
Qed.

Lemma updatePlaying_paddles (dt : R) (g : Game.t) (rnd : Rng) :
  Game.state g = PLAYING ->
  Game.playerPaddle (fst (Game.updatePlaying dt g rnd))
  = Paddle.update dt (Game.inputHandler g) (Game.playerPaddle g) /\
  Game.aiPaddle (fst (Game.updatePlaying dt g rnd))
  = Paddle.updateAI (Game.ball g) dt (Game.aiPaddle g).
Proof.
  intros Hst; rewrite (updatePlaying_playing dt g rnd Hst).
  destruct (checkScoring_paddles (beforeScoring dt g) rnd) as [P A].
  rewrite P, A; unfold beforeScoring; cbv zeta.
  match goal with |- context [Game.checkCollisions ?a] =>
    pose proof (checkCollisions_fields a) as Hf; cbv zeta in Hf;
    destruct Hf as (_ & _ & _ & _ & _ & _ & _ & F8 & F9);
    rewrite F8, F9
  end.
  split; reflexivity.
Qed.

Lemma layout_paddles (g : Game.t) :
  layout g ->
  (Paddle.height (Game.playerPaddle g) = 80 /\
   Paddle.canvasHeight (Game.playerPaddle g) = Game.height g /\
   Paddle.isAI (Game.playerPaddle g) = false /\
   Paddle.x (Game.playerPaddle g) = 20 /\
   Paddle.width (Game.playerPaddle g) = 8) /\
  (Paddle.height (Game.aiPaddle g) = 80 /\
   Paddle.canvasHeight (Game.aiPaddle g) = Game.height g /\
   Paddle.isAI (Game.aiPaddle g) = true /\
   Paddle.x (Game.aiPaddle g) = Game.width g - 20 - 8 /\
   Paddle.width (Game.aiPaddle g) = 8).
Proof.
  intros [_ _ _ _ L5 L6 _]; unfold paddleFrame in L5, L6.
  injection L5 as P1 P2 P3 P4 P5 P6 P7 P8.
  injection L6 as A1 A2 A3 A4 A5 A6 A7 A8.
  repeat split; assumption.
Qed.

Lemma layout_ball (g : Game.t) :
  layout g ->
  Ball.radius (Game.ball g) = 10 /\
  Ball.canvasHeight (Game.ball g) = Game.height g /\
  Ball.canvasWidth (Game.ball g) = Game.width g /\
  Ball.initialSpeed (Game.ball g) = 300.
Proof.
  intros [_ _ _ _ _ _ L7]; unfold ballFrame in L7.
  injection L7 as B1 B2 B3 B4 B5 B6 B7.
  repeat split; assumption.
Qed.

(** The clamp of the paddle on a canvas lower than the paddle. *)
Lemma enforceBounds_low_canvas (p : Paddle.t) :
  Paddle.canvasHeight p < Paddle.height p ->
  Paddle.y (Paddle.enforceBounds p) = 0.
Proof. intros H; unfold Paddle.enforceBounds; simpl; cmp; lra. Qed.

Lemma paddle_update_low_canvas (dt : R) (i : InputHandler.t) (p : Paddle.t) :
  Paddle.isAI p = false -> Paddle.canvasHeight p < Paddle.height p ->
  Paddle.y (Paddle.update dt i p) = 0.
Proof.
  intros Hrole H; unfold Paddle.update; rewrite Hrole.
  apply enforceBounds_low_canvas; simpl; exact H.
Qed.

Lemma paddle_updateAI_low_canvas (ball : Ball.t) (dt : R) (p : Paddle.t) :
  Paddle.isAI p = true -> Paddle.canvasHeight p < Paddle.height p ->
  Paddle.y (Paddle.updateAI ball dt p) = 0.
Proof.
  intros Hrole H; unfold Paddle.updateAI; rewrite Hrole; simpl negb; cbv iota.
  apply enforceBounds_low_canvas.
  repeat match goal with |- context [if ?c then _ else _] => destruct c end;
    simpl; exact H.
Qed.

Lemma paddle_update_human_onScreen (dt : R) (i : InputHandler.t) (p : Paddle.t) :
  Paddle.isAI p = false -> Paddle.height p <= Paddle.canvasHeight p ->
  onScreen (Paddle.update dt i p).
Proof.
  intros Hrole H; unfold Paddle.update; rewrite Hrole.
  apply enforceBounds_onScreen; simpl; exact H.
Qed.

Lemma paddle_updateAI_onScreen (ball : Ball.t) (dt : R) (p : Paddle.t) :
  Paddle.isAI p = true -> Paddle.height p <= Paddle.canvasHeight p ->
  onScreen (Paddle.updateAI ball dt p).
Proof.
  intros Hrole H; unfold Paddle.updateAI; rewrite Hrole; simpl negb; cbv iota.
  apply enforceBounds_onScreen.
  repeat match goal with |- context [if ?c then _ else _] => destruct c end;
    simpl; exact H.
Qed.

(** X7: a tick of a game that is being played leaves both paddles fully on
    screen when the canvas is at least 80 high, the height of the paddles,
    whether or not the tick ends the game and restarts it; on a lower
    canvas the playing block of the tick leaves both paddles at y = 0. *)
Theorem tick_paddles_on_screen (g : Game.t) (dt : R) (rnd : Rng) :
  layout g ->
  Game.state g = PLAYING ->
  (80 <= Game.height g ->
   onScreen (Game.playerPaddle (fst (Game.update dt g rnd))) /\
   onScreen (Game.aiPaddle (fst (Game.update dt g rnd)))) /\
  (Game.height g < 80 ->
   Paddle.y (Game.playerPaddle (fst (Game.updatePlaying dt g rnd))) = 0 /\
   Paddle.y (Game.aiPaddle (fst (Game.updatePlaying dt g rnd))) = 0).
Proof.
  intros L Hst.
  destruct (layout_paddles g L) as [(P1 & P2 & P3 & _) (A1 & A2 & A3 & _)].
  destruct (updatePlaying_paddles dt g rnd Hst) as [Ep Ea].
  split.
  - intros Hh.
    assert (H1 : onScreen (Game.playerPaddle (fst (Game.updatePlaying dt g rnd)))
                 /\ onScreen (Game.aiPaddle (fst (Game.updatePlaying dt g rnd)))).
    { rewrite Ep, Ea; split.
      - apply paddle_update_human_onScreen; [exact P3 | lra].
      - apply paddle_updateAI_onScreen; [exact A3 | lra]. }
    pose proof (updatePlaying_layout dt g rnd L) as L1.
    assert (Hh1 : Game.height (fst (Game.updatePlaying dt g rnd)) = Game.height g).
    { rewrite (updatePlaying_playing dt g rnd Hst).
      pose proof (checkScoring_counters (beforeScoring dt g) rnd) as Hc.
      cbv zeta in Hc; destruct Hc as (_ & _ & _ & _ & _ & _ & _ & Hc).
      pose proof (beforeScoring_fields dt g) as Hf; cbv zeta in Hf.
      destruct Hf as (_ & _ & _ & _ & _ & F6 & _); congruence. }
    rewrite update_blocks.
    destruct (Game.updatePlaying dt g rnd) as [g1 rnd1]; simpl in *.
    unfold Game.updateRestart.
    destruct (Game.state g1); [exact H1 |].
    destruct (Game.restartRequested g1); [| exact H1].
    destruct (reset_paddles g1 rnd1 L1) as [Rp Ra].
    rewrite Rp, Ra; unfold onScreen; simpl; rewrite Hh1; split; lra.
  - intros Hh; rewrite Ep, Ea; split.
    + apply paddle_update_low_canvas; [exact P3 | lra].
    + apply paddle_updateAI_low_canvas; [exact A3 | lra].
Qed.

Lemma tick_paddles_on_screen_witness :
  let g := fst (Game.constructor 800 600 zeros) in
  (layout g /\ Game.state g = PLAYING /\ 80 <= Game.height g) /\
  onScreen (Game.playerPaddle (fst (Game.update 0.016 g zeros))).
Proof.
  assert (L : layout (fst (Game.constructor 800 600 zeros)))
    by apply constructor_layout.
  assert (Hst : Game.state (fst (Game.constructor 800 600 zeros)) = PLAYING)
    by reflexivity.
  assert (Hh : 80 <= Game.height (fst (Game.constructor 800 600 zeros)))
    by (simpl; lra).
  split; [split; [exact L | split; [exact Hst | exact Hh]] |].
  exact (proj1 (proj1 (tick_paddles_on_screen _ 0.016 zeros L Hst) Hh)).
Defined.

Lemma checkWallCollision_inField (b : Ball.t) :
  2 * Ball.radius b <= Ball.canvasHeight b ->
  inField (fst (Ball.checkWallCollision b)).
Proof.
  intros Hfit; unfold inField, Ball.checkWallCollision.
  destruct (leb (Ball.y b - Ball.radius b) 0) eqn:E1; simpl;
    [| assert (N1 : ~ Ball.y b - Ball.radius b <= 0)
         by (rewrite <- leb_spec; congruence)];
    destruct (geb _ _) eqn:E2; simpl;
    try (assert (N2 : ~ Ball.radius b + Ball.radius b >= Ball.canvasHeight b)
           by (rewrite <- geb_spec; simpl in E2; congruence));
    try (assert (N3 : ~ Ball.y b + Ball.radius b >= Ball.canvasHeight b)
           by (rewrite <- geb_spec; simpl in E2; congruence));
    lra.
Qed.

Lemma checkCollisions_inField (g : Game.t) :
  2 * Ball.radius (Game.ball g) <= Ball.canvasHeight (Game.ball g) ->
  inField (Game.ball (Game.checkCollisions g)).
Proof.
  intros Hfit; unfold Game.checkCollisions; cbv zeta.
  pose proof (checkWallCollision_inField (Game.ball g) Hfit) as Hw.
  destruct (Ball.checkWallCollision (Game.ball g)) as [b hit]; simpl fst in Hw.
  destruct hit; simpl;
    destruct (Ball.checkPaddleCollision b (Game.playerPaddle g)) as [[] |]; simpl;
    destruct (Ball.checkPaddleCollision _ (Game.aiPaddle g)) as [[] |]; simpl;
    exact Hw.
Qed.

(** X8: on a canvas at least 20 high, the diameter of the ball, a tick of
    a game that is being played leaves the ball between the two walls:
    radius <= y <= canvasHeight - radius, whether the ball bounced off a
    wall or a paddle, was put back at the centre after a point, or the
    game was restarted. *)
Theorem tick_ball_in_field (g : Game.t) (dt : R) (rnd : Rng) :
  layout g ->
  Game.state g = PLAYING ->
  20 <= Game.height g ->
  inField (Game.ball (fst (Game.update dt g rnd))).
Proof.
  intros L Hst Hh.
  destruct (layout_ball g L) as (B1 & B2 & _).
  pose proof (beforeScoring_layout dt g L) as Lb.
  destruct (layout_ball _ Lb) as (Bb1 & Bb2 & _).
  pose proof (beforeScoring_fields dt g) as Hf; cbv zeta in Hf.
  destruct Hf as (_ & _ & _ & _ & _ & F6 & _).
  assert (Hbefore : inField (Game.ball (beforeScoring dt g))).
  { unfold beforeScoring; cbv zeta.
    apply checkCollisions_inField; simpl; rewrite B1, B2; lra. }
  assert (Hcenter : forall g0, layout g0 -> 20 <= Game.height g0 ->
            ballAtCenter g0 -> inField (Game.ball g0)).
  { intros g0 L0 H0 (_ & Hy & _); destruct (layout_ball g0 L0) as (R1 & R2 & _).
    unfold inField; rewrite R1, R2, Hy; lra. }
  assert (Hplay : inField (Game.ball (fst (Game.updatePlaying dt g rnd)))).
  { rewrite (updatePlaying_playing dt g rnd Hst).
    pose proof (checkScoring_layout _ rnd Lb) as Ls.
    pose proof (checkScoring_counters (beforeScoring dt g) rnd) as Hc.
    cbv zeta in Hc; destruct Hc as (_ & _ & _ & _ & Hc & _ & _ & Hhs).
    destruct (exited_dec (beforeScoring dt g)) as [[Hl | Hl] [Hr | Hr]];
      try (apply Hcenter; [exact Ls | rewrite Hhs, F6; exact Hh | apply Hc; tauto]).
    rewrite (checkScoring_none _ rnd Hl Hr); exact Hbefore. }
  pose proof (updatePlaying_layout dt g rnd L) as L1.
  assert (Hh1 : Game.height (fst (Game.updatePlaying dt g rnd)) = Game.height g).
  { rewrite (updatePlaying_playing dt g rnd Hst).
    pose proof (checkScoring_counters (beforeScoring dt g) rnd) as Hc.
    cbv zeta in Hc; destruct Hc as (_ & _ & _ & _ & _ & _ & _ & Hc); congruence. }
  rewrite update_blocks.
  destruct (Game.updatePlaying dt g rnd) as [g1 rnd1]; simpl in *.
  unfold Game.updateRestart.
  destruct (Game.state g1); [exact Hplay |].
  destruct (Game.restartRequested g1); [| exact Hplay].
  destruct (reset_ball g1 rnd1 L1) as [Eb _]; rewrite Eb.
  unfold inField; simpl; rewrite Hh1; lra.
Qed.

Lemma tick_ball_in_field_witness :
  let g := fst (Game.constructor 800 600 zeros) in
  (layout g /\ Game.state g = PLAYING /\ 20 <= Game.height g) /\
  inField (Game.ball (fst (Game.update 0.016 g zeros))).
Proof.
  assert (L : layout (fst (Game.constructor 800 600 zeros)))
    by apply constructor_layout.
  assert (Hst : Game.state (fst (Game.constructor 800 600 zeros)) = PLAYING)
    by reflexivity.
  assert (Hh : 20 <= Game.height (fst (Game.constructor 800 600 zeros)))
    by (simpl; lra).
  split; [split; [exact L | split; [exact Hst | exact Hh]] |].
  exact (tick_ball_in_field _ 0.016 zeros L Hst Hh).
Defined.


(** ** Game: one paddle hit in a pass *)

Lemma sign_range (v : R) : -1 <= Math.sign v <= 1.
Proof. unfold Math.sign; cmp; lra. Qed.

Lemma checkPaddleCollision_overlaps (b : Ball.t) (p : Paddle.t) (q : Quotient) :
  Ball.checkPaddleCollision b p = Some q -> boxesOverlap b p.
Proof.
  intros Hq.
  destruct (boxesOverlap_dec b p) as [H | H]; [exact H |].
  rewrite (checkPaddleCollision_apart b p H) in Hq; discriminate.
Qed.

Lemma applyPaddleHit_position (h : R) (b : Ball.t) :
  Ball.x (Ball.applyPaddleHit h b)
  = Ball.x b + Math.sign (Ball.velocityX b * -1) * 2 /\
  Ball.y (Ball.applyPaddleHit h b) = Ball.y b /\
  Ball.radius (Ball.applyPaddleHit h b) = Ball.radius b /\
  Ball.canvasHeight (Ball.applyPaddleHit h b) = Ball.canvasHeight b.
Proof. rewrite applyPaddleHit_rebound; repeat split; reflexivity. Qed.

(** X9: in a game with the layout of the constructor, on a canvas more
    than 78 wide, one collision pass never applies two paddle hits: a ball
    that has hit the player's paddle is, after the hit, left of the AI's
    paddle.  So the ball after the pass is the ball after the wall check,
    with at most one paddle hit applied to it. *)
Theorem one_paddle_hit_per_pass (g : Game.t) :
  layout g ->
  78 < Game.width g ->
  let b := fst (Ball.checkWallCollision (Game.ball g)) in
  (forall h,
     Ball.checkPaddleCollision b (Game.playerPaddle g) = Some (Num h) ->
     Ball.checkPaddleCollision (Ball.applyPaddleHit h b) (Game.aiPaddle g)
     = None) /\
  (Game.ball (Game.checkCollisions g) = b \/
   (exists h, Ball.checkPaddleCollision b (Game.playerPaddle g) = Some (Num h) /\
              Game.ball (Game.checkCollisions g) = Ball.applyPaddleHit h b) \/
   (exists h, Ball.checkPaddleCollision b (Game.aiPaddle g) = Some (Num h) /\
              Game.ball (Game.checkCollisions g) = Ball.applyPaddleHit h b)).
Proof.
  intros L Hw; cbv zeta.
  destruct (layout_paddles g L) as [(P1 & _ & _ & P4 & P5) (A1 & _ & _ & A4 & _)].
  destruct (layout_ball g L) as (B1 & _).
  destruct (checkWallCollision_x (Game.ball g)) as [Ex Er].
  assert (Hfirst : forall h,
            Ball.checkPaddleCollision (fst (Ball.checkWallCollision (Game.ball g)))
                                      (Game.playerPaddle g) = Some (Num h) ->
            Ball.checkPaddleCollision
              (Ball.applyPaddleHit h (fst (Ball.checkWallCollision (Game.ball g))))
              (Game.aiPaddle g) = None).
  { intros h Hh; apply checkPaddleCollision_overlaps in Hh.
    unfold boxesOverlap, overlap in Hh; simpl in Hh.
    destruct Hh as [[_ Hx] _].
    apply checkPaddleCollision_left_of.
    destruct (applyPaddleHit_position h (fst (Ball.checkWallCollision (Game.ball g))))
      as (Hx' & _ & Hr' & _).
    rewrite Hx', Hr', A4.
    pose proof (sign_range (Ball.velocityX
                              (fst (Ball.checkWallCollision (Game.ball g))) * -1)).
    rewrite Er, B1 in *; rewrite P4, P5 in Hx; lra. }
  split; [exact Hfirst |].
  unfold Game.checkCollisions; cbv zeta.
  destruct (Ball.checkWallCollision (Game.ball g)) as [b hit]; simpl fst in *.
  assert (Hp : Paddle.height (Game.playerPaddle g) <> 0) by lra.
  assert (Ha : Paddle.height (Game.aiPaddle g) <> 0) by lra.
  assert (Hcases :
            forall g0, Game.ball g0 = b ->
              Game.playerPaddle g0 = Game.playerPaddle g ->
              Game.aiPaddle g0 = Game.aiPaddle g ->
              let g1 := match Ball.checkPaddleCollision (Game.ball g0)
                                                         (Game.playerPaddle g0) with
                        | Some (Num h) =>
                            Game.play (Game.set_ball g0
                              (Ball.applyPaddleHit h (Game.ball g0)))
                              PaddleHitSound
                        | Some _ => Game.play g0 PaddleHitSound
                        | None => g0
                        end in
              let g2 := match Ball.checkPaddleCollision (Game.ball g1)
                                                         (Game.aiPaddle g1) with
                        | Some (Num h) =>
                            Game.play (Game.set_ball g1
                              (Ball.applyPaddleHit h (Game.ball g1)))
                              PaddleHitSound
                        | Some _ => Game.play g1 PaddleHitSound
                        | None => g1
                        end in
              Game.ball g2 = b \/
              (exists h, Ball.checkPaddleCollision b (Game.playerPaddle g)
                         = Some (Num h) /\
                         Game.ball g2 = Ball.applyPaddleHit h b) \/
              (exists h, Ball.checkPaddleCollision b (Game.aiPaddle g)
                         = Some (Num h) /\
                         Game.ball g2 = Ball.applyPaddleHit h b)).
  { intros g0 Eb Ep Ea; cbv zeta; rewrite Eb, Ep.
    destruct (checkPaddleCollision_number b (Game.playerPaddle g) Hp)
      as [E1 | [h E1]]; rewrite E1.
    - rewrite Eb, Ea.
      destruct (checkPaddleCollision_number b (Game.aiPaddle g) Ha)
        as [E2 | [h E2]]; rewrite E2.
      + left; exact Eb.
      + simpl; right; right; exists h; split; reflexivity.
    - simpl; rewrite Ea, (Hfirst h E1).
      right; left; exists h; split; reflexivity. }
  destruct hit; apply Hcases; reflexivity.
Qed.

Lemma one_paddle_hit_per_pass_witness :
  (layout hitGame /\ 78 < Game.width hitGame) /\
  Ball.checkPaddleCollision (Game.ball hitGame) (Game.playerPaddle hitGame)
  = Some (Num 0) /\
  Ball.checkPaddleCollision
    (Ball.applyPaddleHit 0 (Game.ball hitGame)) (Game.aiPaddle hitGame)
  = None.
Proof.
  assert (L : layout hitGame).
  { pose proof (constructor_layout 800 600 zeros) as [L1 L2 L3 L4 L5 L6 _].
    constructor; try assumption; reflexivity. }
  assert (Hw : 78 < Game.width hitGame) by (simpl; lra).
  assert (Hb : fst (Ball.checkWallCollision (Game.ball hitGame))
               = Game.ball hitGame).
  { unfold Ball.checkWallCollision; cbv zeta; simpl.
    unfold leb, geb.
    destruct (Rle_dec _ _) as [H | H]; simpl in *; [lra |].
    destruct (Rge_dec _ _) as [H' | H']; simpl in *; [lra |].
    reflexivity. }
  assert (Hh : Ball.checkPaddleCollision
                 (fst (Ball.checkWallCollision (Game.ball hitGame)))
                 (Game.playerPaddle hitGame) = Some (Num 0)).
  { rewrite Hb, checkPaddleCollision_overlap
      by (unfold boxesOverlap, overlap; simpl; lra).
    simpl; f_equal.
    rewrite (proj1 (clamp_divide _ _)) by lra.
    f_equal; replace ((300 - (600 / 2 - 80 / 2 + 80 / 2)) / (80 / 2)) with 0 by lra.
    cmp; lra. }
  split; [split; [exact L | exact Hw] |].
  pose proof (proj1 (one_paddle_hit_per_pass hitGame L Hw) 0 Hh) as H.
  rewrite Hb in Hh, H; split; [exact Hh | exact H].
Defined.

(** ** Ball: two hits in a row *)

(** X10: a second paddle hit undoes the first one horizontally.  For a
    ball with the constants of the constructor, a vx other than 0, a
    positive speed, and two hit points of [-1, 1], after
    [applyPaddleHit h1] and then [applyPaddleHit h2] the ball has the x it
    had, a vx of the sign it had, and the y it had; its speed has gone up
    twice. *)
Theorem two_paddle_hits_cancel (b : Ball.t) (h1 h2 : R) :
  constants b ->
  Ball.velocityX b <> 0 ->
  0 < Ball.speed b ->
  -1 <= h1 <= 1 -> -1 <= h2 <= 1 ->
  let b2 := Ball.applyPaddleHit h2 (Ball.applyPaddleHit h1 b) in
  Ball.x b2 = Ball.x b /\
  Ball.y b2 = Ball.y b /\
  Math.sign (Ball.velocityX b2) = Math.sign (Ball.velocityX b) /\
  Ball.speed b2
  = Rmin (Rmin (Ball.speed b * 1.05) 600 * 1.05) 600.
Proof.
  intros Hc Hvx Hpos Hh1 Hh2; cbv zeta.
  pose proof Hc as (_ & _ & Hmax & Hinc & Hang).
  pose proof PI_RGT_0 as HPI.
  assert (Hs1 : 0 < Rmin (Ball.speed b * Ball.speedIncrement b) (Ball.maxSpeed b))
    by (rewrite Hmax, Hinc; cmp; lra).
  assert (Hcos1 : 1 / 2 <= cos (h1 * Ball.maxBounceAngle b))
    by (apply cos_within_PI3; rewrite Hang; nra).
  destruct (applyPaddleHit_horizontal h1 b Hvx) as (Hsg1 & Habs1); [lra | lra |].
  set (b1 := Ball.applyPaddleHit h1 b) in *.
  assert (Hc1 : constants b1) by exact Hc.
  assert (Hspeed1 : Ball.speed b1
                    = Rmin (Ball.speed b * Ball.speedIncrement b) (Ball.maxSpeed b))
    by apply applyPaddleHit_speed.
  assert (Hvx1 : Ball.velocityX b1 <> 0).
  { intros E.
    assert (Hz : Rabs (Ball.velocityX b1) = 0) by (rewrite E; apply Rabs_R0).
    rewrite Habs1, Hspeed1 in Hz; nra. }
  pose proof Hc1 as (_ & _ & Hmax1 & Hinc1 & Hang1).
  assert (Hs2 : 0 < Rmin (Ball.speed b1 * Ball.speedIncrement b1) (Ball.maxSpeed b1))
    by (rewrite Hmax1, Hinc1, Hspeed1; cmp; lra).
  assert (Hcos2 : 1 / 2 <= cos (h2 * Ball.maxBounceAngle b1))
    by (apply cos_within_PI3; rewrite Hang1; nra).
  destruct (applyPaddleHit_horizontal h2 b1 Hvx1) as (Hsg2 & _); [lra | lra |].
  destruct (applyPaddleHit_position h1 b) as (Hx1 & Hy1 & _).
  destruct (applyPaddleHit_position h2 b1) as (Hx2 & Hy2 & _).
  fold b1 in Hx1, Hy1.
  split; [| split; [| split]].
  - rewrite Hx2, Hx1, !sign_neg, Hsg1; ring.
  - rewrite Hy2, Hy1; reflexivity.
  - rewrite Hsg2, Hsg1; ring.
  - rewrite applyPaddleHit_speed, Hspeed1, Hmax1, Hinc1.
    replace (Ball.maxSpeed b) with 600 by (symmetry; exact Hmax).
    replace (Ball.speedIncrement b) with 1.05 by (symmetry; exact Hinc).
    reflexivity.
Qed.

Lemma two_paddle_hits_cancel_witness :
  let b := Ball.mk 30 280 800 600 10 300 300 600 1.05 (PI / 3) (-300) 0 in
  (constants b /\ Ball.velocityX b <> 0 /\ 0 < Ball.speed b /\
   -1 <= -0.5 <= 1 /\ -1 <= 0.25 <= 1) /\
  Ball.x (Ball.applyPaddleHit 0.25 (Ball.applyPaddleHit (-0.5) b)) = 30.
Proof.
  assert (Hc : constants
                 (Ball.mk 30 280 800 600 10 300 300 600 1.05 (PI / 3) (-300) 0))
    by (unfold constants; simpl; repeat split; reflexivity).
  assert (Hvx : Ball.velocityX
                  (Ball.mk 30 280 800 600 10 300 300 600 1.05 (PI / 3) (-300) 0)
                <> 0) by (simpl; lra).
  assert (Hs : 0 < Ball.speed
                     (Ball.mk 30 280 800 600 10 300 300 600 1.05 (PI / 3) (-300) 0))
    by (simpl; lra).
  assert (Hh1 : -1 <= -0.5 <= 1) by lra.
  assert (Hh2 : -1 <= 0.25 <= 1) by lra.
  split; [repeat split; try assumption; lra |].
  exact (proj1 (two_paddle_hits_cancel _ _ _ Hc Hvx Hs Hh1 Hh2)).
Defined.

(** ** Ball: moving *)

(** X11: [update] moves the ball by its velocity times the time step and
    changes nothing else: x' = x + vx * dt and y' = y + vy * dt.  So a ball
    the program can hold, whose velocity has the length of its speed,
    travels speed * |dt| in a step.  A step of 0 leaves the ball as it is,
    two steps in a row are one step of the sum of their times, and a step
    back undoes a step. *)
Theorem ball_update_additive (b : Ball.t) (dt1 dt2 : R) :
  let b' := Ball.update dt1 b in
  Ball.x b' = Ball.x b + Ball.velocityX b * dt1 /\
  Ball.y b' = Ball.y b + Ball.velocityY b * dt1 /\
  ballFrame b' = ballFrame b /\
  (Ball.velocityX b' = Ball.velocityX b /\ Ball.velocityY b' = Ball.velocityY b /\
   Ball.speed b' = Ball.speed b) /\
  (reachable b ->
   sqrt ((Ball.x b' - Ball.x b) * (Ball.x b' - Ball.x b)
         + (Ball.y b' - Ball.y b) * (Ball.y b' - Ball.y b))
   = Ball.speed b * Rabs dt1) /\
  Ball.update 0 b = b /\
  Ball.update dt2 (Ball.update dt1 b) = Ball.update (dt1 + dt2) b /\
  Ball.update (- dt1) (Ball.update dt1 b) = b.
Proof.
  cbv zeta.
  split; [reflexivity |]. split; [reflexivity |]. split; [reflexivity |].
  split; [repeat split; reflexivity |].
  split.
  - intros Hr; pose proof (reachable_invariant b Hr) as Hinv.
    destruct (invariant_moving b Hinv) as [Hpos _].
    pose proof (inv_magnitude b Hinv) as Hm.
    simpl.
    replace ((Ball.x b + Ball.velocityX b * dt1 - Ball.x b)
             * (Ball.x b + Ball.velocityX b * dt1 - Ball.x b)
             + (Ball.y b + Ball.velocityY b * dt1 - Ball.y b)
               * (Ball.y b + Ball.velocityY b * dt1 - Ball.y b))
      with ((Ball.speed b * Rabs dt1) * (Ball.speed b * Rabs dt1)).
    + apply sqrt_square.
      apply Rmult_le_pos; [lra | apply Rabs_pos].
    + assert (Habs : Rabs dt1 * Rabs dt1 = dt1 * dt1)
        by (rewrite <- Rabs_mult; apply Rabs_right; nra).
      transitivity ((Ball.speed b * Ball.speed b) * (Rabs dt1 * Rabs dt1));
        [ring |].
      rewrite Habs, <- Hm; ring.
  - destruct b as [bx by_ cw ch r s0 s smax inc ang vx vy].
    unfold Ball.update; simpl.
    unfold Ball.set_y, Ball.set_x; simpl.
    repeat split; f_equal; ring.
Qed.

(** The first ball of a game 800 by 600, a tenth of a second on: it has
    travelled 30 pixels. *)
Lemma ball_update_additive_witness :
  reachable firstBall /\
  sqrt ((Ball.x (Ball.update 0.1 firstBall) - Ball.x firstBall)
        * (Ball.x (Ball.update 0.1 firstBall) - Ball.x firstBall)
        + (Ball.y (Ball.update 0.1 firstBall) - Ball.y firstBall)
          * (Ball.y (Ball.update 0.1 firstBall) - Ball.y firstBall))
  = 30.
Proof.
  split; [exact firstBall_reachable |].
  rewrite (proj1 (proj2 (proj2 (proj2 (proj2
             (ball_update_additive firstBall 0.1 0)))))
             firstBall_reachable).
  rewrite Rabs_right by lra; simpl; lra.
Defined.

(** ** Ball: the serve *)

Lemma sin_within (a : R) : PI / 6 <= a <= PI / 3 -> 1 / 2 <= sin a.
Proof.
  intros Ha; pose proof PI_RGT_0 as HPI.
  rewrite <- cos_shift; apply cos_within_PI3; lra.
Qed.

(** X12: [setRandomVelocity], for two draws of [0, 1) and a positive speed,
    gives a velocity of the length of the speed whose two components are
    both at least half the speed in size, so a serve is never nearly
    horizontal or vertical.  The second draw decides its direction: the
    ball goes left exactly when the draw is in [1/4, 3/4) and up (vy < 0)
    exactly when it is at least 1/2.  Position and speed are left as they
    are, and two draws are used. *)
Theorem serve_direction (b : Ball.t) (rnd : Rng) :
  0 < Ball.speed b ->
  0 <= rnd 0%nat < 1 -> 0 <= rnd 1%nat < 1 ->
  let b' := fst (Ball.setRandomVelocity b rnd) in
  Ball.speed b / 2 <= Rabs (Ball.velocityX b') /\
  Ball.speed b / 2 <= Rabs (Ball.velocityY b') /\
  Ball.velocityX b' * Ball.velocityX b' + Ball.velocityY b' * Ball.velocityY b'
  = Ball.speed b * Ball.speed b /\
  (Ball.velocityX b' < 0 <-> 1 / 4 <= rnd 1%nat < 3 / 4) /\
  (Ball.velocityY b' < 0 <-> 1 / 2 <= rnd 1%nat) /\
  (Ball.x b' = Ball.x b /\ Ball.y b' = Ball.y b /\ Ball.speed b' = Ball.speed b) /\
  (forall n, snd (Ball.setRandomVelocity b rnd) n = rnd (S (S n))).
Proof.
  intros Hs Hu1 Hu2; pose proof PI_RGT_0 as HPI.
  unfold Ball.setRandomVelocity; simpl.
  set (a := rnd 0%nat * PI / 6 + PI / 6).
  assert (Ha : PI / 6 <= a <= PI / 3) by (unfold a; nra).
  assert (Hcos : 1 / 2 <= cos a) by (apply cos_within_PI3; lra).
  assert (Hsin : 1 / 2 <= sin a) by (apply sin_within; exact Ha).
  assert (C1 : cos (PI - a) = - cos a)
    by (rewrite cos_minus, cos_PI, sin_PI; ring).
  assert (S1 : sin (PI - a) = sin a)
    by (rewrite sin_minus, cos_PI, sin_PI; ring).
  assert (C2 : cos (PI + a) = - cos a) by (rewrite Rplus_comm; apply neg_cos).
  assert (S2 : sin (PI + a) = - sin a) by (rewrite Rplus_comm; apply neg_sin).
  assert (C3 : cos (2 * PI - a) = cos a)
    by (rewrite cos_minus, cos_2PI, sin_2PI; ring).
  assert (S3 : sin (2 * PI - a) = - sin a)
    by (rewrite sin_minus, cos_2PI, sin_2PI; ring).
  destruct (base_Int_part (rnd 1%nat * 4)) as [Hlo Hhi].
  pose proof (quadrant_range (rnd 1%nat) Hu2) as Hq.
  set (q := Int_part (rnd 1%nat * 4)) in *.
  assert (Hcase : q = 0%Z \/ q = 1%Z \/ q = 2%Z \/ q = 3%Z) by lia.
  assert (Hx : forall c : R, 1 / 2 <= c ->
            Ball.speed b / 2 <= Rabs (c * Ball.speed b) /\
            Ball.speed b / 2 <= Rabs (- c * Ball.speed b)).
  { intros c Hc; split.
    - rewrite Rabs_right by nra; nra.
    - rewrite Rabs_left by nra; nra. }
  split; [| split; [| split; [| split; [| split; [| split]]]]];
    try (apply unit_circle); try (repeat split; reflexivity);
    destruct Hcase as [E | [E | [E | E]]]; rewrite E in *; simpl in Hlo, Hhi;
    rewrite ?C1, ?S1, ?C2, ?S2, ?C3, ?S3;
    try (apply Hx; assumption);
    try (split; intros; nra).
Qed.

Lemma serve_direction_witness :
  let b := Ball.mk 400 300 800 600 10 300 300 600 1.05 (PI / 3) 0 0 in
  (0 < Ball.speed b /\ 0 <= zeros 0%nat < 1 /\ 0 <= zeros 1%nat < 1) /\
  ~ Ball.velocityX (fst (Ball.setRandomVelocity b zeros)) < 0.
Proof.
  assert (Hs : 0 < Ball.speed
                     (Ball.mk 400 300 800 600 10 300 300 600 1.05 (PI / 3) 0 0))
    by (simpl; lra).
  assert (H0 : 0 <= zeros 0%nat < 1) by (unfold zeros; lra).
  assert (H1 : 0 <= zeros 1%nat < 1) by (unfold zeros; lra).
  split; [split; [exact Hs | split; [exact H0 | exact H1]] |].
  intros Hneg.
  apply (proj1 (proj1 (proj2 (proj2 (proj2
           (serve_direction _ zeros Hs H0 H1)))))) in Hneg.
  unfold zeros in Hneg; lra.
Defined.

(** ** Paddle: one step *)

Lemma clamp_step (lo hi y z : R) :
  lo <= y <= hi -> Rabs (Rmax lo (Rmin hi z) - y) <= Rabs (z - y).
Proof.
  intros Hy; unfold Rmin.
  destruct (Rle_dec hi z); unfold Rmax;
    match goal with |- context [Rle_dec ?a ?b] => destruct (Rle_dec a b) end;
    unfold Rabs;
    repeat match goal with
           | |- context [Rcase_abs ?a] => destruct (Rcase_abs a)
           end; lra.
Qed.

(** X13: [update] on a human paddle that is on screen, for a direction of
    -1, 0 or 1 and a time step that is not negative, records the direction
    as the velocity and moves the paddle by at most speed * dt: not at all
    for direction 0, up to y - speed * dt but not above 0 for -1, down to
    y + speed * dt but not below canvasHeight - height for 1. *)
Theorem human_paddle_step (p : Paddle.t) (dt : R) (i : InputHandler.t) :
  Paddle.isAI p = false ->
  onScreen p ->
  0 <= Paddle.speed p -> 0 <= dt ->
  isDirection (InputHandler.getInputDirection i) ->
  let p' := Paddle.update dt i p in
  Paddle.velocity p' = InputHandler.getInputDirection i /\
  Rabs (Paddle.y p' - Paddle.y p) <= Paddle.speed p * dt /\
  (InputHandler.getInputDirection i = 0%Z -> Paddle.y p' = Paddle.y p) /\
  (InputHandler.getInputDirection i = (-1)%Z ->
   Paddle.y p' = Rmax 0 (Paddle.y p - Paddle.speed p * dt)) /\
  (InputHandler.getInputDirection i = 1%Z ->
   Paddle.y p' = Rmin (Paddle.canvasHeight p - Paddle.height p)
                      (Paddle.y p + Paddle.speed p * dt)).
Proof.
  intros Hrole Hon Hs Hdt Hd; cbv zeta.
  unfold onScreen in Hon.
  unfold Paddle.update; rewrite Hrole; unfold Paddle.enforceBounds; simpl.
  set (d := InputHandler.getInputDirection i) in *.
  assert (Hsd : 0 <= Paddle.speed p * dt) by nra.
  split; [reflexivity |].
  split.
  - eapply Rle_trans; [apply clamp_step; exact Hon |].
    replace (Paddle.y p + IZR d * Paddle.speed p * dt - Paddle.y p)
      with (IZR d * (Paddle.speed p * dt)) by ring.
    rewrite Rabs_mult, (Rabs_right (Paddle.speed p * dt)) by lra.
    assert (Hone : Rabs (IZR d) <= 1).
    { destruct Hd as [E | [E | E]]; rewrite E; simpl;
        [rewrite Rabs_left by lra | rewrite Rabs_R0 | rewrite Rabs_right by lra];
        lra. }
    pose proof (Rabs_pos (IZR d)); nra.
  - split; [| split]; intros E; rewrite E; simpl; cmp; lra.
Qed.

Lemma human_paddle_step_witness :
  let p := Paddle.constructor 20 100 8 80 400 false in
  let down := InputHandler.mk (fun _ => false) 1%Z true in
  (Paddle.isAI p = false /\ onScreen p /\ 0 <= Paddle.speed p /\ 0 <= 0.5 /\
   isDirection (InputHandler.getInputDirection down)) /\
  Rabs (Paddle.y (Paddle.update 0.5 down p) - Paddle.y p) <= 150.
Proof.
  assert (H1 : Paddle.isAI (Paddle.constructor 20 100 8 80 400 false) = false)
    by reflexivity.
  assert (H2 : onScreen (Paddle.constructor 20 100 8 80 400 false))
    by (unfold onScreen; simpl; lra).
  assert (H3 : 0 <= Paddle.speed (Paddle.constructor 20 100 8 80 400 false))
    by (simpl; lra).
  assert (H4 : 0 <= 0.5) by lra.
  assert (H5 : isDirection (InputHandler.getInputDirection
                              (InputHandler.mk (fun _ => false) 1%Z true)))
    by (right; right; reflexivity).
  split; [repeat split; try assumption; apply H2 |].
  eapply Rle_trans;
    [apply (proj1 (proj2 (human_paddle_step _ 0.5 _ H1 H2 H3 H4 H5))) |].
  simpl; lra.
Defined.

(** X14: the AI paddle, on screen, with the constants of the constructor,
    while the ball comes towards it (vx > 0), for a time step of at most
    0.1 s: it moves up at 300 pixels per second when the ball is more than
    15 above its centre, down when the ball is more than 15 below, and
    stays where it is otherwise; it does not leave the screen, and it never
    moves so far that the ball ends up beyond the dead zone on the other
    side. *)
Theorem ai_paddle_tracks (p : Paddle.t) (ball : Ball.t) (dt : R) :
  Paddle.isAI p = true ->
  onScreen p ->
  paddleConstants p ->
  0 <= dt <= 0.1 ->
  Ball.velocityX ball > 0 ->
  let p' := Paddle.updateAI ball dt p in
  (Ball.y ball < paddleCenter p - 15 ->
   Paddle.velocity p' = (-1)%Z /\
   Paddle.y p' = Rmax 0 (Paddle.y p - 300 * dt) /\
   Ball.y ball <= paddleCenter p' + 15) /\
  (Ball.y ball > paddleCenter p + 15 ->
   Paddle.velocity p' = 1%Z /\
   Paddle.y p' = Rmin (Paddle.canvasHeight p - Paddle.height p)
                      (Paddle.y p + 300 * dt) /\
   paddleCenter p' - 15 <= Ball.y ball) /\
  (paddleCenter p - 15 <= Ball.y ball <= paddleCenter p + 15 ->
   Paddle.velocity p' = 0%Z /\ Paddle.y p' = Paddle.y p).
Proof.
  intros Hrole Hon (Hs & Ht & Hr) Hdt Hvx; cbv zeta.
  unfold onScreen in Hon; unfold paddleCenter.
  unfold Paddle.updateAI; rewrite Hrole; simpl negb; cbv iota zeta.
  replace (gtb (BallState.velocityX ball) 0) with true
    by (symmetry; apply gtb_spec; exact Hvx).
  rewrite Ht.
  split; [| split].
  - intros Hb.
    replace (ltb (BallState.y ball) (Paddle.y p + Paddle.height p / 2 - 15))
      with true by (symmetry; apply ltb_spec; exact Hb).
    unfold Paddle.enforceBounds; simpl; rewrite Hs.
    split; [reflexivity |].
    assert (E : Rmax 0 (Rmin (Paddle.canvasHeight p - Paddle.height p)
                             (Paddle.y p + -1 * 300 * dt))
                = Rmax 0 (Paddle.y p - 300 * dt)) by (cmp; lra).
    rewrite E; split; [reflexivity |].
    change (BallState.y ball) with (Ball.y ball); cmp; lra.
  - intros Hb.
    replace (ltb (BallState.y ball) (Paddle.y p + Paddle.height p / 2 - 15))
      with false by (change (BallState.y ball) with (Ball.y ball); cmp; lra).
    replace (gtb (BallState.y ball) (Paddle.y p + Paddle.height p / 2 + 15))
      with true by (symmetry; apply gtb_spec; exact Hb).
    unfold Paddle.enforceBounds; simpl; rewrite Hs.
    split; [reflexivity |].
    assert (E : Rmax 0 (Rmin (Paddle.canvasHeight p - Paddle.height p)
                             (Paddle.y p + 1 * 300 * dt))
                = Rmin (Paddle.canvasHeight p - Paddle.height p)
                       (Paddle.y p + 300 * dt)) by (cmp; lra).
    rewrite E; split; [reflexivity |].
    change (BallState.y ball) with (Ball.y ball) in *; cmp; lra.
  - intros Hb.
    replace (ltb (BallState.y ball) (Paddle.y p + Paddle.height p / 2 - 15))
      with false by (change (BallState.y ball) with (Ball.y ball); cmp; lra).
    replace (gtb (BallState.y ball) (Paddle.y p + Paddle.height p / 2 + 15))
      with false by (change (BallState.y ball) with (Ball.y ball); cmp; lra).
    unfold Paddle.enforceBounds; simpl.
    split; [reflexivity | cmp; lra].
Qed.

Lemma ai_paddle_tracks_witness :
  let p := Paddle.constructor 772 260 8 80 600 true in
  let ball := Ball.mk 400 100 800 600 10 300 300 600 1.05 (PI / 3) 260 150 in
  (Paddle.isAI p = true /\ onScreen p /\ paddleConstants p /\
   0 <= 0.1 <= 0.1 /\ Ball.velocityX ball > 0) /\
  Paddle.y (Paddle.updateAI ball 0.1 p) = 230.
Proof.
  assert (H1 : Paddle.isAI (Paddle.constructor 772 260 8 80 600 true) = true)
    by reflexivity.
  assert (H2 : onScreen (Paddle.constructor 772 260 8 80 600 true))
    by (unfold onScreen; simpl; lra).
  assert (H3 : paddleConstants (Paddle.constructor 772 260 8 80 600 true))
    by (repeat split; reflexivity).
  assert (H4 : 0 <= 0.1 <= 0.1) by lra.
  assert (H5 : Ball.velocityX
                 (Ball.mk 400 100 800 600 10 300 300 600 1.05 (PI / 3) 260 150) > 0)
    by (simpl; lra).
  split; [repeat split; try assumption; try apply H2; lra |].
  destruct (proj1 (ai_paddle_tracks _ _ 0.1 H1 H2 H3 H4 H5)) as (_ & E & _).
  - unfold paddleCenter; simpl; lra.
  - rewrite E; simpl; cmp; lra.
Defined.

(** X15: the AI paddle, on screen, with the constants of the constructor,
    while the ball goes away (vx <= 0), for a time step of at most 0.1 s:
    it drifts towards the middle of the canvas at 180 pixels per second
    (speed * aiReturnSpeed, under its full speed) when its centre is more
    than 10 away from the middle, and stays where it is otherwise; it does
    not leave the screen, and it never drifts past the other side of the
    10 pixel zone around the middle. *)
Theorem ai_paddle_returns (p : Paddle.t) (ball : Ball.t) (dt : R) :
  Paddle.isAI p = true ->
  onScreen p ->
  paddleConstants p ->
  0 <= dt <= 0.1 ->
  Ball.velocityX ball <= 0 ->
  let p' := Paddle.updateAI ball dt p in
  let middle := Paddle.canvasHeight p / 2 in
  (paddleCenter p < middle - 10 ->
   Paddle.velocity p' = 1%Z /\
   Paddle.y p' = Rmin (Paddle.canvasHeight p - Paddle.height p)
                      (Paddle.y p + 180 * dt) /\
   Paddle.y p <= Paddle.y p' <= Paddle.y p + 180 * dt /\
   paddleCenter p' <= middle + 10) /\
  (paddleCenter p > middle + 10 ->
   Paddle.velocity p' = (-1)%Z /\
   Paddle.y p' = Rmax 0 (Paddle.y p - 180 * dt) /\
   Paddle.y p - 180 * dt <= Paddle.y p' <= Paddle.y p /\
   middle - 10 <= paddleCenter p') /\
  (middle - 10 <= paddleCenter p <= middle + 10 ->
   Paddle.velocity p' = 0%Z /\ Paddle.y p' = Paddle.y p).
Proof.
  intros Hrole Hon (Hs & Ht & Hr) Hdt Hvx; cbv zeta.
  unfold onScreen in Hon; unfold paddleCenter.
  unfold Paddle.updateAI; rewrite Hrole; simpl negb; cbv iota zeta.
  replace (gtb (BallState.velocityX ball) 0) with false
    by (change (BallState.velocityX ball) with (Ball.velocityX ball); cmp; lra).
  split; [| split].
  - intros Hc.
    replace (ltb (Paddle.y p + Paddle.height p / 2) (Paddle.canvasHeight p / 2 - 10))
      with true by (symmetry; apply ltb_spec; exact Hc).
    unfold Paddle.enforceBounds; simpl; rewrite Hs, Hr.
    split; [reflexivity |].
    assert (E : Rmax 0 (Rmin (Paddle.canvasHeight p - Paddle.height p)
                             (Paddle.y p + 1 * 300 * 0.6 * dt))
                = Rmin (Paddle.canvasHeight p - Paddle.height p)
                       (Paddle.y p + 180 * dt)) by (cmp; lra).
    rewrite E; split; [reflexivity |].
    cmp; lra.
  - intros Hc.
    replace (ltb (Paddle.y p + Paddle.height p / 2) (Paddle.canvasHeight p / 2 - 10))
      with false by (cmp; lra).
    replace (gtb (Paddle.y p + Paddle.height p / 2) (Paddle.canvasHeight p / 2 + 10))
      with true by (symmetry; apply gtb_spec; exact Hc).
    unfold Paddle.enforceBounds; simpl; rewrite Hs, Hr.
    split; [reflexivity |].
    assert (E : Rmax 0 (Rmin (Paddle.canvasHeight p - Paddle.height p)
                             (Paddle.y p + -1 * 300 * 0.6 * dt))
                = Rmax 0 (Paddle.y p - 180 * dt)) by (cmp; lra).
    rewrite E; split; [reflexivity |].
    cmp; lra.
  - intros Hc.
    replace (ltb (Paddle.y p + Paddle.height p / 2) (Paddle.canvasHeight p / 2 - 10))
      with false by (cmp; lra).
    replace (gtb (Paddle.y p + Paddle.height p / 2) (Paddle.canvasHeight p / 2 + 10))
      with false by (cmp; lra).
    unfold Paddle.enforceBounds; simpl.
    split; [reflexivity | cmp; lra].
Qed.

Lemma ai_paddle_returns_witness :
  let p := Paddle.constructor 772 0 8 80 400 true in
  let ball := Ball.mk 400 300 800 600 10 300 300 600 1.05 (PI / 3) (-300) 0 in
  (Paddle.isAI p = true /\ onScreen p /\ paddleConstants p /\
   0 <= 0.1 <= 0.1 /\ Ball.velocityX ball <= 0) /\
  Paddle.y (Paddle.updateAI ball 0.1 p) = 18.
Proof.
  assert (H1 : Paddle.isAI (Paddle.constructor 772 0 8 80 400 true) = true)
    by reflexivity.
  assert (H2 : onScreen (Paddle.constructor 772 0 8 80 400 true))
    by (unfold onScreen; simpl; lra).
  assert (H3 : paddleConstants (Paddle.constructor 772 0 8 80 400 true))
    by (repeat split; reflexivity).
  assert (H4 : 0 <= 0.1 <= 0.1) by lra.
  assert (H5 : Ball.velocityX
                 (Ball.mk 400 300 800 600 10 300 300 600 1.05 (PI / 3) (-300) 0) <= 0)
    by (simpl; lra).
  split; [repeat split; try assumption; try apply H2; lra |].
  destruct (proj1 (ai_paddle_returns _ _ 0.1 H1 H2 H3 H4 H5)) as (_ & E & _).
  - unfold paddleCenter; simpl; lra.
  - rewrite E; simpl; cmp; lra.
Defined.

(** ** Game: the time step of a frame *)







(** ** The canvas *)

(** X17: when the window leaves room beside the margin (20 for a viewport
    under 768 wide, 40 otherwise), [setupCanvas] returns the largest
    rectangle of ratio 3 to 2 that fits in this room and in 900 by 600: its
    width and height are positive, at most 900 and 600 and at most the room
    there is, and the width is 3/2 of the height.  The canvas has this size
    times the device pixel ratio, and this size itself when the ratio is
    missing or 0. *)
Theorem canvas_fits (innerWidth innerHeight : R) (devicePixelRatio : option R) :
  Canvas.margin innerWidth < innerWidth ->
  Canvas.margin innerWidth < innerHeight ->
  let roomX := innerWidth - Canvas.margin innerWidth in
  let roomY := innerHeight - Canvas.margin innerWidth in
  let c := Canvas.setupCanvas innerWidth innerHeight devicePixelRatio in
  0 < Canvas.width c <= 900 /\
  0 < Canvas.height c <= 600 /\
  Canvas.width c = 3 / 2 * Canvas.height c /\
  Canvas.width c <= roomX /\
  Canvas.height c <= roomY /\
  Canvas.width c = Rmin (Rmin roomX (3 / 2 * roomY)) 900 /\
  (devicePixelRatio = None \/ devicePixelRatio = Some 0 ->
   Canvas.pixelWidth c = Canvas.width c /\
   Canvas.pixelHeight c = Canvas.height c) /\
  (forall d, devicePixelRatio = Some d -> d <> 0 ->
     Canvas.pixelWidth c = Canvas.width c * d /\
     Canvas.pixelHeight c = Canvas.height c * d).
Proof.
  unfold Canvas.margin; intros Hx Hy; cbv zeta.
  unfold Canvas.setupCanvas; cbv zeta.
  set (m := if ltb innerWidth 768 then 20 else 40) in *.
  set (w := innerWidth - m); set (h := innerHeight - m).
  assert (Hw : 0 < w) by (unfold w; lra).
  assert (Hh : 0 < h) by (unfold h; lra).
  assert (Hq : w = w / h * h) by (field; lra).
  rewrite (divide_num w h) by lra.
  change (gtq (Num (w / h)) (3 / 2)) with (gtb (w / h) (3 / 2)).
  assert (Hsize :
            let (width, height) :=
              if gtb (w / h) (3 / 2) then (Rmin h 600 * (3 / 2), Rmin h 600)
              else (Rmin w 900, Rmin w 900 / (3 / 2)) in
            0 < width <= 900 /\ 0 < height <= 600 /\
            width = 3 / 2 * height /\ width <= w /\ height <= h /\
            width = Rmin (Rmin w (3 / 2 * h)) 900).
  { destruct (gtb (w / h) (3 / 2)) eqn:E.
    - apply gtb_spec in E.
      assert (w > 3 / 2 * h) by nra.
      cmp; lra.
    - assert (N : ~ w / h > 3 / 2) by (rewrite <- gtb_spec; congruence).
      assert (w <= 3 / 2 * h) by nra.
      cmp; lra. }
  destruct (if gtb (w / h) (3 / 2) then _ else _) as [width height].
  destruct Hsize as (S1 & S2 & S3 & S4 & S5 & S6); simpl.
  repeat split; try lra.
  - destruct H as [-> | ->]; [ring |].
    destruct (Req_dec_T 0 0); [ring | exfalso; auto].
  - destruct H as [-> | ->]; [ring |].
    destruct (Req_dec_T 0 0); [ring | exfalso; auto].
  - subst devicePixelRatio; destruct (Req_dec_T d 0); [contradiction | reflexivity].
  - subst devicePixelRatio; destruct (Req_dec_T d 0); [contradiction | reflexivity].
Qed.

Lemma canvas_fits_witness :
  (Canvas.margin 1280 < 1280 /\ Canvas.margin 1280 < 720) /\
  Canvas.width (Canvas.setupCanvas 1280 720 (Some 2)) = 900 /\
  Canvas.pixelWidth (Canvas.setupCanvas 1280 720 (Some 2)) = 1800.
Proof.
  assert (Hm : Canvas.margin 1280 = 40) by (unfold Canvas.margin; cmp; lra).
  assert (Hx : Canvas.margin 1280 < 1280) by (rewrite Hm; lra).
  assert (Hy : Canvas.margin 1280 < 720) by (rewrite Hm; lra).
  split; [split; [exact Hx | exact Hy] |].
  pose proof (canvas_fits 1280 720 (Some 2) Hx Hy) as H; cbv zeta in H.
  destruct H as (_ & _ & _ & _ & _ & Hw & _ & Hp).
  rewrite Hm in Hw.
  assert (E : Canvas.width (Canvas.setupCanvas 1280 720 (Some 2)) = 900)
    by (rewrite Hw; cmp; lra).
  split; [exact E |].
  destruct (Hp 2 eq_refl) as [Hpw _]; [lra |].
  rewrite Hpw, E; lra.
Defined.


(** ** The page: one point in a frame *)

Lemma canvas_width_lower (innerWidth innerHeight : R) (dpr : option R) :
  viewportOk innerWidth ->
  -20 <= Canvas.width (Canvas.setupCanvas innerWidth innerHeight dpr).
Proof.
  unfold viewportOk, Canvas.margin; intros Hx.
  unfold Canvas.setupCanvas; cbv zeta.
  set (m := if ltb innerWidth 768 then 20 else 40) in *.
  set (w := innerWidth - m); set (h := innerHeight - m) in *.
  assert (Hw : -20 <= w) by (unfold w, m; cmp; lra).
  assert (Hsize : -20 <= fst (if gtq (divide w h) (3 / 2)
                              then (Rmin h 600 * (3 / 2), Rmin h 600)
                              else (Rmin w 900, Rmin w 900 / (3 / 2)))).
  { destruct (Req_dec_T h 0) as [Hh | Hh].
    - unfold divide; destruct (Req_dec_T h 0); [| contradiction].
      destruct (Req_dec_T w 0); [| destruct (Rlt_dec 0 w)]; simpl;
        rewrite ?Hh; cmp; lra.
    - rewrite (divide_num w h Hh).
      change (gtq (Num (w / h)) (3 / 2)) with (gtb (w / h) (3 / 2)).
      assert (Hq : w = w / h * h) by (field; exact Hh).
      destruct (gtb (w / h) (3 / 2)) eqn:E; simpl.
      + apply gtb_spec in E.
        destruct (Rlt_dec 0 h) as [Hp | Hn].
        * cmp; lra.
        * assert (h < 0) by lra.
          assert (w < 3 / 2 * h) by nra.
          cmp; lra.
      + cmp; lra. }
  destruct (if gtq (divide w h) (3 / 2) then _ else _) as [width height].
  exact Hsize.
Qed.

Lemma update_width (dt : R) (g : Game.t) (rnd : Rng) :
  Game.width (fst (Game.update dt g rnd)) = Game.width g.
Proof.
  assert (Hplay : Game.width (fst (Game.updatePlaying dt g rnd)) = Game.width g).
  { unfold Game.updatePlaying.
    destruct (Game.state g); [| reflexivity].
    fold (beforeScoring dt g).
    pose proof (checkScoring_counters (beforeScoring dt g) rnd) as Hc.
    cbv zeta in Hc; destruct Hc as (_ & _ & _ & _ & _ & _ & Hc & _).
    pose proof (beforeScoring_fields dt g) as Hf; cbv zeta in Hf.
    destruct Hf as (_ & _ & _ & _ & F5 & _); congruence. }
  rewrite update_blocks.
  destruct (Game.updatePlaying dt g rnd) as [g1 rnd1]; simpl in Hplay |- *.
  unfold Game.updateRestart.
  destruct (Game.state g1); [exact Hplay |].
  destruct (Game.restartRequested g1); [| exact Hplay].
  unfold Game.reset; cbv zeta.
  match goal with |- context [Ball.reset ?x ?y ?b rnd1] =>
    destruct (Ball.reset x y b rnd1) end.
  exact Hplay.
Qed.

Lemma gameLoop_wired (currentTime : R) (g : Game.t) (rnd : Rng) :
  wired g -> wired (fst (Game.gameLoop currentTime g rnd)).
Proof.
  intros [L S W]; unfold Game.gameLoop; cbv zeta.
  constructor.
  - apply update_layout; destruct L; constructor; assumption.
  - apply update_invariant_game; destruct S; constructor; assumption.
  - rewrite update_width; exact W.
Qed.

Lemma set_inputHandler_wired (g : Game.t) (i : InputHandler.t) :
  wired g -> wired (Game.set_inputHandler g i).
Proof.
  intros [L S W]; constructor.
  - destruct L; constructor; assumption.
  - destruct S; constructor; assumption.
  - exact W.
Qed.

Lemma dispatch_wired (e : WindowEvent) (g : Game.t) (rnd : Rng) :
  wired g ->
  match e with
  | WindowResize innerWidth innerHeight _ => viewportOk innerWidth
  | _ => True
  end ->
  wired (fst (dispatch e g rnd)).
Proof.
  intros Hw He; destruct e; simpl;
    try (apply set_inputHandler_wired; exact Hw).
  - apply gameLoop_wired; exact Hw.
  - destruct (InputHandler.handleTouchStart _ _ _);
      [apply set_inputHandler_wired |]; exact Hw.
  - destruct Hw as [L S W]; unfold onResize; cbv zeta; constructor.
    + apply handleResize_layout; exact L.
    + destruct S; constructor; assumption.
    + simpl; apply canvas_width_lower; exact He.
Qed.

Lemma program_wired (es : list WindowEvent) (g : Game.t) (rnd : Rng) :
  wired g -> viewportsOk es -> wired (fst (program es g rnd)).
Proof.
  revert g rnd; induction es as [| e es IH]; intros g rnd Hw Hes; simpl.
  - exact Hw.
  - assert (He : match e with
                 | WindowResize iw ih _ => viewportOk iw
                 | _ => True
                 end) by (destruct e; simpl in Hes; tauto).
    assert (Hes' : viewportsOk es) by (destruct e; simpl in Hes; tauto).
    pose proof (dispatch_wired e g rnd Hw He) as H.
    destruct (dispatch e g rnd) as [g1 rnd1]; apply IH; assumption.
Qed.

Lemma main_wired (innerWidth innerHeight : R) (dpr : option R) (now : R) (rnd : Rng) :
  viewportOk innerWidth ->
  wired (fst (main innerWidth innerHeight dpr now rnd)).
Proof.
  intros Hv; unfold main; cbv zeta.
  pose proof (canvas_width_lower innerWidth innerHeight dpr Hv) as Hw.
  set (c := Canvas.setupCanvas innerWidth innerHeight dpr) in *.
  pose proof (constructor_layout (Canvas.width c) (Canvas.height c) rnd) as L.
  pose proof (constructor_gameInvariant (Canvas.width c) (Canvas.height c) rnd) as S.
  assert (W : Game.width (fst (Game.constructor (Canvas.width c) (Canvas.height c) rnd))
              = Canvas.width c).
  { unfold Game.constructor; cbv zeta.
    destruct (Ball.constructor _ _ _ _ rnd); reflexivity. }
  destruct (Game.constructor (Canvas.width c) (Canvas.height c) rnd) as [g rnd1].
  simpl in L, S, W; unfold Game.start; cbv zeta.
  apply gameLoop_wired; constructor.
  - destruct L; constructor; assumption.
  - destruct S; constructor; assumption.
  - simpl; rewrite W; exact Hw.
Qed.

Lemma wired_one_branch (dt : R) (g : Game.t) :
  wired g ->
  ~ (exitedLeft (beforeScoring dt g) /\ exitedRight (beforeScoring dt g)).
Proof.
  intros [L _ W].
  destruct (layout_ball _ (beforeScoring_layout dt g L)) as (Hr & _).
  pose proof (beforeScoring_fields dt g) as Hf; cbv zeta in Hf.
  destruct Hf as (_ & _ & _ & _ & F5 & _).
  unfold exitedLeft, exitedRight; rewrite Hr, F5; intros [A B]; lra.
Qed.

(** X18: in the page as main.js wires it (the canvas of [setupCanvas], for
    viewports of a width that is not negative; the listeners of the
    keyboard, the touch screen, the mouse and the window), the canvas is
    never narrower than -20, and so no frame
    gives a point to both sides: the playing block of a frame leaves the
    scores as they are or adds one point to one side, and a whole frame
    never adds more than one point to the total. *)
Theorem one_point_per_frame
    (innerWidth innerHeight : R) (devicePixelRatio : option R) (now : R)
    (rnd0 : Rng) (es : list WindowEvent) :
  viewportOk innerWidth ->
  viewportsOk es ->
  let start := main innerWidth innerHeight devicePixelRatio now rnd0 in
  let g := fst (program es (fst start) (snd start)) in
  -20 <= Game.width g /\
  (forall dt rnd,
     let g1 := fst (Game.updatePlaying dt g rnd) in
     (Game.playerScore g1 = Game.playerScore g /\
      Game.aiScore g1 = Game.aiScore g) \/
     (Game.playerScore g1 = (Game.playerScore g + 1)%Z /\
      Game.aiScore g1 = Game.aiScore g) \/
     (Game.playerScore g1 = Game.playerScore g /\
      Game.aiScore g1 = (Game.aiScore g + 1)%Z)) /\
  (forall currentTime rnd,
     (0 <= points (fst (Game.gameLoop currentTime g rnd)) <= points g + 1)%Z).
Proof.
  intros Hv Hes; cbv zeta.
  pose proof (program_wired es _ (snd (main innerWidth innerHeight
                                            devicePixelRatio now rnd0))
                (main_wired innerWidth innerHeight devicePixelRatio now rnd0 Hv)
                Hes) as Hw.
  set (g := fst (program es _ _)) in *.
  assert (Hblock : forall g0 dt rnd, wired g0 ->
            let g1 := fst (Game.updatePlaying dt g0 rnd) in
            (Game.playerScore g1 = Game.playerScore g0 /\
             Game.aiScore g1 = Game.aiScore g0) \/
            (Game.playerScore g1 = (Game.playerScore g0 + 1)%Z /\
             Game.aiScore g1 = Game.aiScore g0) \/
            (Game.playerScore g1 = Game.playerScore g0 /\
             Game.aiScore g1 = (Game.aiScore g0 + 1)%Z)).
  { intros g0 dt rnd Hw0; cbv zeta.
    destruct (status_cases (Game.state g0)) as [Hst | Hst].
    - rewrite (updatePlaying_playing dt g0 rnd Hst).
      pose proof (wired_one_branch dt g0 Hw0) as Hone.
      pose proof (checkScoring_counters (beforeScoring dt g0) rnd) as Hc.
      cbv zeta in Hc; destruct Hc as (C1 & C2 & C3 & C4 & _).
      pose proof (beforeScoring_fields dt g0) as Hf; cbv zeta in Hf.
      destruct Hf as (_ & F2 & F3 & _).
      destruct (exited_dec (beforeScoring dt g0)) as [[Hl | Hl] [Hr | Hr]].
      + exfalso; apply Hone; split; assumption.
      + right; right; rewrite (C1 Hl), (C4 Hr), F2, F3; split; reflexivity.
      + right; left; rewrite (C2 Hl), (C3 Hr), F2, F3; split; reflexivity.
      + left; rewrite (C2 Hl), (C4 Hr), F2, F3; split; reflexivity.
    - rewrite (updatePlaying_over dt g0 rnd Hst); left; split; reflexivity. }
  split; [apply Hw |].
  split; [intros dt rnd; apply Hblock; exact Hw |].
  intros currentTime rnd; unfold points.
  pose proof (gameLoop_wired currentTime g rnd Hw) as [_ [_ Hp1 Ha1 _] _].
  split; [lia |].
  unfold Game.gameLoop; cbv zeta.
  set (g0 := Game.set_lastTime g currentTime).
  set (dt := Rmin ((currentTime - Game.lastTime g) / 1000) 0.1).
  assert (Hw0 : wired g0).
  { destruct Hw as [L S W]; constructor.
    - destruct L; constructor; assumption.
    - destruct S; constructor; assumption.
    - exact W. }
  pose proof (Hblock g0 dt rnd Hw0) as Hb; cbv zeta in Hb.
  destruct Hw as [_ [_ Hp0 Ha0 _] _].
  rewrite update_blocks.
  destruct (Game.updatePlaying dt g0 rnd) as [g1 rnd1]; simpl in Hb |- *.
  unfold Game.updateRestart.
  destruct (Game.state g1); [simpl; lia |].
  destruct (Game.restartRequested g1); [| simpl; lia].
  pose proof (reset_game_fields g1 rnd1) as Hf; cbv zeta in Hf.
  destruct Hf as (_ & F2 & F3 & _); rewrite F2, F3; lia.
Qed.

(** A window 1280 by 720, then shrunk to a viewport 0 wide and 20 high,
    which leaves a height of 0 beside the margin. *)
Lemma one_point_per_frame_witness :
  (viewportOk 1280 /\ viewportsOk [WindowResize 0 20 None; KeyDown "KeyW"]) /\
  Z.le
    (points (fst (Game.gameLoop 16
               (fst (program [WindowResize 0 20 None; KeyDown "KeyW"]
                       (fst (main 1280 720 (Some 2) 0 zeros))
                       (snd (main 1280 720 (Some 2) 0 zeros))))
               zeros)))
    (Z.add
       (points (fst (program [WindowResize 0 20 None; KeyDown "KeyW"]
                       (fst (main 1280 720 (Some 2) 0 zeros))
                       (snd (main 1280 720 (Some 2) 0 zeros)))))
       1%Z).
Proof.
  assert (H1 : viewportOk 1280) by (unfold viewportOk; lra).
  assert (H2 : viewportsOk [WindowResize 0 20 None; KeyDown "KeyW"]).
  { simpl; split; [| exact I]. unfold viewportOk; lra. }
  split; [split; [exact H1 | exact H2] |].
  exact (proj2 (proj2 (proj2 (one_point_per_frame 1280 720 (Some 2) 0 zeros
                                 [WindowResize 0 20 None; KeyDown "KeyW"] H1 H2))
                 16 zeros)).
Defined.


(** ** The audio manager *)

Lemma resumeContext_fields (resumed : bool) (a : AudioManager.t) :
  AudioManager.masterVolume (AudioManager.resumeContext resumed a)
  = AudioManager.masterVolume a /\
  AudioManager.initialized (AudioManager.resumeContext resumed a)
  = AudioManager.initialized a /\
  AudioManager.audioContext (AudioManager.resumeContext resumed a)
  = option_map (afterResume resumed) (AudioManager.audioContext a).
Proof.
  unfold AudioManager.resumeContext.
  destruct (AudioManager.audioContext a) as [[|] |] eqn:E;
    [destruct resumed | |]; simpl; rewrite ?E; repeat split; reflexivity.
Qed.

Lemma playBeep_silent (resumed : bool) (frequency duration : R) (a : AudioManager.t) :
  silent a -> AudioManager.playBeep resumed frequency duration a = (a, None).
Proof.
  unfold silent, AudioManager.playBeep; intros [H | H]; rewrite H.
  - reflexivity.
  - rewrite orb_true_r; reflexivity.
Qed.

Lemma playBeep_sounding (resumed : bool) (frequency duration : R)
    (a : AudioManager.t) (c : ContextState) :
  AudioManager.initialized a = true ->
  AudioManager.audioContext a = Some c ->
  AudioManager.playBeep resumed frequency duration a
  = (AudioManager.resumeContext resumed a,
     Some (mkBeep frequency true (AudioManager.masterVolume a) 0.01
             (duration / 1000))).
Proof.
  intros Hi Hc; unfold AudioManager.playBeep; rewrite Hi, Hc; simpl.
  destruct (resumeContext_fields resumed a) as (-> & _); reflexivity.
Qed.

Lemma silent_dec (a : AudioManager.t) :
  silent a \/
  (AudioManager.initialized a = true /\
   exists c, AudioManager.audioContext a = Some c).
Proof.
  unfold silent.
  destruct (AudioManager.initialized a); [| left; left; reflexivity].
  destruct (AudioManager.audioContext a) as [c |];
    [right; split; [reflexivity | exists c; reflexivity]
    | left; right; reflexivity].
Qed.

Lemma playBeep_gain (resumed : bool) (frequency duration : R) (a : AudioManager.t) :
  AudioManager.masterVolume (fst (AudioManager.playBeep resumed frequency duration a))
  = AudioManager.masterVolume a /\
  (forall b, snd (AudioManager.playBeep resumed frequency duration a) = Some b ->
             b = mkBeep frequency true (AudioManager.masterVolume a) 0.01
                   (duration / 1000)).
Proof.
  destruct (silent_dec a) as [Hs | (Hi & c & Hc)].
  - rewrite (playBeep_silent _ _ _ _ Hs); simpl; split;
      [reflexivity | discriminate].
  - rewrite (playBeep_sounding _ _ _ _ c Hi Hc); simpl; split.
    + apply resumeContext_fields.
    + intros b Hb; injection Hb as <-; reflexivity.
Qed.

Lemma setVolume_range (volume : R) (a : AudioManager.t) :
  volumeInRange (AudioManager.setVolume volume a).
Proof. unfold volumeInRange, AudioManager.setVolume; simpl; cmp; lra. Qed.

Lemma audioCall_volume (c : AudioCall) (a : AudioManager.t) :
  volumeInRange a ->
  volumeInRange (fst (audioCall c a)) /\
  (forall b, snd (audioCall c a) = Some b ->
             startGain b = AudioManager.masterVolume a /\
             endGain b = 0.01 /\ squareWave b = true).
Proof.
  intros Hv.
  assert (Hplay : forall resumed frequency duration,
            volumeInRange (fst (AudioManager.playBeep resumed frequency duration a)) /\
            (forall b,
               snd (AudioManager.playBeep resumed frequency duration a) = Some b ->
               startGain b = AudioManager.masterVolume a /\
               endGain b = 0.01 /\ squareWave b = true)).
  { intros resumed frequency duration.
    destruct (playBeep_gain resumed frequency duration a) as [H1 H2].
    split; [unfold volumeInRange; rewrite H1; exact Hv |].
    intros b Hb; rewrite (H2 b Hb); simpl; repeat split; reflexivity. }
  destruct c; simpl; try apply Hplay; (split; [| discriminate]).
  - destruct created; exact Hv.
  - unfold volumeInRange.
    destruct (resumeContext_fields resumed a) as (-> & _); exact Hv.
  - apply setVolume_range.
  - unfold AudioManager.destroy.
    destruct (AudioManager.audioContext a); exact Hv.
Qed.

Lemma audioCalls_volume (cs : list AudioCall) (a : AudioManager.t) :
  volumeInRange a ->
  volumeInRange (fst (audioCalls cs a)) /\
  Forall (fun b => 0 <= startGain b <= 1 /\ endGain b = 0.01 /\
                   squareWave b = true)
         (snd (audioCalls cs a)).
Proof.
  revert a; induction cs as [| c cs IH]; intros a Hv; simpl.
  - split; [exact Hv | constructor].
  - destruct (audioCall_volume c a Hv) as [H1 H2].
    destruct (audioCall c a) as [a1 beep]; simpl in H1, H2.
    destruct (IH a1 H1) as [H3 H4].
    destruct (audioCalls cs a1) as [a2 beeps]; simpl in H3, H4 |- *.
    split; [exact H3 |].
    destruct beep as [b |]; [| exact H4].
    constructor; [| exact H4].
    destruct (H2 b eq_refl) as (G1 & G2 & G3).
    rewrite G1; repeat split; try assumption; apply Hv.
Qed.

(** X19: the master volume of an audio manager stays within [0, 1]
    whatever is called on it, from the 0.3 of its constructor on:
    [setVolume] clamps what it is given (and leaves the context alone), so
    every tone handed to the Web Audio API is a square wave that starts at
    a gain within [0, 1] and ramps to 0.01. *)
Theorem master_volume_in_range
    (created : option ContextState) (cs : list AudioCall) :
  let r := audioCalls cs (AudioManager.constructor created) in
  0 <= AudioManager.masterVolume (fst r) <= 1 /\
  Forall (fun b => 0 <= startGain b <= 1 /\ endGain b = 0.01 /\
                   squareWave b = true) (snd r) /\
  (forall volume a,
     let a' := AudioManager.setVolume volume a in
     (volume <= 0 -> AudioManager.masterVolume a' = 0) /\
     (0 <= volume <= 1 -> AudioManager.masterVolume a' = volume) /\
     (1 <= volume -> AudioManager.masterVolume a' = 1) /\
     AudioManager.audioContext a' = AudioManager.audioContext a /\
     AudioManager.initialized a' = AudioManager.initialized a).
Proof.
  cbv zeta.
  assert (H0 : volumeInRange (AudioManager.constructor created)).
  { unfold volumeInRange, AudioManager.constructor.
    destruct created; simpl; lra. }
  destruct (audioCalls_volume cs _ H0) as [H1 H2].
  split; [exact H1 |]. split; [exact H2 |].
  intros volume a; unfold AudioManager.setVolume; simpl.
  repeat split; try reflexivity; intros; cmp; lra.
Qed.

Lemma silenced_silent (a : AudioManager.t) : silenced a -> silent a.
Proof.
  intros [| a0 | a0]; unfold silent.
  - left; reflexivity.
  - left; reflexivity.
  - right; unfold AudioManager.destroy.
    destruct (AudioManager.audioContext a0) eqn:E; [reflexivity | exact E].
Qed.

Lemma audioCall_silent (c : AudioCall) (a : AudioManager.t) :
  silent a -> createsContext c = false ->
  silent (fst (audioCall c a)) /\ snd (audioCall c a) = None.
Proof.
  intros Hs Hc.
  assert (Hplay : forall resumed frequency duration,
            silent (fst (AudioManager.playBeep resumed frequency duration a)) /\
            snd (AudioManager.playBeep resumed frequency duration a) = None).
  { intros; rewrite (playBeep_silent _ _ _ _ Hs); split; [exact Hs | reflexivity]. }
  destruct c; simpl; try apply Hplay; (split; [| reflexivity]).
  - destruct created; [discriminate | left; reflexivity].
  - unfold silent.
    destruct (resumeContext_fields resumed a) as (_ & -> & ->).
    destruct Hs as [H | H]; [left; exact H | right; rewrite H; reflexivity].
  - exact Hs.
  - right; unfold AudioManager.destroy.
    destruct (AudioManager.audioContext a) eqn:E; [reflexivity | exact E].
Qed.

Lemma audioCalls_silent (cs : list AudioCall) (a : AudioManager.t) :
  silent a -> forallb (fun c => negb (createsContext c)) cs = true ->
  silent (fst (audioCalls cs a)) /\ snd (audioCalls cs a) = [].
Proof.
  revert a; induction cs as [| c cs IH]; intros a Hs Hcs; simpl.
  - split; [exact Hs | reflexivity].
  - simpl in Hcs; apply andb_true_iff in Hcs; destruct Hcs as [Hc Hcs].
    apply negb_true_iff in Hc.
    destruct (audioCall_silent c a Hs Hc) as [H1 H2].
    destruct (audioCall c a) as [a1 beep]; simpl in H1, H2; subst beep.
    destruct (IH a1 H1 Hcs) as [H3 H4].
    destruct (audioCalls cs a1) as [a2 beeps]; simpl in H3, H4 |- *.
    split; assumption.
Qed.

(** X20: a manager made where there is no Web Audio API, one whose [init]
    has failed or one that was destroyed hands no tone to the API, whatever
    is called on it, until an [init] gives it a context; that [init] makes
    the next sound audible again. *)
Theorem silenced_manager_plays_nothing (a : AudioManager.t) (cs : list AudioCall) :
  silenced a ->
  forallb (fun c => negb (createsContext c)) cs = true ->
  let a1 := fst (audioCalls cs a) in
  snd (audioCalls cs a) = [] /\
  (forall (c : ContextState) (resumed : bool) (frequency duration : R),
     snd (audioCalls [CallInit (Some c); CallPlayBeep resumed frequency duration] a1)
     = [mkBeep frequency true (AudioManager.masterVolume a1) 0.01
          (duration / 1000)]).
Proof.
  intros Ha Hcs a1.
  destruct (audioCalls_silent cs a (silenced_silent a Ha) Hcs) as [_ H].
  split; [exact H |].
  intros c resumed frequency duration.
  unfold audioCalls, audioCall.
  rewrite (playBeep_sounding resumed frequency duration
             (AudioManager.init (Some c) a1) c eq_refl eq_refl).
  reflexivity.
Qed.

Lemma silenced_manager_plays_nothing_witness :
  snd (audioCalls [CallPlayScore true; CallResumeContext true; CallPlayBeep false 440 50]
         (AudioManager.destroy (AudioManager.constructor (Some Running))))
  = [].
Proof.
  exact (proj1 (silenced_manager_plays_nothing
                  (AudioManager.destroy (AudioManager.constructor (Some Running)))
                  [CallPlayScore true; CallResumeContext true; CallPlayBeep false 440 50]
                  (silenced_destroyed _) eq_refl)).
Defined.

(** X21: a manager with a context plays every sound asked for, resuming
    its context first where the browser allows: the wall hit is a tone of
    220 Hz for 0.05 s, the paddle hit 440 Hz for 0.05 s, the point 330 Hz
    for 0.1 s and the end of the match 110 Hz for 0.2 s, each at the
    master volume; afterwards the manager still has its context, which is
    running unless it was suspended and could not be resumed. *)
Theorem sounds_of_the_game
    (a : AudioManager.t) (c : ContextState) (resumed : bool) :
  AudioManager.initialized a = true ->
  AudioManager.audioContext a = Some c ->
  let tone f d := Some (mkBeep f true (AudioManager.masterVolume a) 0.01 d) in
  snd (AudioManager.playWallHit resumed a) = tone 220 0.05 /\
  snd (AudioManager.playPaddleHit resumed a) = tone 440 0.05 /\
  snd (AudioManager.playScore resumed a) = tone 330 0.1 /\
  snd (AudioManager.playGameOver resumed a) = tone 110 0.2 /\
  (forall frequency duration,
     let a' := fst (AudioManager.playBeep resumed frequency duration a) in
     AudioManager.initialized a' = true /\
     AudioManager.masterVolume a' = AudioManager.masterVolume a /\
     AudioManager.audioContext a' = Some (afterResume resumed c) /\
     (c = Running \/ resumed = true ->
      AudioManager.audioContext a' = Some Running)).
Proof.
  intros Hi Hc; cbv zeta.
  unfold AudioManager.playWallHit, AudioManager.playPaddleHit,
    AudioManager.playScore, AudioManager.playGameOver.
  rewrite !(playBeep_sounding _ _ _ a c Hi Hc); simpl.
  repeat (split; [f_equal; f_equal; lra |]).
  intros frequency duration.
  rewrite (playBeep_sounding _ _ _ a c Hi Hc); simpl.
  destruct (resumeContext_fields resumed a) as (-> & -> & ->).
  rewrite Hc; simpl.
  repeat split; try assumption; try reflexivity.
  intros [-> | ->]; [reflexivity | destruct c; reflexivity].
Qed.

Lemma sounds_of_the_game_witness :
  snd (AudioManager.playScore true (AudioManager.constructor (Some Suspended)))
  = Some (mkBeep 330 true 0.3 0.01 0.1).
Proof.
  exact (proj1 (proj2 (proj2 (sounds_of_the_game
                                (AudioManager.constructor (Some Suspended))
                                Suspended true eq_refl eq_refl)))).
Defined.


(** ** Game: the sounds of a tick *)

(** X22: a tick of a game being played only adds to the sounds played:
    one score sound for each point of the tick, the game-over sound exactly
    when the tick ends the match, at most one wall sound and at most two
    paddle sounds; the restart check of the tick plays nothing, and a tick
    of a finished game plays nothing either. *)
Theorem tick_sounds (dt : R) (g : Game.t) (rnd : Rng) :
  Game.state g = PLAYING ->
  let g1 := fst (Game.updatePlaying dt g rnd) in
  (exists added,
     Game.audioManager g1 = Game.audioManager g ++ added /\
     Z.of_nat (countSound ScoreSound added) = (points g1 - points g)%Z /\
     (In GameOverSound added <-> Game.state g1 = GAME_OVER) /\
     (countSound WallHitSound added <= 1)%nat /\
     (countSound PaddleHitSound added <= 2)%nat) /\
  Game.audioManager (fst (Game.update dt g rnd)) = Game.audioManager g1 /\
  (forall g0 rnd0, Game.state g0 = GAME_OVER ->
     Game.audioManager (fst (Game.update dt g0 rnd0)) = Game.audioManager g0).
Proof.
  intros Hst; cbv zeta.
  assert (Hrestart : forall g0 rnd0,
            Game.audioManager (fst (Game.updateRestart g0 rnd0))
            = Game.audioManager g0).
  { intros g0 rnd0; unfold Game.updateRestart.
    destruct (Game.state g0); [reflexivity |].
    destruct (Game.restartRequested g0); [| reflexivity].
    unfold Game.reset; cbv zeta.
    match goal with |- context [Ball.reset ?x ?y ?b rnd0] =>
      destruct (Ball.reset x y b rnd0) end.
    reflexivity. }
  split; [| split].
  - rewrite (updatePlaying_playing dt g rnd Hst).
    pose proof (beforeScoring_fields dt g) as Hf; cbv zeta in Hf.
    destruct Hf as (F1 & F2 & F3 & _).
    destruct (beforeScoring_sounds dt g) as (w & p & a & Hb).
    destruct (checkScoring_sounds (beforeScoring dt g) rnd)
      as (added & H1 & H2 & H3 & H4 & H5); [congruence |].
    exists ((played w WallHitSound ++ played p PaddleHitSound
               ++ played a PaddleHitSound) ++ added).
    rewrite H1, Hb, <- !app_assoc.
    split; [reflexivity |].
    rewrite !countSound_app, H4, H5.
    split; [| split; [| split]].
    + unfold points in H2 |- *; rewrite <- F2, <- F3, <- H2.
      destruct w, p, a; reflexivity.
    + rewrite <- H3; rewrite !in_app_iff.
      split; [| tauto].
      destruct w, p, a; simpl; intros H;
        repeat (destruct H as [H | H]; try discriminate H);
        try contradiction; exact H.
    + destruct w, p, a; simpl; lia.
    + destruct w, p, a; simpl; lia.
  - rewrite update_blocks; apply Hrestart.
  - intros g0 rnd0 H0.
    rewrite update_blocks, (updatePlaying_over dt g0 rnd0 H0); apply Hrestart.
Qed.

(** The tenth point of the AI, in the game of scenario 1 with the AI at
    9: the tick plays one score sound and the sound of the end of the
    match. *)
Lemma tick_sounds_witness :
  let g := Game.set_aiScore scenarioGame 9%Z in
  Game.state g = PLAYING /\
  exists added,
    Game.audioManager (fst (Game.updatePlaying 0.4 g zeros))
    = Game.audioManager g ++ added /\
    countSound ScoreSound added = 1%nat /\
    In GameOverSound added.
Proof.
  cbv zeta; split; [reflexivity |].
  destruct (left_exit_tick (Game.set_aiScore scenarioGame 9%Z) 0.4 zeros)
    as (A1 & A2 & _ & _ & _ & A6); try reflexivity; try (simpl; lra).
  simpl in A6.
  destruct (tick_sounds 0.4 (Game.set_aiScore scenarioGame 9%Z) zeros eq_refl)
    as ((added & H1 & H2 & H3 & _) & _).
  exists added; split; [exact H1 |].
  split; [| apply H3; exact A6].
  unfold points in H2; rewrite A1, A2 in H2; simpl in H2; lia.
Defined.
